(** * Streaming speech delivery: segmentation, gapless scheduling,
      cancellation and credential-rotating retry.

    A shallow embedding of the text-to-speech path of the [MessageBubble]
    component ([handleSpeak], [stopAudio], [scheduleChunk]) and of the
    service functions [streamSpeech] and [generateStreamResponse].

    Conventions.
    - A JavaScript string is the list of its UTF-16 code units; [length]
      is the list length, as [String.prototype.length] is.
    - Audio times are seconds, as rationals.
    - Asynchronous code is cut at its [await] points: what runs between
      two suspension points is one function on the world state, and the
      environment (network, audio device, user) drives the world through
      events. *)

From Stdlib Require Import List Arith PeanoNat ZArith NArith Bool Lia.
From Stdlib Require Import QArith.
Import ListNotations.

Close Scope Q_scope.
Open Scope nat_scope.

(* ================================================================== *)
(** ** JavaScript strings *)

Module JS.

(** A UTF-16 code unit. *)
Definition char := N.

Definition jsstring := list char.

(** Truthiness of a string: only the empty string is falsy. *)
Definition truthy (s : jsstring) : bool :=
  match s with [] => false | _ :: _ => true end.

Definition char_eqb (a b : char) : bool := N.eqb a b.

(** White space and line terminators: the class [\s], and what
    [String.prototype.trim] removes. *)
Definition isWhiteSpace (c : char) : bool :=
  (((9 <=? c) && (c <=? 13)) || N.eqb c 32 || N.eqb c 160 || N.eqb c 5760
   || ((8192 <=? c) && (c <=? 8202)) || N.eqb c 8232 || N.eqb c 8233
   || N.eqb c 8239 || N.eqb c 8287 || N.eqb c 12288 || N.eqb c 65279)%N%bool.

(** [dropWhile p s]: [s] without its longest prefix in [p]. *)
Fixpoint dropWhile (p : char -> bool) (s : jsstring) : jsstring :=
  match s with
  | [] => []
  | c :: s' => if p c then dropWhile p s' else s
  end.

(** [String.prototype.trim]. *)
Definition trim (s : jsstring) : jsstring :=
  rev (dropWhile isWhiteSpace (rev (dropWhile isWhiteSpace s))).

(** [s.startsWith(p)]. *)
Fixpoint startsWith (p s : jsstring) : bool :=
  match p, s with
  | [], _ => true
  | a :: p', b :: s' => char_eqb a b && startsWith p' s'
  | _ :: _, [] => false
  end.

End JS.

Import JS.

(* ================================================================== *)
(** ** The sentence splitter

  [/[^.!?؟:\n]+[.!?؟:\n]+|[^.!?؟:\n]+$/g], run by
  [String.prototype.match].  The pattern is embedded with backtracking
  combinators in continuation-passing style: a combinator receives the
  remaining input and the continuation that matches the rest of the
  pattern, and answers with the input left after the whole match. *)

Module Splitter.

(** The class [[.!?؟:\n]]: full stop, exclamation mark, question mark,
    Arabic question mark (U+061F), colon, line feed. *)
Definition isDelim (c : char) : bool :=
  (N.eqb c 46 || N.eqb c 33 || N.eqb c 63 || N.eqb c 1567
   || N.eqb c 58 || N.eqb c 10)%bool.

(** The negated class [[^.!?؟:\n]]. *)
Definition notDelim (c : char) : bool := negb (isDelim c).

Definition cont := jsstring -> option jsstring.

(** [cls+]: one or more characters of the class, greedy: the longer
    match is tried first, the shorter one on backtracking. *)
Fixpoint plus (cls : char -> bool) (k : cont) (s : jsstring)
  : option jsstring :=
  match s with
  | [] => None
  | c :: s' =>
      if cls c then
        match plus cls k s' with
        | Some r => Some r
        | None => k s'
        end
      else None
  end.

(** [$] without the [m] flag: end of input only. *)
Definition eos (k : cont) (s : jsstring) : option jsstring :=
  match s with [] => k [] | _ :: _ => None end.

(** [a|b]: the left alternative first. *)
Definition alt (a b : cont -> jsstring -> option jsstring)
           (k : cont) (s : jsstring) : option jsstring :=
  match a k s with
  | Some r => Some r
  | None => b k s
  end.

Definition accept : cont := fun s => Some s.

(** The pattern, anchored at the start of [s]. *)
Definition sentenceRe (s : jsstring) : option jsstring :=
  alt (fun k => plus notDelim (plus isDelim k))
      (fun k => plus notDelim (eos k))
      accept s.

(** The global match loop: at each position try the pattern; on
    success record the matched text and go on after it, on failure
    move one code unit forward.  A match of this pattern is never
    empty.  [fuel] bounds the number of positions visited. *)
Fixpoint matchAll (fuel : nat) (s : jsstring) : list jsstring :=
  match fuel with
  | O => []
  | S fuel' =>
      match s with
      | [] => []
      | _ :: s' =>
          match sentenceRe s with
          | Some r => firstn (length s - length r) s :: matchAll fuel' r
          | None => matchAll fuel' s'
          end
      end
  end.

(** [cleanText.match(re) || [cleanText]]: [match] answers [null] when
    nothing matched. *)
Definition sentences (cleanText : jsstring) : list jsstring :=
  match matchAll (length cleanText) cleanText with
  | [] => [cleanText]
  | ms => ms
  end.

(** The greedy packing loop, one iteration: state is the array
    [chunks] and the accumulator [tempChunk]. *)
Definition maxChunkLen : nat := 200.

Definition packStep (st : list jsstring * jsstring) (sentence : jsstring)
  : list jsstring * jsstring :=
  let '(chunks, tempChunk) := st in
  if maxChunkLen <? length tempChunk + length sentence
  then (chunks ++ [tempChunk], sentence)
  else (chunks, tempChunk ++ sentence).

Definition packLoop (ss : list jsstring) : list jsstring * jsstring :=
  fold_left packStep ss ([], []).

(** [if (tempChunk) chunks.push(tempChunk)]. *)
Definition pack (ss : list jsstring) : list jsstring :=
  let '(chunks, tempChunk) := packLoop ss in
  if truthy tempChunk then chunks ++ [tempChunk] else chunks.

(** The chunk sequence handed to the orchestration loop. *)
Definition segment (cleanText : jsstring) : list jsstring :=
  pack (sentences cleanText).

(** [dropWhile p s]: [s] without its longest prefix in [p]. *)
Fixpoint dropWhile (p : char -> bool) (s : jsstring) : jsstring :=
  match s with
  | [] => []
  | c :: s' => if p c then dropWhile p s' else s
  end.

(** A suffix is what is left after its complement prefix. *)
Definition suffixOf (r s : jsstring) : Prop := exists p, s = p ++ r.

End Splitter.

Import Splitter.


(* ================================================================== *)
(** ** Decoding an audio frame

    [scheduleChunk] turns the base64 payload into samples with [atob],
    a [Uint8Array], an [Int16Array] over the same buffer and a
    [Float32Array].  The three platform operations that can throw are
    [atob] (malformed base64), the [Int16Array] constructor (odd byte
    length) and [createBuffer] (zero frames). *)

Module Pcm.

Definition isAsciiWhitespace (c : char) : bool :=
  (N.eqb c 9 || N.eqb c 10 || N.eqb c 12 || N.eqb c 13 || N.eqb c 32)%bool.

(** Value of a character of the base64 alphabet. *)
Definition sextet (c : char) : option N :=
  if ((65 <=? c) && (c <=? 90))%N%bool then Some (c - 65)%N
  else if ((97 <=? c) && (c <=? 122))%N%bool then Some (c - 97 + 26)%N
  else if ((48 <=? c) && (c <=? 57))%N%bool then Some (c - 48 + 52)%N
  else if N.eqb c 43 then Some 62%N
  else if N.eqb c 47 then Some 63%N
  else None.

Fixpoint sextets (s : jsstring) : option (list N) :=
  match s with
  | [] => Some []
  | c :: s' =>
      match sextet c, sextets s' with
      | Some v, Some vs => Some (v :: vs)
      | _, _ => None
      end
  end.

(** Up to two trailing [=] are dropped when the length is a multiple of
    four. *)
Definition stripPadding (s : jsstring) : jsstring :=
  if Nat.eqb (length s mod 4) 0 then
    match rev s with
    | 61%N :: 61%N :: r => rev r
    | 61%N :: r => rev r
    | _ => s
    end
  else s.

Fixpoint bytesOfSextets (l : list N) : list N :=
  match l with
  | a :: b :: c :: d :: r =>
      let n := (a * 262144 + b * 4096 + c * 64 + d)%N in
      (n / 65536)%N :: ((n / 256) mod 256)%N :: (n mod 256)%N
        :: bytesOfSextets r
  | [a; b; c] =>
      let n := ((a * 4096 + b * 64 + c) / 4)%N in
      [(n / 256)%N; (n mod 256)%N]
  | [a; b] => [((a * 64 + b) / 16)%N]
  | _ => []
  end.

(** [atob]: the forgiving base64 decoder of the HTML standard; [None]
    is the [InvalidCharacterError] it throws.  The result is the list of
    byte values, which is what the [charCodeAt] loop copies into the
    [Uint8Array]. *)
Definition atob (base64 : jsstring) : option (list N) :=
  let data :=
    stripPadding (filter (fun c => negb (isAsciiWhitespace c)) base64) in
  if Nat.eqb (length data mod 4) 1 then None
  else option_map bytesOfSextets (sextets data).

(** [new Int16Array(bytes.buffer)]: little-endian pairs as signed 16-bit
    integers; [None] is the [RangeError] for an odd byte length. *)
Definition toInt16 (lo hi : N) : Z :=
  let u := Z.of_N (lo + 256 * hi) in
  if (u <? 32768)%Z then u else (u - 65536)%Z.

Fixpoint int16Array (bytes : list N) : option (list Z) :=
  match bytes with
  | [] => Some []
  | [_] => None
  | lo :: hi :: r => option_map (cons (toInt16 lo hi)) (int16Array r)
  end.

(** [int16[i] / 32768.0]; the quotient is exact in single precision. *)
Definition toFloat (v : Z) : Q := Qmake v 32768.

Definition sampleRate : positive := 24000.

(** Everything in the [try] block of [scheduleChunk] up to and including
    [createBuffer]: the samples of the buffer, or [None] when one of the
    steps throws.  [createBuffer] throws [NotSupportedError] for a
    length of zero. *)
Definition decode (base64 : jsstring) : option (list Q) :=
  match atob base64 with
  | None => None
  | Some bytes =>
      match int16Array bytes with
      | None => None
      | Some int16 =>
          match map toFloat int16 with
          | [] => None
          | float32 => Some float32
          end
      end
  end.

(** [Math.max] on two finite numbers. *)
Definition Math_max (a b : Q) : Q := if Qle_bool a b then b else a.

(** An [AudioBufferSourceNode] that has been started: its identity, its
    buffer and the time given to [start]. *)
Record Node := {
  node_id : nat;
  node_samples : list Q;
  node_start : Q
}.

(** [buffer.duration]: frames over sample rate, in seconds. *)
Definition duration (n : Node) : Q :=
  Qmake (Z.of_nat (length (node_samples n))) sampleRate.

End Pcm.

Import Pcm.

(* ================================================================== *)
(** ** The credential pool *)

Module Pool.

(** Modelled from the spec: the credential pool kept by the module
    [utils/apiKeyManager], which is imported by the service but is not
    among the sources: an ordered sequence of credential tokens and a
    cursor into it. *)
Record CredentialPool := {
  pool_keys : list jsstring;
  pool_cursor : nat
}.

(** Modelled from the spec: [getApiKey] of [utils/apiKeyManager], as the
    pool's [current()]: the token at the cursor, and a failure
    ([PoolExhausted], here [None]) when the cursor is past the end. *)
Definition getApiKey (p : CredentialPool) : option jsstring :=
  nth_error (pool_keys p) (pool_cursor p).

(** Modelled from the spec: [rotateApiKey] of [utils/apiKeyManager], as
    the pool's [rotate()]: the cursor advances by one and never wraps;
    the answer tells whether a valid next credential exists. *)
Definition rotateApiKey (p : CredentialPool) : bool * CredentialPool :=
  let next := S (pool_cursor p) in
  (next <? length (pool_keys p),
   {| pool_keys := pool_keys p; pool_cursor := next |}).

End Pool.

Import Pool.

(* ================================================================== *)
(** ** The player: component state, platform and network *)

Module Player.

Inductive CtxState := Suspended | Running.

(** A streaming synthesis request that has been sent and whose stream is
    still open: the invocation of [streamSpeech] it belongs to is
    suspended at [await generateContentStream] or in its [for await].
    [req_call] names the call of the orchestration loop that the
    invocation descends from (itself, or the one it retries). *)
Record Request := {
  req_id : nat;
  req_call : nat;
  req_text : jsstring;
  req_retry : nat
}.

(** A suspended activation of [handleSpeak]. *)
Inductive Task :=
| AwaitResume (cleanText : jsstring)
    (** at [await audioContextRef.current.resume()] *)
| AwaitSpeech (rid : nat) (rest : list jsstring)
    (** at [await streamSpeech(chunk, ...)], on the invocation that sent
        request [rid]; [rest] are the chunks the loop has not reached *).

Inductive LogMsg :=
| TtsStreamError (call : nat)
    (** ["TTS Stream Error:"], [streamSpeech]; [call] notes the call of
        the loop that the failed invocation descends from *)
| DecodeError           (** ["Error decoding audio chunk"], [scheduleChunk] *)
| PlaybackError         (** ["Audio Playback Error"], [handleSpeak] *).

(** What the component does to the outside, in the order it happens. *)
Inductive Action :=
| ACallStreamSpeech (call : nat) (text : jsstring) (retryCount : nat)
| ASend (rid : nat) (key : jsstring) (text : jsstring)
| ARotate (call : nat) (ok : bool)
| AScheduleChunk (base64 : jsstring)
| AStart (source : Node) (clock : Q)
| AStop (node : nat)
| AConsoleError (msg : LogMsg).

Record World := {
  (* React state *)
  isSpeaking : bool;
  isLoadingAudio : bool;
  (* refs *)
  isSpeakingRef : bool;
  audioContextRef : option CtxState;
  sourcesRef : list Node;
  nextStartTimeRef : Q;
  (* the audio clock, [ctx.currentTime] *)
  currentTime : Q;
  (* services *)
  pool : CredentialPool;
  inflight : list Request;
  (* suspended activations of handleSpeak, oldest first *)
  tasks : list Task;
  (* source of identities for nodes, requests and calls *)
  fresh : nat;
  (* history, oldest first *)
  trace : list Action
}.

Definition set_isSpeaking v w :=
  {| isSpeaking := v; isLoadingAudio := isLoadingAudio w;
     isSpeakingRef := isSpeakingRef w; audioContextRef := audioContextRef w;
     sourcesRef := sourcesRef w; nextStartTimeRef := nextStartTimeRef w;
     currentTime := currentTime w; pool := pool w; inflight := inflight w;
     tasks := tasks w; fresh := fresh w; trace := trace w |}.

Definition set_isLoadingAudio v w :=
  {| isSpeaking := isSpeaking w; isLoadingAudio := v;
     isSpeakingRef := isSpeakingRef w; audioContextRef := audioContextRef w;
     sourcesRef := sourcesRef w; nextStartTimeRef := nextStartTimeRef w;
     currentTime := currentTime w; pool := pool w; inflight := inflight w;
     tasks := tasks w; fresh := fresh w; trace := trace w |}.

Definition set_isSpeakingRef v w :=
  {| isSpeaking := isSpeaking w; isLoadingAudio := isLoadingAudio w;
     isSpeakingRef := v; audioContextRef := audioContextRef w;
     sourcesRef := sourcesRef w; nextStartTimeRef := nextStartTimeRef w;
     currentTime := currentTime w; pool := pool w; inflight := inflight w;
     tasks := tasks w; fresh := fresh w; trace := trace w |}.

Definition set_audioContextRef v w :=
  {| isSpeaking := isSpeaking w; isLoadingAudio := isLoadingAudio w;
     isSpeakingRef := isSpeakingRef w; audioContextRef := v;
     sourcesRef := sourcesRef w; nextStartTimeRef := nextStartTimeRef w;
     currentTime := currentTime w; pool := pool w; inflight := inflight w;
     tasks := tasks w; fresh := fresh w; trace := trace w |}.

Definition set_sourcesRef v w :=
  {| isSpeaking := isSpeaking w; isLoadingAudio := isLoadingAudio w;
     isSpeakingRef := isSpeakingRef w; audioContextRef := audioContextRef w;
     sourcesRef := v; nextStartTimeRef := nextStartTimeRef w;
     currentTime := currentTime w; pool := pool w; inflight := inflight w;
     tasks := tasks w; fresh := fresh w; trace := trace w |}.

Definition set_nextStartTimeRef v w :=
  {| isSpeaking := isSpeaking w; isLoadingAudio := isLoadingAudio w;
     isSpeakingRef := isSpeakingRef w; audioContextRef := audioContextRef w;
     sourcesRef := sourcesRef w; nextStartTimeRef := v;
     currentTime := currentTime w; pool := pool w; inflight := inflight w;
     tasks := tasks w; fresh := fresh w; trace := trace w |}.

Definition set_currentTime v w :=
  {| isSpeaking := isSpeaking w; isLoadingAudio := isLoadingAudio w;
     isSpeakingRef := isSpeakingRef w; audioContextRef := audioContextRef w;
     sourcesRef := sourcesRef w; nextStartTimeRef := nextStartTimeRef w;
     currentTime := v; pool := pool w; inflight := inflight w;
     tasks := tasks w; fresh := fresh w; trace := trace w |}.

Definition set_pool v w :=
  {| isSpeaking := isSpeaking w; isLoadingAudio := isLoadingAudio w;
     isSpeakingRef := isSpeakingRef w; audioContextRef := audioContextRef w;
     sourcesRef := sourcesRef w; nextStartTimeRef := nextStartTimeRef w;
     currentTime := currentTime w; pool := v; inflight := inflight w;
     tasks := tasks w; fresh := fresh w; trace := trace w |}.

Definition set_inflight v w :=
  {| isSpeaking := isSpeaking w; isLoadingAudio := isLoadingAudio w;
     isSpeakingRef := isSpeakingRef w; audioContextRef := audioContextRef w;
     sourcesRef := sourcesRef w; nextStartTimeRef := nextStartTimeRef w;
     currentTime := currentTime w; pool := pool w; inflight := v;
     tasks := tasks w; fresh := fresh w; trace := trace w |}.

Definition set_tasks v w :=
  {| isSpeaking := isSpeaking w; isLoadingAudio := isLoadingAudio w;
     isSpeakingRef := isSpeakingRef w; audioContextRef := audioContextRef w;
     sourcesRef := sourcesRef w; nextStartTimeRef := nextStartTimeRef w;
     currentTime := currentTime w; pool := pool w; inflight := inflight w;
     tasks := v; fresh := fresh w; trace := trace w |}.

Definition set_fresh v w :=
  {| isSpeaking := isSpeaking w; isLoadingAudio := isLoadingAudio w;
     isSpeakingRef := isSpeakingRef w; audioContextRef := audioContextRef w;
     sourcesRef := sourcesRef w; nextStartTimeRef := nextStartTimeRef w;
     currentTime := currentTime w; pool := pool w; inflight := inflight w;
     tasks := tasks w; fresh := v; trace := trace w |}.

Definition emit (a : Action) w :=
  {| isSpeaking := isSpeaking w; isLoadingAudio := isLoadingAudio w;
     isSpeakingRef := isSpeakingRef w; audioContextRef := audioContextRef w;
     sourcesRef := sourcesRef w; nextStartTimeRef := nextStartTimeRef w;
     currentTime := currentTime w; pool := pool w; inflight := inflight w;
     tasks := tasks w; fresh := fresh w; trace := trace w ++ [a] |}.

(* ------------------------------------------------------------------ *)
(** *** stopAudio *)

Definition stopAudio (w : World) : World :=
  (* 1. the flag that stops the loop *)
  let w := set_isSpeakingRef false w in
  (* 2. source.stop() on every node, exceptions ignored *)
  let w := fold_left (fun w source => emit (AStop (node_id source)) w)
                     (sourcesRef w) w in
  let w := set_sourcesRef [] w in
  (* 3. UI state and timeline cursor *)
  let w := set_isSpeaking false w in
  let w := set_isLoadingAudio false w in
  set_nextStartTimeRef 0%Q w.

(* ------------------------------------------------------------------ *)
(** *** scheduleChunk and the onended handler *)

Definition scheduleChunk (base64 : jsstring) (w : World)
  : World * option Node :=
  let w := emit (AScheduleChunk base64) w in
  match audioContextRef w with
  | None => (w, None)
  | Some _ =>
      match decode base64 with
      | None => (emit (AConsoleError DecodeError) w, None)
      | Some float32 =>
          let startTime := Math_max (currentTime w) (nextStartTimeRef w) in
          let source := {| node_id := fresh w;
                           node_samples := float32;
                           node_start := startTime |} in
          let w := set_fresh (S (fresh w)) w in
          let w := emit (AStart source (currentTime w)) w in
          let w := set_nextStartTimeRef (startTime + duration source)%Q w in
          let w := set_sourcesRef (sourcesRef w ++ [source]) w in
          (w, Some source)
      end
  end.

(** [indexOf] and [splice(index, 1)]: the first entry that is the node. *)
Fixpoint removeNode (id : nat) (l : list Node) : list Node :=
  match l with
  | [] => []
  | n :: l' => if Nat.eqb (node_id n) id then l' else n :: removeNode id l'
  end.

Definition onended (id : nat) (w : World) : World :=
  let w := set_sourcesRef (removeNode id (sourcesRef w)) w in
  match sourcesRef w with
  | [] =>
      if Qle_bool (nextStartTimeRef w) (currentTime w)
      then set_isSpeakingRef false (set_isSpeaking false w)
      else w
  | _ :: _ => w
  end.

(* ------------------------------------------------------------------ *)
(** *** streamSpeech *)

(** The promise an invocation hands to its caller, as the caller finds
    it once the synchronous part of the invocation is over. *)
Inductive Promise :=
| Pending (rid : nat)   (** suspended on the stream of request [rid] *)
| Fulfilled
| Rejected.

(** The [catch] block.  [retry] is [streamSpeech] itself; its promise is
    dropped, the call is not awaited. *)
Definition streamSpeechCatchWith
    (retry : jsstring -> nat -> World -> World * Promise)
    (call : nat) (text : jsstring) (retryCount : nat) (w : World) : World :=
  let w := emit (AConsoleError (TtsStreamError call)) w in
  if retryCount <? 3 then
    let '(ok, p) := rotateApiKey (pool w) in
    let w := emit (ARotate call ok) (set_pool p w) in
    if ok then fst (retry text (S retryCount) w) else w
  else w.

(** The synchronous part of an invocation: up to the first [await], or,
    when [getAIClient] throws, through the [catch] block to the end.
    [gas] bounds the nesting of retries; with none left the invocation
    is reported as [Rejected]. *)
Fixpoint streamSpeechFrom (gas : nat) (call : nat) (text : jsstring)
         (retryCount : nat) (w : World) : World * Promise :=
  match gas with
  | O => (w, Rejected)
  | S gas' =>
      let w := emit (ACallStreamSpeech call text retryCount) w in
      match getApiKey (pool w) with
      | Some key =>
          let rid := fresh w in
          let w := set_fresh (S rid) w in
          let w := emit (ASend rid key text) w in
          let w := set_inflight
                     (inflight w ++ [{| req_id := rid; req_call := call;
                                        req_text := text;
                                        req_retry := retryCount |}]) w in
          (w, Pending rid)
      | None =>
          (streamSpeechCatchWith (streamSpeechFrom gas' call)
                                 call text retryCount w,
           Fulfilled)
      end
  end.

Definition streamSpeech (call : nat) (text : jsstring) (retryCount : nat)
  : World -> World * Promise :=
  streamSpeechFrom (S (3 - retryCount)) call text retryCount.

Definition streamSpeechCatch (call : nat) : jsstring -> nat -> World -> World :=
  streamSpeechCatchWith (streamSpeech call) call.

(* ------------------------------------------------------------------ *)
(** *** The text that is spoken

    [message.text] goes through three global replacements, [trim] and
    [substring(0, 2000)]. *)

(** Three backticks. *)
Definition fence : jsstring := [96; 96; 96]%N.

(** The input after the first [fence] in it. *)
Fixpoint afterFence (s : jsstring) : option jsstring :=
  match s with
  | [] => None
  | _ :: s' => if startsWith fence s then Some (skipn 3 s) else afterFence s'
  end.

(** [.replace(/```[\s\S]*?```/g, '')]: a fence, the shortest text up to
    the next fence, and that fence, are dropped; a fence that is never
    closed stays.  [fuel] bounds the positions visited. *)
Fixpoint removeCodeBlocks (fuel : nat) (s : jsstring) : jsstring :=
  match fuel with
  | O => s
  | S fuel' =>
      match s with
      | [] => []
      | c :: s' =>
          if startsWith fence s then
            match afterFence (skipn 3 s) with
            | Some rest => removeCodeBlocks fuel' rest
            | None => c :: removeCodeBlocks fuel' s'
            end
          else c :: removeCodeBlocks fuel' s'
      end
  end.

(** The class of [*], [#], the backtick, [_] and [-]. *)
Definition isMarkup (c : char) : bool :=
  (N.eqb c 42 || N.eqb c 35 || N.eqb c 96 || N.eqb c 95 || N.eqb c 45)%bool.

(** The replacement of each markup character by a space. *)
Definition replaceMarkup (s : jsstring) : jsstring :=
  map (fun c => if isMarkup c then 32%N else c) s.

(** The word spoken in place of a link: U+0631 U+0627 U+0628 U+0637. *)
Definition linkWord : jsstring := [1585; 1575; 1576; 1591]%N.

(** [https?:\/\/] at the start of [s]: what follows the scheme. *)
Definition afterScheme (s : jsstring) : option jsstring :=
  if startsWith [104; 116; 116; 112; 115; 58; 47; 47]%N s
  then Some (skipn 8 s)
  else if startsWith [104; 116; 116; 112; 58; 47; 47]%N s
  then Some (skipn 7 s)
  else None.

(** [.replace(/https?:\/\/\S+/g, linkWord)]: the scheme and the longest
    run of non-space characters after it, which must not be empty. *)
Fixpoint replaceLinks (fuel : nat) (s : jsstring) : jsstring :=
  match fuel with
  | O => s
  | S fuel' =>
      match s with
      | [] => []
      | c :: s' =>
          match afterScheme s with
          | Some (d :: rest) =>
              if isWhiteSpace d then c :: replaceLinks fuel' s'
              else linkWord ++
                   replaceLinks fuel'
                     (dropWhile (fun x => negb (isWhiteSpace x)) rest)
          | _ => c :: replaceLinks fuel' s'
          end
      end
  end.

Definition maxSpokenLength : nat := 2000.

(** [cleanText], from [message.text]. *)
Definition cleanMessage (text : jsstring) : jsstring :=
  let noCode := removeCodeBlocks (length text) text in
  let noMarkup := replaceMarkup noCode in
  let noLinks := replaceLinks (length noMarkup) noMarkup in
  firstn maxSpokenLength (trim noLinks).

(* ------------------------------------------------------------------ *)
(** *** handleSpeak *)

(** The frame callback handed to [streamSpeech]. *)
Definition onAudioChunk (base64 : jsstring) (w : World) : World :=
  if negb (isSpeakingRef w) then w
  else fst (scheduleChunk base64 (set_isLoadingAudio false w)).

(** The body of [for await (const chunk of responseStream)]. *)
Definition onStreamChunk (audioData : option jsstring) (w : World) : World :=
  match audioData with
  | Some data => if truthy data then onAudioChunk data w else w
  | None => w
  end.

(** The [catch] block of [handleSpeak]. *)
Definition handleSpeakCatch (w : World) : World :=
  let w := emit (AConsoleError PlaybackError) w in
  set_isSpeaking false (set_isLoadingAudio false w).

(** The loop over the chunks, from the head of an iteration to the next
    suspension.  A call of [streamSpeech] that is over at once lets the
    loop go on in the same turn. *)
Fixpoint orchestrate (chunks : list jsstring) (w : World) : World :=
  match chunks with
  | [] => w
  | chunk :: rest =>
      if negb (isSpeakingRef w) then w
      else
        let call := fresh w in
        let '(w, promise) :=
          streamSpeech call chunk 0 (set_fresh (S call) w) in
        match promise with
        | Pending rid => set_tasks (tasks w ++ [AwaitSpeech rid rest]) w
        | Fulfilled => orchestrate rest w
        | Rejected => handleSpeakCatch w
        end
  end.

(** From "Reset timing" on: after the context is known to run. *)
Definition handleSpeakResumed (cleanText : jsstring) (w : World) : World :=
  let w := set_nextStartTimeRef (currentTime w) w in
  orchestrate (segment cleanText) w.

(** [text] is [message.text]; [newCtx] is the state in which the
    platform hands out a newly constructed context. *)
Definition handleSpeak (text : jsstring) (newCtx : CtxState)
           (w : World) : World :=
  if isSpeaking w then stopAudio w
  else if isLoadingAudio w then w
  else
    let w := set_isLoadingAudio true w in
    let w := set_isSpeaking true w in
    let w := set_isSpeakingRef true w in
    let cleanText := cleanMessage text in
    if negb (truthy cleanText) then
      set_isSpeaking false (set_isLoadingAudio false w)
    else
      let w := match audioContextRef w with
               | None => set_audioContextRef (Some newCtx) w
               | Some _ => w
               end in
      match audioContextRef w with
      | Some Suspended => set_tasks (tasks w ++ [AwaitResume cleanText]) w
      | _ => handleSpeakResumed cleanText w
      end.

(** The label of the button, which is how the component shows its
    state: loading first, then speaking, then idle. *)
Inductive Phase := Idle | Loading | Speaking.

Definition phase (w : World) : Phase :=
  if isLoadingAudio w then Loading
  else if isSpeaking w then Speaking
  else Idle.

(* ------------------------------------------------------------------ *)
(** *** Events *)

Inductive Event :=
| EvHandleSpeak (text : jsstring) (newCtx : CtxState)
| EvStopAudio                 (** the cleanup on unmount *)
| EvSuspended                 (** the platform suspends the context *)
| EvResumed                   (** the context runs; [resume()] resolves *)
| EvFrame (rid : nat) (audioData : option jsstring)
| EvClose (rid : nat)         (** the stream of [rid] ends *)
| EvError (rid : nat)         (** the request or its stream fails *)
| EvEnded (node : nat)
| EvTick (t : Q).

Definition findRequest (rid : nat) (w : World) : option Request :=
  find (fun r => Nat.eqb (req_id r) rid) (inflight w).

Definition dropRequest (rid : nat) (w : World) : World :=
  set_inflight (filter (fun r => negb (Nat.eqb (req_id r) rid)) (inflight w)) w.

Definition awaits (rid : nat) (t : Task) : bool :=
  match t with
  | AwaitSpeech r _ => Nat.eqb r rid
  | AwaitResume _ => false
  end.

(** The invocation that sent [rid] is over and its promise fulfilled:
    the activation awaiting it takes up its loop again. *)
Definition settle (rid : nat) (w : World) : World :=
  match find (awaits rid) (tasks w) with
  | Some (AwaitSpeech _ rest) =>
      orchestrate rest
        (set_tasks (filter (fun t => negb (awaits rid t)) (tasks w)) w)
  | _ => w
  end.

Definition isAwaitResume (t : Task) : bool :=
  match t with AwaitResume _ => true | AwaitSpeech _ _ => false end.

Definition resumeTask (w : World) (t : Task) : World :=
  match t with
  | AwaitResume cleanText => handleSpeakResumed cleanText w
  | AwaitSpeech _ _ => w
  end.

Definition started (id : nat) (w : World) : bool :=
  existsb (fun a => match a with
                    | AStart source _ => Nat.eqb (node_id source) id
                    | _ => false
                    end) (trace w).

Definition step (w : World) (e : Event) : World :=
  match e with
  | EvHandleSpeak text newCtx => handleSpeak text newCtx w
  | EvStopAudio => stopAudio w
  | EvSuspended =>
      match audioContextRef w with
      | Some _ => set_audioContextRef (Some Suspended) w
      | None => w
      end
  | EvResumed =>
      match audioContextRef w with
      | Some Suspended =>
          let waiting := filter isAwaitResume (tasks w) in
          let w := set_tasks (filter (fun t => negb (isAwaitResume t))
                                     (tasks w)) w in
          let w := set_audioContextRef (Some Running) w in
          fold_left resumeTask waiting w
      | _ => w
      end
  | EvFrame rid audioData =>
      match findRequest rid w with
      | Some _ => onStreamChunk audioData w
      | None => w
      end
  | EvClose rid =>
      match findRequest rid w with
      | Some _ => settle rid (dropRequest rid w)
      | None => w
      end
  | EvError rid =>
      match findRequest rid w with
      | Some r =>
          settle rid
            (streamSpeechCatch (req_call r) (req_text r) (req_retry r)
                               (dropRequest rid w))
      | None => w
      end
  | EvEnded id => if started id w then onended id w else w
  | EvTick t => if Qle_bool (currentTime w) t then set_currentTime t w else w
  end.

Definition run (w : World) (events : list Event) : World :=
  fold_left step events w.

(** A component that has just been mounted. *)
Definition mounted (p : CredentialPool) : World :=
  {| isSpeaking := false; isLoadingAudio := false; isSpeakingRef := false;
     audioContextRef := None; sourcesRef := []; nextStartTimeRef := 0%Q;
     currentTime := 0%Q; pool := p; inflight := []; tasks := [];
     fresh := 0; trace := [] |}.

End Player.

Import Player.

(* ================================================================== *)
(** ** generateStreamResponse *)

Module Service.

(** String constants of the function, as code units. *)

(** The answer given when no credential is left or the retries are used
    up: the apology that starts with U+0639 U+0630 U+0631 U+0627 U+064B. *)
Definition apology : jsstring :=
  [1593; 1584; 1585; 1575; 1611; 1548; 32; 1575; 1604; 1582; 1583;
   1605; 1577; 32; 1605; 1588; 1594; 1608; 1604; 1577; 32; 1580; 1583;
   1575; 1611; 32; 1581; 1575; 1604; 1610; 1575; 1611; 32; 40; 1606;
   1601; 1584; 32; 1585; 1589; 1610; 1583; 32; 1575; 1604; 1605; 1601;
   1575; 1578; 1610; 1581; 41; 46; 32; 1610; 1585; 1580; 1609; 32;
   1575; 1604; 1605; 1581; 1575; 1608; 1604; 1577; 32; 1604; 1575;
   1581; 1602; 1575; 1611; 32; 1571; 1608; 32; 1575; 1604; 1578; 1608;
   1575; 1589; 1604; 32; 1605; 1593; 32; 1575; 1604; 1583; 1593; 1605;
   46]%N.

(** Default prompts for an attachment sent without text: for a
    recording, for an image, for any other file. *)
Definition promptAudio : jsstring :=
  [1604; 1582; 1589; 32; 1605; 1575; 32; 1601; 1610; 32; 1607; 1584;
   1575; 32; 1575; 1604; 1578; 1587; 1580; 1610; 1604; 46]%N.

Definition promptImage : jsstring :=
  [1604; 1582; 1589; 32; 1605; 1575; 32; 1601; 1610; 32; 1575; 1604;
   1589; 1608; 1585; 1577; 46]%N.

Definition promptFile : jsstring :=
  [1604; 1582; 1589; 32; 1607; 1584; 1575; 32; 1575; 1604; 1605; 1604;
   1601; 46]%N.

(** Heading of the list of sources: two line feeds, the word for
    "sources" in bold with a colon, a line feed. *)
Definition sourcesHeading : jsstring :=
  [10; 10; 42; 42; 1575; 1604; 1605; 1589; 1575; 1583; 1585; 58; 42;
   42; 10]%N.

(** Title of a source that has none. *)
Definition defaultTitle : jsstring :=
  [1605; 1589; 1583; 1585]%N.

Inductive AttachmentType := AttAudio | AttImage | AttFile.

Record Attachment := {
  att_type : AttachmentType;
  att_mimeType : jsstring;
  att_data : jsstring
}.

(** [GenerationOptions]; an absent field reads as [false]. *)
Record GenerationOptions := {
  useThinking : bool;
  useSearch : bool
}.

(** The arguments of a call, apart from [onChunk] and [retryCount].
    [history] pairs each message's text with whether the user sent it. *)
Record GenArgs := {
  userMessage : jsstring;
  grade : jsstring;
  subject : jsstring;
  history : list (bool * jsstring);
  attachment : option Attachment;
  options : option GenerationOptions
}.

Inductive Model := Gemini25Flash | Gemini3ProPreview.

(** What goes to the network for one attempt.  The system instruction is
    the fixed template with [rq_grade], [rq_subject] and the curriculum
    list for the two substituted. *)
Record GenRequest := {
  rq_model : Model;
  rq_grade : jsstring;
  rq_subject : jsstring;
  rq_maxOutputTokens : option N;
  rq_thinkingBudget : N;
  rq_googleSearch : bool;
  rq_history : list (bool * jsstring);
  rq_inlineData : option (jsstring * jsstring);
  rq_promptText : jsstring
}.

(** [!s.trim()]. *)
Definition blank (s : jsstring) : bool := forallb isWhiteSpace s.

Definition opt (o : option GenerationOptions)
           (f : GenerationOptions -> bool) : bool :=
  match o with Some x => f x | None => false end.

Definition requestOf (a : GenArgs) : GenRequest :=
  let thinking := opt (options a) useThinking in
  {| rq_model := if thinking then Gemini3ProPreview else Gemini25Flash;
     rq_grade := grade a;
     rq_subject := subject a;
     rq_maxOutputTokens := if thinking then None else Some 2000%N;
     rq_thinkingBudget := if thinking then 32768%N else 0%N;
     rq_googleSearch := opt (options a) useSearch && negb thinking;
     rq_history := history a;
     rq_inlineData :=
       option_map (fun x => (att_mimeType x, att_data x)) (attachment a);
     rq_promptText :=
       match attachment a with
       | Some x =>
           if blank (userMessage a) then
             match att_type x with
             | AttAudio => promptAudio
             | AttImage => promptImage
             | AttFile => promptFile
             end
           else userMessage a
       | None => userMessage a
       end |}.

(** One element of [groundingChunks]: [c.web?.title] and [c.web?.uri]. *)
Record GroundingChunk := {
  web_title : option jsstring;
  web_uri : option jsstring
}.

(** One chunk of the response stream. *)
Record StreamChunk := {
  chunk_text : option jsstring;
  chunk_grounding : list GroundingChunk
}.

Inductive StreamEnd := Closed | Errored.

(** What the network does with one request: the chunks the stream
    yields, and whether it then ends or fails.  A request that is
    refused outright yields nothing and fails. *)
Record Attempt := {
  att_chunks : list StreamChunk;
  att_end : StreamEnd
}.

Inductive GenAction :=
| GInvoke (args : GenArgs) (retryCount : nat)
| GSend (key : jsstring) (request : GenRequest)
| GOnChunk (fullText : jsstring)
| GRotate (ok : bool)
| GConsoleError
| GConsoleLog (attempt : nat).

Record GenState := {
  g_pool : CredentialPool;
  g_sent : nat;                 (** requests sent so far *)
  g_trace : list GenAction      (** oldest first *)
}.

Definition gemit (a : GenAction) (st : GenState) : GenState :=
  {| g_pool := g_pool st; g_sent := g_sent st;
     g_trace := g_trace st ++ [a] |}.

(** [x || d] on an optional string. *)
Definition orElse (x : option jsstring) (d : jsstring) : jsstring :=
  match x with
  | Some s => if truthy s then s else d
  | None => d
  end.

Fixpoint jsstring_eqb (a b : jsstring) : bool :=
  match a, b with
  | [], [] => true
  | x :: a', y :: b' => char_eqb x y && jsstring_eqb a' b'
  | _, _ => false
  end.

(** [Set.prototype.add]: insertion order, no duplicates. *)
Definition setAdd (s : jsstring) (set : list jsstring) : list jsstring :=
  if existsb (jsstring_eqb s) set then set else set ++ [s].

(** The markdown link of a grounding chunk that has a [uri]. *)
Definition sourceLink (c : GroundingChunk) : option jsstring :=
  match web_uri c with
  | Some uri =>
      if truthy uri then
        Some ([91%N] ++ orElse (web_title c) defaultTitle ++ [93%N; 40%N]
                ++ uri ++ [41%N])
      else None
  | None => None
  end.

Definition addSources (cs : list GroundingChunk) (set : list jsstring)
  : list jsstring :=
  fold_left (fun set c => match sourceLink c with
                          | Some l => setAdd l set
                          | None => set
                          end) cs set.

(** The body of the [for await] loop, on [fullText], the set of sources
    and the state. *)
Definition onResultChunk (acc : jsstring * list jsstring * GenState)
           (chunk : StreamChunk) : jsstring * list jsstring * GenState :=
  let '(fullText, sources, st) := acc in
  let fullText := fullText ++ orElse (chunk_text chunk) [] in
  let sources := addSources (chunk_grounding chunk) sources in
  (fullText, sources, gemit (GOnChunk fullText) st).

(** [Array.prototype.join] with a line feed. *)
Fixpoint joinLines (l : list jsstring) : jsstring :=
  match l with
  | [] => []
  | [s] => s
  | s :: l' => s ++ [10%N] ++ joinLines l'
  end.

Definition sourcesText (sources : list jsstring) : jsstring :=
  sourcesHeading ++ joinLines (map (fun s => [45%N; 32%N] ++ s) sources).

(** The [try] block: the text it returns, or [None] when it throws. *)
Definition tryBlock (net : nat -> Attempt) (a : GenArgs) (st : GenState)
  : GenState * option jsstring :=
  match getApiKey (g_pool st) with
  | None => (st, None)
  | Some key =>
      let response := net (g_sent st) in
      let st := {| g_pool := g_pool st; g_sent := S (g_sent st);
                   g_trace := g_trace st ++ [GSend key (requestOf a)] |} in
      let '(fullText, sources, st) :=
        fold_left onResultChunk (att_chunks response) ([], [], st) in
      match att_end response with
      | Errored => (st, None)
      | Closed =>
          match sources with
          | [] => (st, Some fullText)
          | _ :: _ =>
              let fullText := fullText ++ sourcesText sources in
              (gemit (GOnChunk fullText) st, Some fullText)
          end
      end
  end.

(** How an [async] function ends for its caller. *)
Inductive Outcome :=
| Returned (text : jsstring)
| Thrown.

(** [gas] bounds the depth of the recursion; with none left the call is
    reported as [Thrown]. *)
Fixpoint generateFrom (gas : nat) (net : nat -> Attempt) (a : GenArgs)
         (retryCount : nat) (st : GenState) : GenState * Outcome :=
  match gas with
  | O => (st, Thrown)
  | S gas' =>
      let st := gemit (GInvoke a retryCount) st in
      match tryBlock net a st with
      | (st, Some fullText) => (st, Returned fullText)
      | (st, None) =>
          let st := gemit GConsoleError st in
          if retryCount <? 4 then
            let '(rotated, p) := rotateApiKey (g_pool st) in
            let st := gemit (GRotate rotated)
                        {| g_pool := p; g_sent := g_sent st;
                           g_trace := g_trace st |} in
            if rotated then
              generateFrom gas' net a (S retryCount)
                           (gemit (GConsoleLog (retryCount + 1)) st)
            else (st, Returned apology)
          else (st, Returned apology)
      end
  end.

Definition generateStreamResponse (net : nat -> Attempt) (a : GenArgs)
           (retryCount : nat) : GenState -> GenState * Outcome :=
  generateFrom (S (4 - retryCount)) net a retryCount.

End Service.

Import Service.

(* ================================================================== *)
(** ** generateSpeech *)

Module Speech.

(** What the network does with one request of [generateSpeech]: it
    fails, or it answers, and the answer has the [data] of the first
    part of the first candidate or has none. *)
Inductive SpeechReply :=
| SpeechFailed
| SpeechAnswer (data : option jsstring).

Inductive SpeechAction :=
| SInvoke (text : jsstring)
| SSend (key : jsstring) (text : jsstring)
| SConsoleError                 (** ["TTS Error:"] *)
| SRotate (ok : bool).

Record SpeechState := {
  s_pool : CredentialPool;
  s_sent : nat;                    (** requests sent so far *)
  s_trace : list SpeechAction      (** oldest first *)
}.

Definition semit (a : SpeechAction) (st : SpeechState) : SpeechState :=
  {| s_pool := s_pool st; s_sent := s_sent st;
     s_trace := s_trace st ++ [a] |}.

(** How a call ends for its caller: with the audio or [null], or not
    within the depth allowed. *)
Inductive SpeechOutcome :=
| Spoke (data : option jsstring)
| OutOfGas.

(** [x || null] on the optional [data]. *)
Definition orNull (data : option jsstring) : option jsstring :=
  match data with
  | Some d => if truthy d then Some d else None
  | None => None
  end.

(** The [catch] block; [retry] is [generateSpeech] itself. *)
Definition generateSpeechCatchWith
    (retry : SpeechState -> SpeechState * SpeechOutcome)
    (st : SpeechState) : SpeechState * SpeechOutcome :=
  let st := semit SConsoleError st in
  let '(ok, p) := rotateApiKey (s_pool st) in
  let st := semit (SRotate ok)
              {| s_pool := p; s_sent := s_sent st; s_trace := s_trace st |} in
  if ok then retry st else (st, Spoke None).

(** [gas] bounds the depth of the recursion, which the code does not
    bound; with none left the call is reported as [OutOfGas]. *)
Fixpoint generateSpeechFrom (gas : nat) (net : nat -> SpeechReply)
         (text : jsstring) (st : SpeechState)
  : SpeechState * SpeechOutcome :=
  match gas with
  | O => (st, OutOfGas)
  | S gas' =>
      let st := semit (SInvoke text) st in
      match getApiKey (s_pool st) with
      | None => generateSpeechCatchWith (generateSpeechFrom gas' net text) st
      | Some key =>
          let reply := net (s_sent st) in
          let st := {| s_pool := s_pool st; s_sent := S (s_sent st);
                       s_trace := s_trace st ++ [SSend key text] |} in
          match reply with
          | SpeechAnswer data => (st, Spoke (orNull data))
          | SpeechFailed =>
              generateSpeechCatchWith (generateSpeechFrom gas' net text) st
          end
      end
  end.

(** The credentials from the cursor on. *)
Definition remaining (p : CredentialPool) : list jsstring :=
  skipn (pool_cursor p) (pool_keys p).

(** The recursion is as deep as there are credentials left, at most. *)
Definition generateSpeech (net : nat -> SpeechReply) (text : jsstring)
           (st : SpeechState) : SpeechState * SpeechOutcome :=
  generateSpeechFrom (S (length (remaining (s_pool st)))) net text st.

End Speech.

Import Speech.

(* ================================================================== *)
(** ** extractText: the plain text of rendered children *)

Module Markup.

Set Warnings "-register-all".

(** What [extractText] may be given, as far as it tells values apart. *)
Inductive ReactNode :=
| Falsy                        (** [null], [undefined], [false], [0], [NaN] *)
| Str (s : jsstring)           (** a string *)
| Truthy                       (** [true], another number, an object
                                   without [props.children] *)
| Arr (l : list ReactNode)     (** an array *)
| Elem (children : ReactNode)  (** an object with [props.children] *).

(** [!children]. *)
Definition isFalsy (children : ReactNode) : bool :=
  match children with
  | Falsy => true
  | Str s => negb (truthy s)
  | _ => false
  end.

Fixpoint extractText (children : ReactNode) : jsstring :=
  if isFalsy children then []
  else
    match children with
    | Str s => s
    | Arr l => concat (map extractText l)
    | Elem c => if isFalsy c then [] else extractText c
    | _ => []
    end.

End Markup.

Import Markup.

(* ================================================================== *)
(** ** Notions used to state the properties *)

(** A chunk is within the limit, or it is one sentence that is not. *)
Definition withinOrWhole (ss : list jsstring) (c : jsstring) : Prop :=
  length c <= maxChunkLen \/ (In c ss /\ maxChunkLen < length c).

(** Where an over-long sentence is after the loop has seen it: pushed
    already, or the whole accumulator. *)
Definition keptWhole (st : list jsstring * jsstring) (s : jsstring) : Prop :=
  In s (fst st) \/ s = snd st.

(** A text of 201 letters, a full stop and one more letter. *)
Definition longSentenceText : jsstring :=
  (repeat 97 201 ++ [46; 98])%N.

Definition longSentence : jsstring := (repeat 97 201 ++ [46])%N.


(** Two worlds that differ in their history at most. *)
Definition sameButTrace (w w' : World) : Prop :=
  isSpeaking w' = isSpeaking w /\ isLoadingAudio w' = isLoadingAudio w /\
  isSpeakingRef w' = isSpeakingRef w /\
  audioContextRef w' = audioContextRef w /\
  sourcesRef w' = sourcesRef w /\ nextStartTimeRef w' = nextStartTimeRef w /\
  currentTime w' = currentTime w /\ pool w' = pool w /\
  inflight w' = inflight w /\ tasks w' = tasks w /\ fresh w' = fresh w.

(** A frame reaching [scheduleChunk] when the audio clock reads
    [fst call]. *)
Definition scheduleAt (w : World) (call : Q * jsstring) : World :=
  fst (scheduleChunk (snd call) (set_currentTime (fst call) w)).

Definition scheduleSeq (calls : list (Q * jsstring)) (w : World) : World :=
  fold_left scheduleAt calls w.

(** [w'] continues the history of [w] with actions that all satisfy
    [P]. *)
Definition extends (P : Action -> Prop) (w w' : World) : Prop :=
  exists added, trace w' = trace w ++ added /\ Forall P added.

(** What the audio side of the component rests on. *)
Definition audioFrame (w w' : World) : Prop :=
  isSpeakingRef w' = isSpeakingRef w /\
  audioContextRef w' = audioContextRef w /\
  sourcesRef w' = sourcesRef w /\
  nextStartTimeRef w' = nextStartTimeRef w /\
  currentTime w' = currentTime w.

(** The actions of an invocation of [streamSpeech] for [call], [text]
    and [retryCount], and of the retries it starts. *)
Definition svcAction (call : nat) (text : jsstring) (retryCount : nat)
           (a : Action) : Prop :=
  match a with
  | ACallStreamSpeech c t r => c = call /\ t = text /\ retryCount <= r <= 3
  | ASend _ _ t => t = text
  | ARotate c _ => c = call
  | AConsoleError (TtsStreamError c) => c = call
  | _ => False
  end.

(** The actions of the network side, whatever the call. *)
Definition isServiceAction (a : Action) : Prop :=
  match a with
  | ACallStreamSpeech _ _ _ | ASend _ _ _ | ARotate _ _
  | AConsoleError (TtsStreamError _) => True
  | _ => False
  end.

(** The buffers started in a stretch of history, each with the reading
    of the audio clock at the time, oldest first. *)
Fixpoint starts (l : list Action) : list (Node * Q) :=
  match l with
  | [] => []
  | AStart source clock :: l' => (source, clock) :: starts l'
  | _ :: l' => starts l'
  end.




Definition notHandleSpeak (e : Event) : bool :=
  match e with
  | EvHandleSpeak _ _ => false
  | _ => true
  end.

(** A frame handed to [scheduleChunk]. *)
Definition isForward (a : Action) : bool :=
  match a with
  | AScheduleChunk _ => true
  | _ => false
  end.

(** A call of [streamSpeech] made by the orchestration loop: the
    request for a chunk, as opposed to a retry made by [streamSpeech]. *)
Definition isLoopCall (a : Action) : bool :=
  match a with
  | ACallStreamSpeech _ _ 0 => true
  | _ => false
  end.

(** What may still happen once the session is cancelled. *)
Definition lateAction (a : Action) : Prop :=
  isForward a = false /\ isLoopCall a = false /\
  match a with AStart _ _ => False | _ => True end.

(** Concrete inputs for the examples. *)

(** A pool of two credentials. *)
Definition twoKeys : CredentialPool :=
  {| pool_keys := [[107; 49]; [107; 50]]%N; pool_cursor := 0 |}.

(** Two sentences of 151 code units each: two chunks. *)
Definition firstChunk : jsstring := (repeat 97 150 ++ [46])%N.
Definition secondChunk : jsstring := (repeat 98 150 ++ [46])%N.
Definition twoChunkText : jsstring := firstChunk ++ secondChunk.

(** The text ["hi"]. *)
Definition hi : jsstring := [104; 105]%N.

(** The payload ["AAEA/38A"]: three samples. *)
Definition pcmFrame : jsstring := [65; 65; 69; 65; 47; 51; 56; 65]%N.

(** *** Retry chains

    One call and its retries, reduced to what matters for the retry
    policy: the attempts with their retry count and what they were asked
    to do, the failures, and the rotations with their answer. *)
Inductive RetryStep (X : Type) :=
| Try (retryCount : nat) (x : X)
| Failed
| Rotated (ok : bool).

Arguments Try {X} retryCount x.
Arguments Failed {X}.
Arguments Rotated {X} ok.

(** How a chain stands: its last attempt, numbered [retryCount], has
    not failed; or the last attempt failed with the ceiling reached; or
    it failed and the rotation after it found no credential. *)
Inductive ChainEnd :=
| Open (retryCount : nat)
| CeilingReached
| PoolExhausted.

(** [chain ceiling x rc l e]: [l] is the history of a call entered with
    retry count [rc].  Every attempt is for the same [x]; a failure
    below the ceiling is followed by a rotation; only a rotation that
    found a credential is followed by another attempt, whose count is
    one more; a failure at the ceiling is followed by nothing. *)
Inductive chain {X : Type} (ceiling : nat) (x : X)
  : nat -> list (RetryStep X) -> ChainEnd -> Prop :=
| chain_open rc :
    chain ceiling x rc [Try rc x] (Open rc)
| chain_ceiling rc :
    ceiling <= rc ->
    chain ceiling x rc [Try rc x; Failed] CeilingReached
| chain_exhausted rc :
    rc < ceiling ->
    chain ceiling x rc [Try rc x; Failed; Rotated false] PoolExhausted
| chain_retry rc l e :
    rc < ceiling ->
    chain ceiling x (S rc) l e ->
    chain ceiling x rc (Try rc x :: Failed :: Rotated true :: l) e.

Fixpoint attempts {X : Type} (l : list (RetryStep X)) : nat :=
  match l with
  | [] => 0
  | Try _ _ :: l' => S (attempts l')
  | _ :: l' => attempts l'
  end.

(** The steps of [generateStreamResponse] in its history. *)
Definition genStep (a : GenAction) : list (RetryStep GenArgs) :=
  match a with
  | GInvoke args rc => [Try rc args]
  | GConsoleError => [Failed]
  | GRotate ok => [Rotated ok]
  | _ => []
  end.

Definition genSteps (l : list GenAction) : list (RetryStep GenArgs) :=
  flat_map genStep l.

(** The steps that belong to one call of the orchestration loop. *)
Definition callStep (call : nat) (a : Action) : list (RetryStep jsstring) :=
  match a with
  | ACallStreamSpeech c text rc =>
      if Nat.eqb c call then [Try rc text] else []
  | AConsoleError (TtsStreamError c) =>
      if Nat.eqb c call then [Failed] else []
  | ARotate c ok => if Nat.eqb c call then [Rotated ok] else []
  | _ => []
  end.

Definition callSteps (call : nat) (l : list Action)
  : list (RetryStep jsstring) :=
  flat_map (callStep call) l.

Definition closed (e : ChainEnd) : Prop :=
  match e with Open _ => False | _ => True end.

(** A network on which every request fails. *)
Definition deadNetwork : nat -> Attempt :=
  fun _ => {| att_chunks := []; att_end := Errored |}.

Definition plainQuestion : GenArgs :=
  {| userMessage := hi; grade := []; subject := []; history := [];
     attachment := None; options := None |}.

Definition startOfCall (p : CredentialPool) : GenState :=
  {| g_pool := p; g_sent := 0; g_trace := [] |}.





(** A pool of three credentials, and a network that refuses the first
    two requests and answers the third with ["hi"]. *)
Definition threeKeys : CredentialPool :=
  {| pool_keys := [[107; 49]; [107; 50]; [107; 51]]%N; pool_cursor := 0 |}.

Definition thirdAnswers : nat -> Attempt :=
  fun n =>
    if n <? 2 then {| att_chunks := []; att_end := Errored |}
    else {| att_chunks := [{| chunk_text := Some hi;
                              chunk_grounding := [] |}];
            att_end := Closed |}.

Definition sentKeys (l : list GenAction) : list jsstring :=
  flat_map (fun a => match a with GSend key _ => [key] | _ => [] end) l.

(* ================================================================== *)
(** ** Further notions used to state properties *)

(** [takeWhile p s]: the longest prefix of [s] in [p]. *)
Fixpoint takeWhile (p : char -> bool) (s : jsstring) : jsstring :=
  match s with
  | [] => []
  | c :: s' => if p c then c :: takeWhile p s' else []
  end.

(** A sentence as the splitter's pattern finds it: a run of
    non-delimiters, not empty, and a run of delimiters after it. *)
Definition sentenceShape (s : jsstring) : Prop :=
  exists a b, s = a ++ b /\ a <> [] /\
              forallb notDelim a = true /\ forallb isDelim b = true.

(** A sentence that has its delimiters. *)
Definition terminated (s : jsstring) : Prop :=
  exists a b, s = a ++ b /\ a <> [] /\ b <> [] /\
              forallb notDelim a = true /\ forallb isDelim b = true.

(** Any two neighbours are too long to be one chunk. *)
Fixpoint neighboursOverflow (l : list jsstring) : Prop :=
  match l with
  | c1 :: ((c2 :: _) as l') =>
      maxChunkLen < length c1 + length c2 /\ neighboursOverflow l'
  | _ => True
  end.

(** The last character of a string is not white space. *)
Definition endsClean (s : jsstring) : Prop :=
  match rev s with
  | [] => True
  | c :: _ => isWhiteSpace c = false
  end.

(** The first character of a string is not white space. *)
Definition startsClean (s : jsstring) : Prop :=
  match s with
  | [] => True
  | c :: _ => isWhiteSpace c = false
  end.

(** The message of three asterisks. *)
Definition stars : jsstring := [42; 42; 42]%N.

(** A sample within the range of the audio buffer. *)
Definition inUnitRange (q : Q) : Prop := (-1 <= q)%Q /\ (q < 1)%Q.

(** White space or one of the characters that the cleaning replaces by
    a space. *)
Definition isBlankOrMarkup (c : char) : bool :=
  (isWhiteSpace c || isMarkup c)%bool.

(** A session of two chunks whose first frame has been scheduled and
    has played to its end while the first stream is still open. *)
Definition firstFramePlayed : World :=
  run (mounted twoKeys)
      [EvHandleSpeak twoChunkText Running; EvFrame 1 (Some pcmFrame);
       EvTick 1%Q].

(** The nodes stopped in a stretch of history, oldest first. *)
Definition stops (l : list Action) : list nat :=
  flat_map (fun a => match a with AStop id => [id] | _ => [] end) l.

(** The nodes started in a stretch of history, oldest first. *)
Definition startedIds (l : list Action) : list nat :=
  map (fun p => node_id (fst p)) (starts l).

(** The book-keeping of the audio nodes: no node is started twice or
    stopped twice, only started nodes are stopped, and [sourcesRef]
    holds started nodes, each once, none of them stopped. *)
Definition nodesInv (w : World) : Prop :=
  NoDup (startedIds (trace w)) /\
  NoDup (stops (trace w)) /\
  NoDup (map node_id (sourcesRef w)) /\
  incl (stops (trace w)) (startedIds (trace w)) /\
  incl (map node_id (sourcesRef w)) (startedIds (trace w)) /\
  (forall id, In id (map node_id (sourcesRef w)) ->
              ~ In id (stops (trace w))) /\
  (forall id, In id (startedIds (trace w)) -> id < fresh w).

(** The chunks that the orchestration loop has asked for in a stretch of
    history: the texts of its calls of [streamSpeech], oldest first. *)
Definition loopTexts (l : list Action) : list jsstring :=
  flat_map (fun a => match a with
                     | ACallStreamSpeech _ text 0 => [text]
                     | _ => []
                     end) l.

(** One activation at work on [chunks], seen from a history whose loop
    calls were [base] when it began: it has asked for the chunks before
    [rest], in their order, and it is over, or suspended on a request
    with [rest] still to do, or waiting for the audio context with
    everything still to do. *)
Definition loopInv (base chunks : list jsstring) (w : World) : Prop :=
  exists done rest,
    loopTexts (trace w) = base ++ done /\ done ++ rest = chunks /\
    (tasks w = [] \/
     (exists rid, tasks w = [AwaitSpeech rid rest]) \/
     (exists cleanText, tasks w = [AwaitResume cleanText] /\
                        segment cleanText = rest)).

(** The credentials that the requests of [generateSpeech] were sent
    with, oldest first. *)
Definition speechKeys (l : list SpeechAction) : list jsstring :=
  flat_map (fun a => match a with SSend key _ => [key] | _ => [] end) l.

(** A network on which every request of [generateSpeech] fails. *)
Definition deadSpeech : nat -> SpeechReply := fun _ => SpeechFailed.

Definition startOfSpeech (p : CredentialPool) : SpeechState :=
  {| s_pool := p; s_sent := 0; s_trace := [] |}.

(** The texts handed to [onChunk] in a stretch of history, oldest
    first. *)
Definition shown (l : list GenAction) : list jsstring :=
  flat_map (fun a => match a with GOnChunk t => [t] | _ => [] end) l.

(** Every text continues the one before it, the first continues
    [prev]. *)
Fixpoint growingFrom (prev : jsstring) (l : list jsstring) : Prop :=
  match l with
  | [] => True
  | t :: l' => (exists more, t = prev ++ more) /\ growingFrom t l'
  end.

(** The requests sent in a stretch of history, oldest first. *)
Definition sentRequests (l : list GenAction) : list GenRequest :=
  flat_map (fun a => match a with GSend _ r => [r] | _ => [] end) l.

(** The links of the grounding chunks that have a [uri], in their
    order. *)
Definition links (cs : list GroundingChunk) : list jsstring :=
  flat_map (fun c => match sourceLink c with
                     | Some l => [l]
                     | None => []
                     end) cs.

(** A call that finds a pool of three credentials whose first two
    requests have been refused already. *)
Definition thirdAttempt : GenState :=
  {| g_pool := threeKeys; g_sent := 2; g_trace := [] |}.

(** A question with search and thinking both asked for. *)
Definition searchAndThink : GenArgs :=
  {| userMessage := hi; grade := []; subject := []; history := [];
     attachment := None;
     options := Some {| useThinking := true; useSearch := true |} |}.

(** A recording sent without a word. *)
Definition recordingOnly : GenArgs :=
  {| userMessage := [32%N]; grade := []; subject := []; history := [];
     attachment := Some {| att_type := AttAudio; att_mimeType := [];
                           att_data := [] |};
     options := None |}.

(** The strings in a tree of children, from left to right. *)
Fixpoint strings (c : ReactNode) : list jsstring :=
  match c with
  | Str s => [s]
  | Arr l => flat_map strings l
  | Elem c' => strings c'
  | _ => []
  end.

(** [w'] shows nothing that [w] does not: where [isSpeaking] is clear
    in [w] it is clear in [w'], and so for [isLoadingAudio]. *)
Definition quieter (w w' : World) : Prop :=
  (isSpeaking w = false -> isSpeaking w' = false) /\
  (isLoadingAudio w = false -> isLoadingAudio w' = false).

(** A session of two chunks that was stopped with its first request
    still in flight. *)
Definition stoppedEarly : World :=
  run (mounted twoKeys) [EvHandleSpeak twoChunkText Running; EvStopAudio].
(* ================================================================== *)
(** ** Facts about the splitter *)

Lemma dropWhile_length p s : length (dropWhile p s) <= length s.
Proof.
  induction s as [|c s IH]; simpl; [lia|].
  destruct (p c); simpl; lia.
Qed.

Lemma suffixOf_dropWhile p s : suffixOf (dropWhile p s) s.
Proof.
  induction s as [|c s [q Hq]]; simpl.
  - now exists [].
  - destruct (p c).
    + exists (c :: q). simpl. now rewrite <- Hq.
    + now exists [].
Qed.

Lemma suffixOf_trans a b c : suffixOf a b -> suffixOf b c -> suffixOf a c.
Proof.
  intros [p ->] [q ->]. exists (q ++ p). now rewrite app_assoc.
Qed.

Lemma suffixOf_cons r c s : suffixOf r s -> suffixOf r (c :: s).
Proof. intros [p ->]. now exists (c :: p). Qed.

Lemma suffixOf_split r s :
  suffixOf r s -> firstn (length s - length r) s ++ r = s.
Proof.
  intros [p ->]. rewrite length_app.
  replace (length p + length r - length r) with (length p + 0) by lia.
  rewrite firstn_app_2. simpl. now rewrite app_nil_r.
Qed.

(** The delimiter run: greedy, and the first try succeeds. *)
Lemma plus_isDelim_accept s :
  plus isDelim accept s =
  match s with
  | [] => None
  | c :: s' => if isDelim c then Some (dropWhile isDelim s') else None
  end.
Proof.
  induction s as [|c s IH]; simpl; [reflexivity|].
  destruct (isDelim c); [|reflexivity].
  rewrite IH. destruct s as [|d s]; simpl; [reflexivity|].
  now destruct (isDelim d).
Qed.

(** When the rest of the pattern cannot start on a non-delimiter, giving
    characters back never helps: only the longest run counts. *)
Lemma plus_notDelim_longest (k : cont) c s :
  (forall d t, notDelim d = true -> k (d :: t) = None) ->
  notDelim c = true ->
  plus notDelim k (c :: s) = k (dropWhile notDelim s).
Proof.
  intros Hk. revert c. induction s as [|d s IH]; intros c Hc.
  - simpl. now rewrite Hc.
  - change (plus notDelim k (c :: d :: s))
      with (if notDelim c
            then match plus notDelim k (d :: s) with
                 | Some r => Some r
                 | None => k (d :: s)
                 end
            else None).
    rewrite Hc. destruct (notDelim d) eqn:Hd.
    + rewrite (IH d Hd). simpl. rewrite Hd.
      destruct (k (dropWhile notDelim s)); [reflexivity|].
      now apply Hk.
    + simpl. now rewrite Hd.
Qed.

Lemma sentenceRe_delim c s : isDelim c = true -> sentenceRe (c :: s) = None.
Proof.
  intros Hc. unfold sentenceRe, alt, notDelim. simpl. now rewrite Hc.
Qed.

Lemma dropWhile_notDelim_head s d t :
  dropWhile notDelim s = d :: t -> isDelim d = true.
Proof.
  induction s as [|c s IH]; simpl; [discriminate|].
  destruct (notDelim c) eqn:Hc; [exact IH|].
  intros [= <- _]. unfold notDelim in Hc. now destruct (isDelim c).
Qed.

(** At a non-delimiter the pattern always matches: the run of
    non-delimiters and then the run of delimiters after it, or the run
    alone when it reaches the end of the input. *)
Lemma sentenceRe_notDelim c s :
  notDelim c = true ->
  sentenceRe (c :: s) = Some (dropWhile isDelim (dropWhile notDelim s)).
Proof.
  intros Hc. unfold sentenceRe, alt.
  rewrite plus_notDelim_longest; trivial.
  2:{ intros d t Hd. simpl. unfold notDelim in Hd.
      now destruct (isDelim d). }
  rewrite plus_isDelim_accept.
  destruct (dropWhile notDelim s) as [|d t] eqn:E.
  - rewrite plus_notDelim_longest; trivial. now rewrite E.
  - rewrite (dropWhile_notDelim_head _ _ _ E). simpl.
    now rewrite (dropWhile_notDelim_head _ _ _ E).
Qed.

(** The matches, put together, are the input without its leading
    delimiters. *)
Lemma concat_matchAll fuel s :
  length s <= fuel -> concat (matchAll fuel s) = dropWhile isDelim s.
Proof.
  revert s. induction fuel as [|fuel IH]; intros s Hs.
  - destruct s; [reflexivity | simpl in Hs; lia].
  - destruct s as [|c s]; [reflexivity|].
    cbn [matchAll dropWhile]. destruct (isDelim c) eqn:Hc.
    + rewrite sentenceRe_delim by assumption.
      apply IH. simpl in Hs. lia.
    + assert (Hn : notDelim c = true) by (unfold notDelim; now rewrite Hc).
      rewrite sentenceRe_notDelim by assumption.
      set (r := dropWhile isDelim (dropWhile notDelim s)).
      assert (Hsuf : suffixOf r (c :: s)).
      { apply suffixOf_cons.
        eapply suffixOf_trans; apply suffixOf_dropWhile. }
      assert (Hlen : length r <= length s).
      { unfold r. etransitivity; [apply dropWhile_length|].
        apply dropWhile_length. }
      cbn [concat]. rewrite IH by (simpl in Hs; lia).
      assert (Hr : dropWhile isDelim r = r).
      { unfold r. generalize (dropWhile notDelim s). intros t.
        induction t as [|d t IHt]; simpl; [reflexivity|].
        destruct (isDelim d) eqn:Hd; [exact IHt|]. simpl. now rewrite Hd. }
      rewrite Hr. now apply suffixOf_split.
Qed.

(** The fuel given by [sentences] is enough: more of it changes
    nothing. *)
Lemma matchAll_enough fuel : forall fuel' s,
  length s <= fuel -> length s <= fuel' ->
  matchAll fuel s = matchAll fuel' s.
Proof.
  induction fuel as [|fuel IH]; intros fuel' s Hs Hs'.
  - destruct s; [now destruct fuel' | simpl in Hs; lia].
  - destruct s as [|c s]; [now destruct fuel'|].
    destruct fuel' as [|fuel']; [simpl in Hs'; lia|].
    cbn [matchAll]. simpl in Hs, Hs'. destruct (isDelim c) eqn:Hc.
    + rewrite sentenceRe_delim by assumption. apply IH; lia.
    + assert (Hn : notDelim c = true) by (unfold notDelim; now rewrite Hc).
      rewrite sentenceRe_notDelim by assumption.
      set (r := dropWhile isDelim (dropWhile notDelim s)).
      assert (Hlen : length r <= length s).
      { unfold r. etransitivity; [apply dropWhile_length|].
        apply dropWhile_length. }
      f_equal. apply IH; lia.
Qed.

Lemma matchAll_nil fuel s :
  length s <= fuel -> matchAll fuel s = [] -> dropWhile isDelim s = [].
Proof.
  intros Hs E. rewrite <- (concat_matchAll fuel s Hs). now rewrite E.
Qed.

Lemma matchAll_no_empty fuel s : ~ In [] (matchAll fuel s).
Proof.
  revert s. induction fuel as [|fuel IH]; intros s; [simpl; tauto|].
  destruct s as [|c s]; [simpl; tauto|].
  cbn [matchAll]. destruct (isDelim c) eqn:Hc.
  - rewrite sentenceRe_delim by assumption. apply IH.
  - assert (Hn : notDelim c = true) by (unfold notDelim; now rewrite Hc).
    rewrite sentenceRe_notDelim by assumption.
    intros [H|H]; [|now apply IH in H].
    pose proof (dropWhile_length isDelim (dropWhile notDelim s)) as H1.
    pose proof (dropWhile_length notDelim s) as H2.
    apply (f_equal (@length _)) in H. rewrite length_firstn in H.
    cbn [length] in H. lia.
Qed.

(** What the splitter keeps of its input. *)
Lemma concat_sentences T :
  concat (sentences T) =
  match dropWhile isDelim T with [] => T | kept => kept end.
Proof.
  unfold sentences.
  destruct (matchAll (length T) T) as [|m ms] eqn:E.
  - rewrite (matchAll_nil _ _ (le_n _) E). simpl. apply app_nil_r.
  - rewrite <- E, concat_matchAll by apply le_n.
    destruct (dropWhile isDelim T) eqn:D; [|reflexivity].
    rewrite <- (concat_matchAll _ _ (le_n (length T))), E in D.
    simpl in D. apply app_eq_nil in D as [-> _].
    exfalso. apply (matchAll_no_empty (length T) T). rewrite E. now left.
Qed.



(* ================================================================== *)
(** ** Facts about the greedy packing *)

Lemma packStep_concat st x :
  concat (fst (packStep st x)) ++ snd (packStep st x) =
  (concat (fst st) ++ snd st) ++ x.
Proof.
  destruct st as [chunks temp]. unfold packStep.
  destruct (maxChunkLen <? length temp + length x); simpl.
  - rewrite concat_app. simpl. now rewrite app_nil_r.
  - now rewrite app_assoc.
Qed.

Lemma fold_packStep_concat ss : forall st,
  concat (fst (fold_left packStep ss st)) ++ snd (fold_left packStep ss st) =
  (concat (fst st) ++ snd st) ++ concat ss.
Proof.
  induction ss as [|x ss IH]; intros st; simpl.
  - now rewrite app_nil_r.
  - rewrite IH, packStep_concat. now rewrite <- app_assoc.
Qed.

(** Packing neither loses nor repeats a character of its sentences. *)
Lemma concat_pack ss : concat (pack ss) = concat ss.
Proof.
  unfold pack, packLoop.
  pose proof (fold_packStep_concat ss ([], [])) as H. simpl in H.
  destruct (fold_left packStep ss ([], [])) as [chunks temp]. simpl in H.
  destruct temp as [|c temp]; simpl.
  - now rewrite app_nil_r in H.
  - now rewrite concat_app; simpl; rewrite app_nil_r.
Qed.

Lemma concat_segment T :
  concat (segment T) =
  match dropWhile isDelim T with [] => T | kept => kept end.
Proof. unfold segment. now rewrite concat_pack, concat_sentences. Qed.

Lemma fold_packStep_bound all ss : forall st,
  incl ss all ->
  Forall (withinOrWhole all) (fst st) -> withinOrWhole all (snd st) ->
  Forall (withinOrWhole all) (fst (fold_left packStep ss st)) /\
  withinOrWhole all (snd (fold_left packStep ss st)).
Proof.
  induction ss as [|x ss IH]; intros [chunks temp] Hin Hc Ht; simpl in *.
  - now split.
  - assert (Hx : In x all) by (apply Hin; now left).
    assert (Hss : incl ss all) by (intros y Hy; apply Hin; now right).
    destruct (maxChunkLen <? length temp + length x) eqn:E.
    + apply IH; simpl; trivial.
      * apply Forall_app. split; [assumption|]. now constructor.
      * destruct (Nat.le_gt_cases (length x) maxChunkLen);
          [now left | right; now split].
    + apply IH; simpl; trivial.
      left. rewrite length_app. now apply Nat.ltb_ge in E.
Qed.

Lemma pack_bound ss c : In c (pack ss) -> withinOrWhole ss c.
Proof.
  unfold pack, packLoop.
  destruct (fold_packStep_bound ss ss ([], [])) as [Hc Ht].
  - apply incl_refl.
  - constructor.
  - left. simpl. unfold maxChunkLen. lia.
  - destruct (fold_left packStep ss ([], [])) as [chunks temp].
    simpl in Hc, Ht. rewrite Forall_forall in Hc.
    destruct (truthy temp); intros H; [|now apply Hc].
    apply in_app_or in H as [H|[<-|[]]]; [now apply Hc | assumption].
Qed.

Lemma packStep_keptWhole st x s :
  maxChunkLen < length s ->
  keptWhole st s \/ s = x -> keptWhole (packStep st x) s.
Proof.
  destruct st as [chunks temp]. unfold keptWhole, packStep. simpl.
  intros Hs H.
  destruct (maxChunkLen <? length temp + length x) eqn:E; simpl.
  - destruct H as [[H| ->]| ->]; [left | left | now right];
      apply in_or_app; [now left | right; now left].
  - apply Nat.ltb_ge in E.
    destruct H as [[H| ->]| ->]; [now left | lia | lia].
Qed.

Lemma fold_packStep_keptWhole s ss : forall st,
  maxChunkLen < length s ->
  keptWhole st s \/ In s ss -> keptWhole (fold_left packStep ss st) s.
Proof.
  induction ss as [|x ss IH]; intros st Hs H; simpl.
  - destruct H as [H|[]]. exact H.
  - apply IH; trivial.
    destruct H as [H|[->|H]].
    + left. apply packStep_keptWhole; auto.
    + left. apply packStep_keptWhole; auto.
    + now right.
Qed.

Lemma pack_keeps_overlong ss s :
  In s ss -> maxChunkLen < length s -> In s (pack ss).
Proof.
  intros Hin Hs. unfold pack, packLoop.
  pose proof (fold_packStep_keptWhole s ss ([], []) Hs (or_intror Hin)) as H.
  destruct (fold_left packStep ss ([], [])) as [chunks temp].
  unfold keptWhole in H. simpl in H.
  destruct H as [H| ->].
  - destruct (truthy temp); [apply in_or_app; now left | exact H].
  - destruct temp; [simpl in Hs; lia|]. simpl.
    apply in_or_app. right. now left.
Qed.

(** Chunks are only ever appended: what was pushed first stays first. *)
Lemma fold_packStep_head ss : forall c0 cs temp,
  exists cs', fst (fold_left packStep ss (c0 :: cs, temp)) = c0 :: cs'.
Proof.
  induction ss as [|x ss IH]; intros c0 cs temp; simpl.
  - now exists cs.
  - destruct (maxChunkLen <? length temp + length x); apply IH.
Qed.

Lemma pack_overlong_first s ss :
  maxChunkLen < length s -> exists rest, pack (s :: ss) = [] :: rest.
Proof.
  intros Hs. unfold pack, packLoop. simpl.
  apply Nat.ltb_lt in Hs. rewrite Hs.
  destruct (fold_packStep_head ss [] [] s) as [cs' H].
  match type of H with
  | fst ?t = _ => destruct t as [chunks temp]
  end.
  simpl in H. rewrite H.
  destruct (truthy temp); eexists; simpl; reflexivity.
Qed.


(* ================================================================== *)
(** ** Segmentation: what is kept, and how long the chunks are *)

Lemma forallb_dropWhile p s :
  forallb p s = match dropWhile p s with [] => true | _ :: _ => false end.
Proof.
  induction s as [|c s IH]; cbn [dropWhile forallb]; [reflexivity|].
  destruct (p c) eqn:Hc; cbn [andb]; [exact IH | reflexivity].
Qed.

(** From the first character that is not a delimiter on, segmentation
    keeps every character once and in order; a text made of delimiters
    only is kept as it is. *)
Lemma segment_lossless_after_leading_delimiters T :
  concat (segment T) =
  if forallb isDelim T then T else dropWhile isDelim T.
Proof.
  rewrite concat_segment, forallb_dropWhile.
  now destruct (dropWhile isDelim T).
Qed.

Lemma segment_lossless_at_sentence_start c T :
  isDelim c = false -> concat (segment (c :: T)) = c :: T.
Proof.
  intros Hc. rewrite concat_segment. cbn [dropWhile]. now rewrite Hc.
Qed.

(** C1.  Segmentation is meant to be lossless: the chunks, put together
    in order, should give back the cleaned text.  The message [".a"] is
    its own cleaned text; on it the splitter's pattern cannot start a
    sentence at the full stop, skips it, and the only chunk is ["a"]:
    the leading delimiter is lost. *)
Theorem segment_loses_leading_delimiter :
  cleanMessage [46; 97]%N = [46; 97]%N /\
  sentences [46; 97]%N = [[97]%N] /\
  segment [46; 97]%N = [[97]%N] /\
  concat (segment [46; 97]%N) <> [46; 97]%N.
Proof. repeat split; try reflexivity. discriminate. Qed.

(** C7.  Every chunk of the greedy packing is at most 200 code units
    long or is a single sentence that is itself longer than 200; and a
    sentence longer than 200 is a chunk, whole. *)
Theorem chunk_length_bound (T c : jsstring) :
  (In c (segment T) ->
   length c <= maxChunkLen \/ (In c (sentences T) /\ maxChunkLen < length c))
  /\
  (In c (sentences T) -> maxChunkLen < length c -> In c (segment T)).
Proof.
  split.
  - intros H. exact (pack_bound _ _ H).
  - intros H1 H2. exact (pack_keeps_overlong _ _ H1 H2).
Qed.

Lemma chunk_length_bound_witness :
  In longSentence (segment longSentenceText) /\
  In longSentence (sentences longSentenceText) /\
  maxChunkLen < length longSentence /\
  (length longSentence <= maxChunkLen \/
   (In longSentence (sentences longSentenceText) /\
    maxChunkLen < length longSentence)).
Proof.
  assert (H1 : In longSentence (sentences longSentenceText))
    by (vm_compute; left; reflexivity).
  assert (H2 : maxChunkLen < length longSentence)
    by (vm_compute; repeat constructor).
  pose proof (proj2 (chunk_length_bound longSentenceText longSentence) H1 H2)
    as H3.
  repeat split; trivial.
  exact (proj1 (chunk_length_bound longSentenceText longSentence) H3).
Defined.

(* ================================================================== *)
(** ** scheduleChunk *)


Lemma sameButTrace_refl w : sameButTrace w w.
Proof. unfold sameButTrace. tauto. Qed.

Lemma sameButTrace_trans a b c :
  sameButTrace a b -> sameButTrace b c -> sameButTrace a c.
Proof. unfold sameButTrace. intuition congruence. Qed.

Lemma sameButTrace_emit a w : sameButTrace w (emit a w).
Proof. unfold sameButTrace. simpl. tauto. Qed.

(** What [scheduleChunk] answers and leaves behind does not depend on
    the history. *)
Lemma scheduleChunk_sameButTrace base64 w1 w2 :
  sameButTrace w1 w2 ->
  snd (scheduleChunk base64 w2) = snd (scheduleChunk base64 w1) /\
  sameButTrace (fst (scheduleChunk base64 w1)) (fst (scheduleChunk base64 w2)).
Proof.
  destruct w1, w2. unfold sameButTrace. simpl.
  intros (-> & -> & -> & -> & -> & -> & -> & -> & -> & -> & ->).
  unfold scheduleChunk. simpl.
  destruct audioContextRef0; simpl; [|tauto].
  destruct (decode base64); simpl; tauto.
Qed.

Lemma scheduleSeq_sameButTrace calls : forall w1 w2,
  sameButTrace w1 w2 ->
  sameButTrace (scheduleSeq calls w1) (scheduleSeq calls w2).
Proof.
  induction calls as [|[t b] calls IH]; intros w1 w2 H; simpl; [exact H|].
  apply IH. unfold scheduleAt. simpl.
  apply scheduleChunk_sameButTrace.
  unfold sameButTrace in *. simpl. tauto.
Qed.

(** C8.  When the payload cannot be decoded, [scheduleChunk] logs the
    error and answers [null]; the timeline cursor, the active handles
    and every other part of the state but the history are as before, so
    that any later sequence of frames is scheduled exactly as it would
    have been without the bad frame. *)
Theorem scheduleChunk_decode_failure_isolated
        (w : World) (bad : jsstring) (later : list (Q * jsstring)) :
  audioContextRef w <> None ->
  decode bad = None ->
  snd (scheduleChunk bad w) = None /\
  trace (fst (scheduleChunk bad w)) =
    trace w ++ [AScheduleChunk bad; AConsoleError DecodeError] /\
  nextStartTimeRef (fst (scheduleChunk bad w)) = nextStartTimeRef w /\
  sourcesRef (fst (scheduleChunk bad w)) = sourcesRef w /\
  sameButTrace w (fst (scheduleChunk bad w)) /\
  sameButTrace (scheduleSeq later w)
               (scheduleSeq later (fst (scheduleChunk bad w))).
Proof.
  intros Hctx Hbad.
  assert (E : scheduleChunk bad w =
              (emit (AConsoleError DecodeError) (emit (AScheduleChunk bad) w),
               None)).
  { unfold scheduleChunk. simpl.
    destruct (audioContextRef w); [|congruence]. now rewrite Hbad. }
  rewrite E. simpl.
  assert (S : sameButTrace w
                (emit (AConsoleError DecodeError)
                      (emit (AScheduleChunk bad) w))).
  { eapply sameButTrace_trans; apply sameButTrace_emit. }
  split; [reflexivity|].
  split; [now rewrite <- app_assoc|].
  split; [reflexivity|].
  split; [reflexivity|].
  split; [exact S|].
  now apply scheduleSeq_sameButTrace.
Qed.

(* ================================================================== *)
(** ** What the network side leaves alone *)

Lemma extends_refl P w : extends P w w.
Proof. exists []. split; [now rewrite app_nil_r | constructor]. Qed.

Lemma extends_trans P a b c :
  extends P a b -> extends P b c -> extends P a c.
Proof.
  intros (l1 & E1 & H1) (l2 & E2 & H2). exists (l1 ++ l2). split.
  - now rewrite E2, E1, app_assoc.
  - apply Forall_app. now split.
Qed.

Lemma extends_weaken (P Q : Action -> Prop) a b :
  (forall x, P x -> Q x) -> extends P a b -> extends Q a b.
Proof.
  intros HPQ (l & E & H). exists l. split; [exact E|].
  eapply Forall_impl; eauto.
Qed.

Lemma extends_emit (P : Action -> Prop) a w w' :
  P a -> trace w' = trace w -> extends P w (emit a w').
Proof.
  intros Ha E. exists [a]. simpl. rewrite E. split; [reflexivity|].
  now constructor.
Qed.

Lemma extends_same_trace P w w' : trace w' = trace w -> extends P w w'.
Proof.
  intros E. exists []. rewrite E, app_nil_r. split; [reflexivity|constructor].
Qed.

Lemma audioFrame_refl w : audioFrame w w.
Proof. unfold audioFrame. tauto. Qed.

Lemma audioFrame_trans a b c :
  audioFrame a b -> audioFrame b c -> audioFrame a c.
Proof. unfold audioFrame. intuition congruence. Qed.

(** A rotation that reports a credential leaves the cursor on one. *)
Lemma rotate_ok_current p :
  fst (rotateApiKey p) = true ->
  exists key, getApiKey (snd (rotateApiKey p)) = Some key.
Proof.
  unfold rotateApiKey, getApiKey. simpl. intros H.
  apply Nat.ltb_lt in H.
  destruct (nth_error (pool_keys p) (S (pool_cursor p))) eqn:E; eauto.
  apply nth_error_None in E. lia.
Qed.

(** The code of [streamSpeech], as an equation: the [try] block up to
    the first [await], or the [catch] block when [getAIClient] throws. *)
Lemma streamSpeech_unfold call text retryCount w :
  streamSpeech call text retryCount w =
  let w := emit (ACallStreamSpeech call text retryCount) w in
  match getApiKey (pool w) with
  | Some key =>
      let rid := fresh w in
      let w := set_fresh (S rid) w in
      let w := emit (ASend rid key text) w in
      (set_inflight
         (inflight w ++ [{| req_id := rid; req_call := call;
                            req_text := text; req_retry := retryCount |}]) w,
       Pending rid)
  | None => (streamSpeechCatch call text retryCount w, Fulfilled)
  end.
Proof.
  unfold streamSpeech, streamSpeechCatch. cbn [streamSpeechFrom].
  cbv zeta. destruct (getApiKey _); [reflexivity|].
  f_equal. unfold streamSpeechCatchWith.
  destruct (retryCount <? 3) eqn:E; [|reflexivity].
  apply Nat.ltb_lt in E.
  replace (3 - retryCount) with (S (3 - S retryCount)) by lia.
  reflexivity.
Qed.

Lemma streamSpeech_not_rejected call text retryCount w :
  snd (streamSpeech call text retryCount w) <> Rejected.
Proof.
  rewrite streamSpeech_unfold. cbv zeta.
  destruct (getApiKey _); simpl; discriminate.
Qed.

Lemma streamSpeechFrom_frame gas : forall call text retryCount w,
  retryCount <= 3 ->
  audioFrame w (fst (streamSpeechFrom gas call text retryCount w)) /\
  extends (svcAction call text retryCount) w
          (fst (streamSpeechFrom gas call text retryCount w)).
Proof.
  induction gas as [|gas IH]; intros call text rc w Hrc.
  - simpl. split; [apply audioFrame_refl | apply extends_refl].
  - cbn [streamSpeechFrom]. cbv zeta.
    assert (Hcall : extends (svcAction call text rc) w
                      (emit (ACallStreamSpeech call text rc) w)).
    { apply extends_emit; [simpl; repeat split; trivial; lia | reflexivity]. }
    destruct (getApiKey _) as [key|]; cbn [fst].
    + split; [unfold audioFrame; simpl; tauto|].
      eapply extends_trans; [exact Hcall|].
      exists [ASend (fresh w) key text]. simpl. split; [reflexivity|].
      constructor; [reflexivity | constructor].
    + unfold streamSpeechCatchWith.
      set (w1 := emit (AConsoleError (TtsStreamError call))
                      (emit (ACallStreamSpeech call text rc) w)).
      assert (H1 : extends (svcAction call text rc) w w1).
      { eapply extends_trans; [exact Hcall|].
        apply extends_emit; [reflexivity | reflexivity]. }
      assert (F1 : audioFrame w w1) by (unfold audioFrame; simpl; tauto).
      destruct (rc <? 3) eqn:E; [|now split].
      apply Nat.ltb_lt in E.
      destruct (rotateApiKey (pool w1)) as [ok p] eqn:R.
      set (w2 := emit (ARotate call ok) (set_pool p w1)).
      assert (H2 : extends (svcAction call text rc) w w2).
      { eapply extends_trans; [exact H1|].
        apply extends_emit; [reflexivity | reflexivity]. }
      assert (F2 : audioFrame w w2) by (unfold audioFrame; simpl; tauto).
      destruct ok; [|now split].
      destruct (IH call text (S rc) w2 E) as [F3 H3].
      split; [exact (audioFrame_trans _ _ _ F2 F3)|].
      eapply extends_trans; [exact H2|].
      eapply extends_weaken; [|exact H3].
      intros [] ; simpl; try tauto. intros (? & ? & ?). repeat split; trivial; lia.
Qed.

Lemma streamSpeech_frame call text retryCount w :
  retryCount <= 3 ->
  audioFrame w (fst (streamSpeech call text retryCount w)) /\
  extends (svcAction call text retryCount) w
          (fst (streamSpeech call text retryCount w)).
Proof. apply streamSpeechFrom_frame. Qed.

(** The [catch] block, as an equation. *)
Lemma streamSpeechCatch_unfold call text retryCount w :
  streamSpeechCatch call text retryCount w =
  let w1 := emit (AConsoleError (TtsStreamError call)) w in
  if retryCount <? 3 then
    let r := rotateApiKey (pool w1) in
    let w2 := emit (ARotate call (fst r)) (set_pool (snd r) w1) in
    if fst r then fst (streamSpeech call text (S retryCount) w2) else w2
  else w1.
Proof.
  unfold streamSpeechCatch, streamSpeechCatchWith. cbv zeta.
  destruct (retryCount <? 3); [|reflexivity].
  destruct (rotateApiKey _) as [ok p]. reflexivity.
Qed.

Lemma streamSpeechCatch_frame call text retryCount w :
  audioFrame w (streamSpeechCatch call text retryCount w) /\
  extends (svcAction call text (S retryCount)) w
          (streamSpeechCatch call text retryCount w).
Proof.
  rewrite streamSpeechCatch_unfold. cbv zeta.
  set (w1 := emit (AConsoleError (TtsStreamError call)) w).
  assert (H1 : extends (svcAction call text (S retryCount)) w w1)
    by (apply extends_emit; [reflexivity | reflexivity]).
  assert (F1 : audioFrame w w1) by (unfold audioFrame; simpl; tauto).
  destruct (retryCount <? 3) eqn:E; [|now split].
  apply Nat.ltb_lt in E.
  set (r := rotateApiKey (pool w1)).
  set (w2 := emit _ (set_pool _ w1)).
  assert (H2 : extends (svcAction call text (S retryCount)) w w2).
  { eapply extends_trans; [exact H1|].
    apply extends_emit; reflexivity. }
  assert (F2 : audioFrame w w2) by (unfold audioFrame; simpl; tauto).
  destruct (fst r); [|now split].
  destruct (streamSpeech_frame call text (S retryCount) w2 E) as [F3 H3].
  split; [exact (audioFrame_trans _ _ _ F2 F3)|].
  exact (extends_trans _ _ _ _ H2 H3).
Qed.

Lemma svcAction_service call text retryCount a :
  svcAction call text retryCount a -> isServiceAction a.
Proof. destruct a; simpl; try tauto. now destruct msg. Qed.

Lemma orchestrate_frame chunks : forall w,
  audioFrame w (orchestrate chunks w) /\
  extends isServiceAction w (orchestrate chunks w).
Proof.
  induction chunks as [|chunk rest IH]; intros w; cbn [orchestrate].
  - split; [apply audioFrame_refl | apply extends_refl].
  - destruct (negb (isSpeakingRef w));
      [split; [apply audioFrame_refl | apply extends_refl]|].
    pose proof (streamSpeech_not_rejected (fresh w) chunk 0
                  (set_fresh (S (fresh w)) w)) as NR.
    destruct (streamSpeech_frame (fresh w) chunk 0
                (set_fresh (S (fresh w)) w) (Nat.le_0_l 3)) as [F H].
    apply (extends_weaken _ isServiceAction) in H;
      [|apply svcAction_service].
    destruct (streamSpeech _ _ _ _) as [w1 promise]. cbn [fst snd] in *.
    assert (F0 : audioFrame w w1)
      by (unfold audioFrame in *; simpl in *; tauto).
    assert (H0 : extends isServiceAction w w1)
      by (destruct H as (l & E & Hl); exists l; simpl in E; now split).
    destruct promise as [rid| |]; [| |congruence].
    + split; [unfold audioFrame in *; simpl; tauto|].
      destruct H0 as (l & E & Hl). exists l. simpl. now split.
    + destruct (IH w1) as [F1 H1]. split.
      * exact (audioFrame_trans _ _ _ F0 F1).
      * exact (extends_trans _ _ _ _ H0 H1).
Qed.

(** With the flag clear the loop does nothing. *)
Lemma orchestrate_cancelled chunks w :
  isSpeakingRef w = false -> orchestrate chunks w = w.
Proof.
  intros H. destruct chunks; cbn [orchestrate]; [reflexivity|].
  now rewrite H.
Qed.

(* ================================================================== *)
(** ** One event at a time *)

Lemma settle_frame rid w :
  audioFrame w (settle rid w) /\ extends isServiceAction w (settle rid w).
Proof.
  unfold settle.
  destruct (find (awaits rid) (tasks w)) as [[text|r rest]|];
    try (split; [apply audioFrame_refl | apply extends_refl]).
  set (w1 := set_tasks _ w).
  destruct (orchestrate_frame rest w1) as [F H]. split.
  - unfold audioFrame in *. simpl in *. tauto.
  - destruct H as (l & E & Hl). exists l. now split.
Qed.

Lemma settle_cancelled rid w :
  isSpeakingRef w = false ->
  trace (settle rid w) = trace w /\ isSpeakingRef (settle rid w) = false.
Proof.
  intros H. unfold settle.
  destruct (find (awaits rid) (tasks w)) as [[text|r rest]|]; try now split.
  rewrite orchestrate_cancelled by exact H. now split.
Qed.

Lemma stopAudio_fold l : forall w,
  fold_left (fun w source => emit (AStop (node_id source)) w) l w =
  fold_left (fun w a => emit a w) (map (fun n => AStop (node_id n)) l) w.
Proof. induction l as [|n l IH]; intros w; simpl; [reflexivity|apply IH]. Qed.

Lemma emit_all_trace l : forall w,
  trace (fold_left (fun w a => emit a w) l w) = trace w ++ l /\
  sameButTrace w (fold_left (fun w a => emit a w) l w).
Proof.
  induction l as [|a l IH]; intros w; simpl.
  - split; [now rewrite app_nil_r | apply sameButTrace_refl].
  - destruct (IH (emit a w)) as [E S]. split.
    + rewrite E. simpl. now rewrite <- app_assoc.
    + eapply sameButTrace_trans; [apply sameButTrace_emit | exact S].
Qed.

(** [stopAudio], field by field. *)
Lemma stopAudio_spec w :
  isSpeakingRef (stopAudio w) = false /\
  sourcesRef (stopAudio w) = [] /\
  isSpeaking (stopAudio w) = false /\
  isLoadingAudio (stopAudio w) = false /\
  nextStartTimeRef (stopAudio w) = 0%Q /\
  trace (stopAudio w) =
    trace w ++ map (fun n => AStop (node_id n)) (sourcesRef w) /\
  inflight (stopAudio w) = inflight w /\
  tasks (stopAudio w) = tasks w /\
  pool (stopAudio w) = pool w /\
  fresh (stopAudio w) = fresh w.
Proof.
  unfold stopAudio. cbv zeta. simpl.
  rewrite stopAudio_fold.
  destruct (emit_all_trace (map (fun n => AStop (node_id n)) (sourcesRef w))
              (set_isSpeakingRef false w)) as [E S].
  unfold sameButTrace in S. simpl in S.
  repeat split; tauto.
Qed.

Lemma starts_app l1 l2 : starts (l1 ++ l2) = starts l1 ++ starts l2.
Proof.
  induction l1 as [|a l1 IH]; simpl; [reflexivity|].
  destruct a; simpl; now rewrite ?IH.
Qed.








(* ================================================================== *)
(** ** Cancellation *)

Lemma svcAction_late call text retryCount a :
  svcAction call text (S retryCount) a -> lateAction a.
Proof.
  unfold lateAction. destruct a; simpl; try tauto.
  intros (_ & _ & H & _). destruct retryCount0; [lia|tauto].
Qed.

Lemma resume_cancelled waiting : forall w,
  isSpeakingRef w = false ->
  trace (fold_left resumeTask waiting w) = trace w /\
  isSpeakingRef (fold_left resumeTask waiting w) = false.
Proof.
  induction waiting as [|t waiting IH]; intros w H; simpl; [now split|].
  assert (E : trace (resumeTask w t) = trace w /\
              isSpeakingRef (resumeTask w t) = false).
  { destruct t; simpl; [|now split].
    unfold handleSpeakResumed. cbv zeta.
    rewrite orchestrate_cancelled by exact H. now split. }
  destruct E as [E1 E2]. destruct (IH _ E2) as [E3 E4].
  split; congruence.
Qed.

(** With the flag clear, an event other than a new activation forwards
    no frame, lets the loop call for no chunk, and leaves the flag
    clear. *)
Lemma step_cancelled w e :
  notHandleSpeak e = true ->
  isSpeakingRef w = false ->
  isSpeakingRef (step w e) = false /\ extends lateAction w (step w e).
Proof.
  intros He Hw.
  assert (Same : forall w', isSpeakingRef w' = false -> trace w' = trace w ->
                 isSpeakingRef w' = false /\ extends lateAction w w').
  { intros w' H1 H2. split; [exact H1 | now apply extends_same_trace]. }
  destruct e; simpl in *; try discriminate.
  - (* EvStopAudio *)
    destruct (stopAudio_spec w) as (F & _ & _ & _ & _ & T & _).
    split; [exact F|]. eexists. split; [exact T|].
    apply Forall_forall. intros a Ha. apply in_map_iff in Ha as (n & <- & _).
    unfold lateAction. simpl. tauto.
  - (* EvSuspended *)
    destruct (audioContextRef w); now apply Same.
  - (* EvResumed *)
    destruct (audioContextRef w) as [[|]|]; try now apply Same.
    set (w1 := set_audioContextRef _ (set_tasks _ w)).
    destruct (resume_cancelled (filter isAwaitResume (tasks w)) w1 Hw)
      as [E1 E2].
    now apply Same.
  - (* EvFrame *)
    destruct (findRequest rid w); [|now apply Same].
    unfold onStreamChunk. destruct audioData as [data|]; [|now apply Same].
    destruct (truthy data); [|now apply Same].
    unfold onAudioChunk. rewrite Hw. now apply Same.
  - (* EvClose *)
    destruct (findRequest rid w); [|now apply Same].
    destruct (settle_cancelled rid (dropRequest rid w) Hw) as [E1 E2].
    now apply Same.
  - (* EvError *)
    destruct (findRequest rid w) as [r|]; [|now apply Same].
    set (w1 := dropRequest rid w).
    destruct (streamSpeechCatch_frame (req_call r) (req_text r)
                (req_retry r) w1) as [F1 H1].
    set (w2 := streamSpeechCatch _ _ _ w1) in *.
    assert (Hw2 : isSpeakingRef w2 = false).
    { unfold audioFrame in F1. simpl in F1. destruct F1 as [-> _]. exact Hw. }
    destruct (settle_cancelled rid w2 Hw2) as [E1 E2].
    split; [exact E2|].
    destruct H1 as (l & El & Hl). exists l. split.
    + rewrite E1. exact El.
    + eapply Forall_impl; [|exact Hl]. apply svcAction_late.
  - (* EvEnded *)
    destruct (started node w); [|now apply Same].
    unfold onended. cbv zeta. simpl.
    destruct (removeNode node (sourcesRef w)); [|now apply Same].
    destruct (Qle_bool _ _); now apply Same.
  - (* EvTick *)
    destruct (Qle_bool _ _); now apply Same.
Qed.

Lemma run_cancelled events : forall w,
  forallb notHandleSpeak events = true ->
  isSpeakingRef w = false ->
  isSpeakingRef (run w events) = false /\ extends lateAction w (run w events).
Proof.
  induction events as [|e events IH]; intros w H Hw.
  - split; [exact Hw | apply extends_refl].
  - cbn [forallb] in H. apply andb_prop in H as [He Hes].
    change (run w (e :: events)) with (run (step w e) events).
    destruct (step_cancelled w e He Hw) as [F1 H1].
    destruct (IH _ Hes F1) as [F2 H2].
    split; [exact F2 | exact (extends_trans _ _ _ _ H1 H2)].
Qed.


(* ================================================================== *)
(** ** The toggle, the first chunk and the order of requests *)





(** C9, at an input where it fails.  Two chunks, two credentials; the
    first request fails.  [streamSpeech] rotates, starts the retry and,
    not awaiting it, is over: the loop goes on to the second chunk.  The
    retry for the first chunk and the request for the second are in
    flight together. *)
Theorem retry_overlaps_next_chunk :
  let w := run (mounted twoKeys)
               [EvHandleSpeak twoChunkText Running; EvError 1] in
  segment twoChunkText = [firstChunk; secondChunk] /\
  inflight w =
    [{| req_id := 2; req_call := 0; req_text := firstChunk;
        req_retry := 1 |};
     {| req_id := 4; req_call := 3; req_text := secondChunk;
        req_retry := 0 |}] /\
  length (inflight w) = 2.
Proof. cbv zeta. repeat split; vm_compute; reflexivity. Qed.

(** Entered with the flag set, the loop calls [streamSpeech] for its
    first chunk before anything else, and with a credential at hand the
    request for it is sent. *)
Lemma orchestrate_first_call chunk rest w :
  isSpeakingRef w = true ->
  exists later,
    trace (orchestrate (chunk :: rest) w) =
    trace w ++ ACallStreamSpeech (fresh w) chunk 0 :: later /\
    forall key, getApiKey (pool w) = Some key ->
                later = [ASend (S (fresh w)) key chunk].
Proof.
  intros H. cbn [orchestrate]. rewrite H. cbn [negb].
  rewrite streamSpeech_unfold. cbv zeta.
  set (w1 := emit _ (set_fresh _ w)).
  assert (E1 : trace w1 = trace w ++ [ACallStreamSpeech (fresh w) chunk 0])
    by reflexivity.
  change (pool w1) with (pool w).
  destruct (getApiKey (pool w)) as [key|].
  - eexists. simpl. rewrite <- app_assoc. split; [reflexivity|].
    now intros key' [= <-].
  - enough (exists later,
              trace (orchestrate rest
                       (streamSpeechCatch (fresh w) chunk 0 w1)) =
              trace w ++ ACallStreamSpeech (fresh w) chunk 0 :: later)
      as [later E] by (exists later; split; [exact E | discriminate]).
    destruct (streamSpeechCatch_frame (fresh w) chunk 0 w1) as [_ (l1 & E2 & _)].
    destruct (orchestrate_frame rest (streamSpeechCatch (fresh w) chunk 0 w1))
      as [_ (l2 & E3 & _)].
    exists (l1 ++ l2). rewrite E3, E2, E1.
    now rewrite <- !app_assoc.
Qed.

(** C10.  When the first sentence of the cleaned text is longer than 200
    code units, the chunk sequence begins with the empty string, and the
    orchestration loop, entered with the flag set as [handleSpeak] sets
    it, calls [streamSpeech] with the empty string first; with a
    credential at hand the request for the empty string is sent. *)
Theorem overlong_first_sentence_sends_empty_chunk (T s : jsstring) :
  hd_error (sentences T) = Some s ->
  maxChunkLen < length s ->
  (exists rest, segment T = [] :: rest) /\
  (forall w, isSpeakingRef w = true ->
     exists later,
       trace (orchestrate (segment T) w) =
       trace w ++ ACallStreamSpeech (fresh w) [] 0 :: later /\
       forall key, getApiKey (pool w) = Some key ->
                   later = [ASend (S (fresh w)) key []]) /\
  (forall w newCtx text,
     cleanMessage text = T ->
     isSpeaking w = false -> isLoadingAudio w = false ->
     audioContextRef w = Some Running \/
       (audioContextRef w = None /\ newCtx = Running) ->
     exists later,
       trace (handleSpeak text newCtx w) =
       trace w ++ ACallStreamSpeech (fresh w) [] 0 :: later).
Proof.
  intros Hs Hlen.
  assert (Hseg : exists rest, segment T = [] :: rest).
  { unfold segment. destruct (sentences T) as [|s' ss]; [discriminate|].
    injection Hs as ->. now apply pack_overlong_first. }
  split; [exact Hseg|].
  destruct Hseg as [rest Hseg]. split.
  - intros w Hw. rewrite Hseg. now apply orchestrate_first_call.
  - intros w newCtx text Hclean S L C.
    assert (HT : truthy T = true).
    { destruct T; [|reflexivity]. vm_compute in Hs. injection Hs as <-.
      simpl in Hlen. lia. }
    destruct w as [sp ld fl ctx srcs nxt clk pl infl tsk fr tr].
    simpl in S, L, C. subst sp ld.
    unfold handleSpeak. cbn -[segment orchestrate cleanMessage].
    rewrite Hclean, HT. cbn -[segment orchestrate cleanMessage].
    destruct C as [->|[-> ->]]; cbn -[segment orchestrate cleanMessage];
      unfold handleSpeakResumed; cbv zeta; rewrite Hseg;
      match goal with
      | |- context [orchestrate _ ?w0] =>
          destruct (orchestrate_first_call [] rest w0 eq_refl)
            as (later & E & _)
      end; exists later; exact E.
Qed.

Lemma overlong_first_sentence_sends_empty_chunk_witness :
  hd_error (sentences longSentenceText) = Some longSentence /\
  maxChunkLen < length longSentence /\
  exists rest, segment longSentenceText = [] :: rest.
Proof.
  assert (H1 : hd_error (sentences longSentenceText) = Some longSentence)
    by (vm_compute; reflexivity).
  assert (H2 : maxChunkLen < length longSentence)
    by (vm_compute; repeat constructor).
  split; [exact H1|]. split; [exact H2|].
  exact (proj1 (overlong_first_sentence_sends_empty_chunk
                  longSentenceText longSentence H1 H2)).
Defined.

(* ================================================================== *)
(** ** Retry chains *)


Lemma chain_open_ge {X : Type} ceiling (x : X) rc l k :
  chain ceiling x rc l (Open k) -> rc <= k.
Proof.
  intros H. remember (Open k) as e eqn:E. revert k E.
  induction H as [rc|rc H|rc H|rc l e H _ IH]; intros k E;
    try discriminate.
  - injection E as <-. lia.
  - specialize (IH k E). lia.
Qed.




(** Nothing follows a chain that has ended on a failure. *)
Lemma chain_closed_final {X : Type} ceiling (x y : X) rc l e l' e' :
  chain ceiling x rc l e -> closed e ->
  chain ceiling y rc (l ++ l') e' -> l' = [].
Proof.
  intros H. revert l' e'.
  induction H as [rc|rc H|rc H|rc l e H _ IH]; intros l' e' C H';
    simpl in *; try contradiction.
  - inversion H'; subst; trivial; lia.
  - inversion H'; subst; trivial; lia.
  - inversion H'; subst; try discriminate. eapply IH; eauto.
Qed.

Lemma genSteps_app l1 l2 : genSteps (l1 ++ l2) = genSteps l1 ++ genSteps l2.
Proof. apply flat_map_app. Qed.

Lemma callSteps_app c l1 l2 :
  callSteps c (l1 ++ l2) = callSteps c l1 ++ callSteps c l2.
Proof. apply flat_map_app. Qed.

(* ================================================================== *)
(** ** generateStreamResponse: one call and its retries *)

Lemma fold_onResultChunk_spec chunks : forall fullText sources st,
  let '(_, _, st') :=
    fold_left onResultChunk chunks (fullText, sources, st) in
  g_pool st' = g_pool st /\ g_sent st' = g_sent st /\
  exists added, g_trace st' = g_trace st ++ added /\ genSteps added = [].
Proof.
  induction chunks as [|c chunks IH]; intros fullText sources st.
  - simpl. repeat split. exists []. now rewrite app_nil_r.
  - cbn [fold_left onResultChunk].
    specialize (IH (fullText ++ orElse (chunk_text c) [])
                   (addSources (chunk_grounding c) sources)
                   (gemit (GOnChunk (fullText ++ orElse (chunk_text c) []))
                          st)).
    destruct (fold_left onResultChunk chunks _) as [[ft srcs] st'].
    destruct IH as (P & S & added & E & G). simpl in P, S, E.
    repeat split; trivial.
    exists (GOnChunk (fullText ++ orElse (chunk_text c) []) :: added).
    rewrite E, <- app_assoc. now split.
Qed.

(** The [try] block rotates nothing, and its history has no step of the
    retry policy. *)
Lemma tryBlock_spec net a st :
  g_pool (fst (tryBlock net a st)) = g_pool st /\
  exists added,
    g_trace (fst (tryBlock net a st)) = g_trace st ++ added /\
    genSteps added = [].
Proof.
  unfold tryBlock.
  destruct (getApiKey (g_pool st)) as [key|]; simpl.
  2:{ split; [reflexivity|]. exists []. now rewrite app_nil_r. }
  set (st1 := {| g_pool := g_pool st; g_sent := S (g_sent st);
                 g_trace := g_trace st ++ [GSend key (requestOf a)] |}).
  pose proof (fold_onResultChunk_spec (att_chunks (net (g_sent st)))
                [] [] st1) as H.
  destruct (fold_left onResultChunk _ _) as [[ft srcs] st2].
  destruct H as (P & _ & added & E & G). simpl in P, E.
  assert (Base : exists added',
             g_trace st2 = g_trace st ++ added' /\ genSteps added' = []).
  { exists (GSend key (requestOf a) :: added).
    rewrite E, <- app_assoc. now split. }
  destruct (att_end (net (g_sent st))); [|now split].
  destruct srcs as [|s0 srcs]; [now split|]. simpl.
  split; [exact P|].
  destruct Base as (added' & E' & G').
  exists (added' ++ [GOnChunk (ft ++ sourcesText (s0 :: srcs))]).
  rewrite E', <- app_assoc. split; [reflexivity|].
  rewrite genSteps_app, G'. reflexivity.
Qed.

Lemma generateFrom_chain net a gas : forall retryCount st,
  4 - retryCount < gas ->
  exists added e,
    g_trace (fst (generateFrom gas net a retryCount st)) =
      g_trace st ++ added /\
    chain 4 a retryCount (genSteps added) e /\
    match e with
    | Open _ =>
        exists st0 text,
          snd (tryBlock net a st0) = Some text /\
          snd (generateFrom gas net a retryCount st) = Returned text
    | _ => snd (generateFrom gas net a retryCount st) = Returned apology
    end.
Proof.
  induction gas as [|gas IH]; intros rc st Hgas; [lia|].
  cbn [generateFrom]. cbv zeta.
  set (st1 := gemit (GInvoke a rc) st).
  destruct (tryBlock_spec net a st1) as (P & tr & E & G).
  destruct (tryBlock net a st1) as [st2 [fullText|]] eqn:TB;
    cbn [fst snd] in *.
  - exists (GInvoke a rc :: tr), (Open rc). split; [|split].
    + rewrite E. simpl. now rewrite <- app_assoc.
    + change (genSteps (GInvoke a rc :: tr))
        with (Try rc a :: genSteps tr).
      rewrite G. apply chain_open.
    + exists st1, fullText. now rewrite TB.
  - assert (E3 : g_trace (gemit GConsoleError st2) =
                 g_trace st ++ (GInvoke a rc :: tr) ++ [GConsoleError]).
    { simpl. rewrite E. simpl. now rewrite <- !app_assoc. }
    assert (G3 : genSteps ((GInvoke a rc :: tr) ++ [GConsoleError]) =
                 [Try rc a; Failed]).
    { rewrite genSteps_app.
      change (genSteps (GInvoke a rc :: tr)) with (Try rc a :: genSteps tr).
      now rewrite G. }
    destruct (rc <? 4) eqn:Hrc.
    2:{ apply Nat.ltb_ge in Hrc.
        exists ((GInvoke a rc :: tr) ++ [GConsoleError]), CeilingReached.
        split; [exact E3|]. split; [|reflexivity].
        rewrite G3. now apply chain_ceiling. }
    apply Nat.ltb_lt in Hrc.
    destruct (rotateApiKey (g_pool (gemit GConsoleError st2)))
      as [rotated p].
    destruct rotated.
    + set (st5 := gemit (GConsoleLog (rc + 1)) _).
      destruct (IH (S rc) st5 ltac:(lia)) as (added & e & E5 & C5 & O5).
      exists (((GInvoke a rc :: tr) ++ [GConsoleError])
                ++ [GRotate true; GConsoleLog (rc + 1)] ++ added), e.
      split; [|split].
      * rewrite E5. unfold st5. simpl.
        simpl in E3. rewrite E3.
        repeat first [rewrite <- app_assoc | progress cbn [app]]. reflexivity.
      * rewrite genSteps_app, G3, genSteps_app. simpl.
        now apply chain_retry.
      * exact O5.
    + exists (((GInvoke a rc :: tr) ++ [GConsoleError]) ++ [GRotate false]),
             PoolExhausted.
      split; [|split; [|reflexivity]].
      * simpl. simpl in E3. rewrite E3.
        repeat first [rewrite <- app_assoc | progress cbn [app]]. reflexivity.
      * rewrite genSteps_app, G3. simpl. now apply chain_exhausted.
Qed.

Lemma generateStreamResponse_chain net a retryCount st :
  exists added e,
    g_trace (fst (generateStreamResponse net a retryCount st)) =
      g_trace st ++ added /\
    chain 4 a retryCount (genSteps added) e /\
    match e with
    | Open _ =>
        exists st0 text,
          snd (tryBlock net a st0) = Some text /\
          snd (generateStreamResponse net a retryCount st) = Returned text
    | _ => snd (generateStreamResponse net a retryCount st) = Returned apology
    end.
Proof. apply generateFrom_chain. lia. Qed.

(** The code of [generateStreamResponse], as an equation. *)
Lemma generateStreamResponse_unfold net a retryCount st :
  generateStreamResponse net a retryCount st =
  let st1 := gemit (GInvoke a retryCount) st in
  match tryBlock net a st1 with
  | (st2, Some fullText) => (st2, Returned fullText)
  | (st2, None) =>
      let st3 := gemit GConsoleError st2 in
      if retryCount <? 4 then
        let r := rotateApiKey (g_pool st3) in
        let st4 := gemit (GRotate (fst r))
                     {| g_pool := snd r; g_sent := g_sent st3;
                        g_trace := g_trace st3 |} in
        if fst r then
          generateStreamResponse net a (S retryCount)
            (gemit (GConsoleLog (retryCount + 1)) st4)
        else (st4, Returned apology)
      else (st3, Returned apology)
  end.
Proof.
  unfold generateStreamResponse. cbn [generateFrom]. cbv zeta.
  destruct (tryBlock net a _) as [st2 [fullText|]]; [reflexivity|].
  destruct (retryCount <? 4) eqn:E; [|reflexivity].
  apply Nat.ltb_lt in E.
  destruct (rotateApiKey _) as [rotated p]. cbn [fst snd].
  destruct rotated; [|reflexivity].
  replace (4 - retryCount) with (S (4 - S retryCount)) by lia.
  reflexivity.
Qed.

(** On a network where every stream fails, no attempt returns. *)
Lemma tryBlock_dead a st : snd (tryBlock deadNetwork a st) = None.
Proof.
  unfold tryBlock. destruct (getApiKey (g_pool st)); reflexivity.
Qed.

Lemma dead_network_always_apology a retryCount st :
  snd (generateStreamResponse deadNetwork a retryCount st) = Returned apology.
Proof.
  destruct (generateStreamResponse_chain deadNetwork a retryCount st)
    as (added & e & _ & _ & H).
  destruct e; trivial.
  destruct H as (st0 & text & T & _). now rewrite tryBlock_dead in T.
Qed.

(* ================================================================== *)
(** ** streamSpeech: the calls of the loop and their retries *)

Lemma getApiKey_none_rotate p :
  getApiKey p = None -> fst (rotateApiKey p) = false.
Proof.
  unfold getApiKey, rotateApiKey. simpl. intros H.
  apply nth_error_None in H. apply Nat.ltb_ge. lia.
Qed.

Lemma callSteps_snoc c tr a :
  callSteps c (tr ++ [a]) = callSteps c tr ++ callStep c a.
Proof. rewrite callSteps_app. simpl. now rewrite app_nil_r. Qed.

(** What an invocation does to the requests in flight and to the
    history of the calls: either it sends a request and is suspended on
    it, or, with no credential at hand, it fails at once and is over. *)
Lemma streamSpeech_effect call text rc w :
  fresh w <= fresh (fst (streamSpeech call text rc w)) /\
  (forall c, c <> call ->
     callSteps c (trace (fst (streamSpeech call text rc w))) =
     callSteps c (trace w)) /\
  ((exists r,
      inflight (fst (streamSpeech call text rc w)) = inflight w ++ [r] /\
      req_id r = fresh w /\ req_call r = call /\ req_text r = text /\
      req_retry r = rc /\
      fresh (fst (streamSpeech call text rc w)) = S (fresh w) /\
      snd (streamSpeech call text rc w) = Pending (fresh w) /\
      callSteps call (trace (fst (streamSpeech call text rc w))) =
        callSteps call (trace w) ++ [Try rc text])
   \/
   (inflight (fst (streamSpeech call text rc w)) = inflight w /\
    snd (streamSpeech call text rc w) = Fulfilled /\
    callSteps call (trace (fst (streamSpeech call text rc w))) =
      callSteps call (trace w) ++
      Try rc text :: Failed :: (if rc <? 3 then [Rotated false] else []))).
Proof.
  rewrite streamSpeech_unfold. cbv zeta.
  assert (Hself : Nat.eqb call call = true) by apply Nat.eqb_refl.
  destruct (getApiKey (pool (emit _ w))) as [key|] eqn:K; cbn [fst snd].
  - split; [simpl; lia|]. split.
    + intros c Hc. simpl. rewrite <- app_assoc, callSteps_app. simpl.
      apply Nat.eqb_neq in Hc. rewrite (Nat.eqb_sym call c), Hc.
      now rewrite app_nil_r.
    + left. eexists. simpl. repeat split.
      rewrite <- app_assoc, callSteps_app. simpl. now rewrite Hself.
  - rewrite streamSpeechCatch_unfold. cbv zeta.
    set (w1 := emit (AConsoleError (TtsStreamError call)) (emit _ w)).
    assert (R : fst (rotateApiKey (pool w1)) = false)
      by (apply getApiKey_none_rotate; exact K).
    destruct (rc <? 3) eqn:Hrc.
    + rewrite R. split; [simpl; lia|]. split.
      * intros c Hc. simpl. rewrite <- !app_assoc, callSteps_app. simpl.
        apply Nat.eqb_neq in Hc. rewrite (Nat.eqb_sym call c), Hc.
        now rewrite app_nil_r.
      * right. simpl. repeat split.
        rewrite <- !app_assoc, callSteps_app. simpl. now rewrite Hself.
    + split; [simpl; lia|]. split.
      * intros c Hc. simpl. rewrite <- !app_assoc, callSteps_app. simpl.
        apply Nat.eqb_neq in Hc. rewrite (Nat.eqb_sym call c), Hc.
        now rewrite app_nil_r.
      * right. simpl. repeat split.
        rewrite <- !app_assoc, callSteps_app. simpl. now rewrite Hself.
Qed.

(** What the [catch] block does: below the ceiling and with a
    credential left, one retry for the same text is sent; otherwise
    nothing is. *)
Lemma streamSpeechCatch_effect call text rc w :
  fresh w <= fresh (streamSpeechCatch call text rc w) /\
  (forall c, c <> call ->
     callSteps c (trace (streamSpeechCatch call text rc w)) =
     callSteps c (trace w)) /\
  ((rc < 3 /\
    exists r,
      inflight (streamSpeechCatch call text rc w) = inflight w ++ [r] /\
      req_id r = fresh w /\ req_call r = call /\ req_text r = text /\
      req_retry r = S rc /\
      fresh (streamSpeechCatch call text rc w) = S (fresh w) /\
      callSteps call (trace (streamSpeechCatch call text rc w)) =
        callSteps call (trace w) ++
        [Failed; Rotated true; Try (S rc) text])
   \/
   (inflight (streamSpeechCatch call text rc w) = inflight w /\
    callSteps call (trace (streamSpeechCatch call text rc w)) =
      callSteps call (trace w) ++
      Failed :: (if rc <? 3 then [Rotated false] else []))).
Proof.
  rewrite streamSpeechCatch_unfold. cbv zeta.
  assert (Hself : Nat.eqb call call = true) by apply Nat.eqb_refl.
  set (w1 := emit (AConsoleError (TtsStreamError call)) w).
  assert (S1 : callSteps call (trace w1) = callSteps call (trace w) ++ [Failed]).
  { unfold w1. simpl. rewrite callSteps_snoc. simpl. now rewrite Hself. }
  assert (O1 : forall c, c <> call ->
                 callSteps c (trace w1) = callSteps c (trace w)).
  { intros c Hc. unfold w1. simpl. rewrite callSteps_snoc. simpl.
    apply Nat.eqb_neq in Hc. rewrite (Nat.eqb_sym call c), Hc.
    now rewrite app_nil_r. }
  destruct (rc <? 3) eqn:Hrc.
  2:{ split; [simpl; lia|]. split; [exact O1|]. right. now split. }
  apply Nat.ltb_lt in Hrc.
  set (r := rotateApiKey (pool w1)).
  set (w2 := emit (ARotate call (fst r)) (set_pool (snd r) w1)).
  assert (S2 : callSteps call (trace w2) =
               callSteps call (trace w) ++ [Failed; Rotated (fst r)]).
  { unfold w2. simpl. change (trace w ++ _) with (trace w1).
    rewrite callSteps_snoc, S1. simpl. rewrite Hself.
    now rewrite <- app_assoc. }
  assert (O2 : forall c, c <> call ->
                 callSteps c (trace w2) = callSteps c (trace w)).
  { intros c Hc. unfold w2. simpl. change (trace w ++ _) with (trace w1).
    rewrite callSteps_snoc, (O1 c Hc). simpl.
    apply Nat.eqb_neq in Hc. rewrite (Nat.eqb_sym call c), Hc.
    now rewrite app_nil_r. }
  destruct (fst r) eqn:Hok.
  2:{ split; [simpl; lia|]. split; [exact O2|]. right. now split. }
  destruct (rotate_ok_current (pool w1) Hok) as [key K].
  destruct (streamSpeech_effect call text (S rc) w2) as (F & O & [Sent|Over]).
  2:{ exfalso. destruct Over as (_ & Ov & _).
      rewrite streamSpeech_unfold in Ov. cbv zeta in Ov.
      change (getApiKey (pool (emit (ACallStreamSpeech call text (S rc)) w2)))
        with (getApiKey (snd (rotateApiKey (pool w1)))) in Ov.
      rewrite K in Ov. discriminate Ov. }
  destruct Sent as (r' & I & Hid & Hc & Ht & Hr & Hf & _ & St).
  split; [change (fresh w) with (fresh w2); exact F|]. split.
  { intros c Hc'. rewrite (O c Hc'). now apply O2. }
  left. split; [exact Hrc|]. exists r'.
  change (inflight w) with (inflight w2). change (fresh w) with (fresh w2).
  repeat split; trivial.
  rewrite St, S2. now rewrite <- app_assoc.
Qed.

(* ================================================================== *)
(** ** The invariant of the calls *)





















(* ================================================================== *)
(** ** Retry policy and exhaustion *)








(* ================================================================== *)
(** ** The theorems at concrete inputs *)

(** Two frames of three samples each, the second arriving when the
    clock has moved by one sample only: it starts where the first
    ends. *)
Example two_frames_back_to_back :
  let w := run (mounted twoKeys) [EvHandleSpeak hi Running] in
  map (fun sc => (node_start (fst sc), duration (fst sc), snd sc))
      (starts (trace (run w [EvFrame 1 (Some pcmFrame);
                             EvTick (Qmake 1 24000);
                             EvFrame 1 (Some pcmFrame)]))) =
  [(0%Q, Qmake 3 24000, 0%Q);
   ((0 + Qmake 3 24000)%Q, Qmake 3 24000, Qmake 1 24000)].
Proof. vm_compute. reflexivity. Qed.



(** After the stop the request that was in flight fails: its retry is
    sent, but no frame is forwarded and the loop asks for no chunk. *)
Example stopped_session_still_retries :
  let w := run (mounted twoKeys)
               [EvHandleSpeak twoChunkText Running;
                EvFrame 1 (Some pcmFrame)] in
  skipn (length (trace (stopAudio w)))
        (trace (run (stopAudio w)
                    [EvFrame 1 (Some pcmFrame); EvError 1; EvEnded 2])) =
  [AConsoleError (TtsStreamError 0); ARotate 0 true;
   ACallStreamSpeech 0 firstChunk 1; ASend 3 [107; 50]%N firstChunk].
Proof. vm_compute. reflexivity. Qed.

Lemma scheduleChunk_decode_failure_isolated_witness :
  let w := run (mounted twoKeys) [EvHandleSpeak hi Running] in
  audioContextRef w <> None /\
  decode [33]%N = None /\
  snd (scheduleChunk [33]%N w) = None /\
  nextStartTimeRef (fst (scheduleChunk [33]%N w)) = nextStartTimeRef w /\
  sourcesRef (fst (scheduleChunk [33]%N w)) = sourcesRef w.
Proof.
  cbv zeta.
  assert (H1 : audioContextRef
                 (run (mounted twoKeys) [EvHandleSpeak hi Running]) <> None)
    by discriminate.
  assert (H2 : decode [33]%N = None) by reflexivity.
  split; [exact H1|]. split; [exact H2|].
  destruct (scheduleChunk_decode_failure_isolated _ [33]%N [] H1 H2)
    as (R & _ & N & S & _).
  split; [exact R|]. split; [exact N|exact S].
Defined.


(** With two credentials and a network that is down, a question is
    answered with the apology after one rotation that went through and
    one that did not. *)
Example dead_network_apology :
  let r := generateStreamResponse deadNetwork plainQuestion 0
                                  (startOfCall twoKeys) in
  snd r = Returned apology /\
  genSteps (g_trace (fst r)) =
    [Try 0 plainQuestion; Failed; Rotated true;
     Try 1 plainQuestion; Failed; Rotated false].
Proof. vm_compute. split; reflexivity. Qed.

(** With six credentials the ceiling comes first: five attempts. *)
Example dead_network_ceiling :
  let six := {| pool_keys := repeat [107%N] 6; pool_cursor := 0 |} in
  let r := generateStreamResponse deadNetwork plainQuestion 0
                                  (startOfCall six) in
  snd r = Returned apology /\
  attempts (genSteps (g_trace (fst r))) = 5 /\
  last (genSteps (g_trace (fst r))) Failed = Failed.
Proof. vm_compute. repeat split; reflexivity. Qed.

(** The same for a chunk: with five credentials and every request
    failing, the call makes four attempts and stops at the ceiling. *)
Example failing_chunk_ceiling :
  let five := {| pool_keys := repeat [107%N] 5; pool_cursor := 0 |} in
  let w := run (mounted five)
               [EvHandleSpeak hi Running; EvError 1; EvError 2; EvError 3;
                EvError 4] in
  callSteps 0 (trace w) =
    [Try 0 hi; Failed; Rotated true; Try 1 hi; Failed; Rotated true;
     Try 2 hi; Failed; Rotated true; Try 3 hi; Failed] /\
  inflight w = [].
Proof. vm_compute. split; reflexivity. Qed.

(** Credentials 1 and 2 fail, credential 3 answers: two rotations, and
    no credential is tried twice. *)
Example third_credential_answers :
  let r := generateStreamResponse thirdAnswers plainQuestion 0
                                  (startOfCall threeKeys) in
  snd r = Returned hi /\
  genSteps (g_trace (fst r)) =
    [Try 0 plainQuestion; Failed; Rotated true;
     Try 1 plainQuestion; Failed; Rotated true; Try 2 plainQuestion] /\
  sentKeys (g_trace (fst r)) = [[107; 49]; [107; 50]; [107; 51]]%N.
Proof. vm_compute. repeat split; reflexivity. Qed.

(** Stopping before any frame has arrived: from loading to idle, with
    nothing scheduled. *)
Example stop_before_first_frame :
  let w := run (mounted twoKeys) [EvHandleSpeak hi Running] in
  phase w = Loading /\
  phase (stopAudio w) = Idle /\
  sourcesRef (stopAudio w) = [] /\
  starts (trace (stopAudio w)) = [].
Proof. vm_compute. repeat split; reflexivity. Qed.

(** Without failures the chunks go out one after the other: the request
    for the second chunk is sent when the stream of the first has
    ended. *)
Example chunks_in_order :
  let w1 := run (mounted twoKeys) [EvHandleSpeak twoChunkText Running;
                                   EvFrame 1 (Some pcmFrame)] in
  let w2 := step w1 (EvClose 1) in
  map req_text (inflight w1) = [firstChunk] /\
  map req_text (inflight w2) = [secondChunk] /\
  phase w1 = Speaking.
Proof. vm_compute. repeat split; reflexivity. Qed.

(* ================================================================== *)
(** ** The cleaned text *)

Lemma Forall_dropWhile (P : char -> Prop) p s :
  Forall P s -> Forall P (dropWhile p s).
Proof.
  induction 1 as [|c s Hc Hs IH]; simpl; [constructor|].
  destruct (p c); [exact IH | now constructor].
Qed.

Lemma Forall_skipn_char (P : char -> Prop) n : forall s,
  Forall P s -> Forall P (skipn n s).
Proof.
  induction n as [|n IH]; intros s H; [exact H|].
  destruct s as [|c s]; [constructor|]. simpl. apply IH.
  now inversion H.
Qed.

Lemma Forall_firstn_char (P : char -> Prop) n : forall s,
  Forall P s -> Forall P (firstn n s).
Proof.
  induction n as [|n IH]; intros s H; [constructor|].
  destruct s as [|c s]; [constructor|]. simpl.
  inversion H; subst. constructor; [assumption | now apply IH].
Qed.

Lemma Forall_afterFence (P : char -> Prop) s : forall r,
  Forall P s -> afterFence s = Some r -> Forall P r.
Proof.
  induction s as [|c s IH]; intros r H E; [discriminate|].
  cbn [afterFence] in E.
  destruct (startsWith fence (c :: s)).
  - injection E as <-. exact (Forall_skipn_char P 3 (c :: s) H).
  - apply IH; [now inversion H | exact E].
Qed.

(** What is left of the code blocks is made of characters of the
    message. *)
Lemma Forall_removeCodeBlocks (P : char -> Prop) fuel : forall s,
  Forall P s -> Forall P (removeCodeBlocks fuel s).
Proof.
  induction fuel as [|fuel IH]; intros s H; [exact H|].
  destruct s as [|c s]; [constructor|].
  cbn [removeCodeBlocks].
  assert (Hs : Forall P s) by now inversion H.
  assert (Hc : P c) by now inversion H.
  destruct (startsWith fence (c :: s)).
  - destruct (afterFence (skipn 3 (c :: s))) as [rest|] eqn:E.
    + apply IH. eapply Forall_afterFence; [|exact E].
      now apply Forall_skipn_char.
    + constructor; [exact Hc | now apply IH].
  - constructor; [exact Hc | now apply IH].
Qed.

Lemma Forall_afterScheme (P : char -> Prop) s r :
  Forall P s -> afterScheme s = Some r -> Forall P r.
Proof.
  unfold afterScheme. intros H E.
  destruct (startsWith _ s).
  - injection E as <-. exact (Forall_skipn_char P 8 s H).
  - destruct (startsWith _ s); [|discriminate].
    injection E as <-. exact (Forall_skipn_char P 7 s H).
Qed.

(** The text with its links replaced is made of characters of the text
    and of the word that stands for a link. *)
Lemma Forall_replaceLinks (P : char -> Prop) fuel : forall s,
  Forall P linkWord -> Forall P s -> Forall P (replaceLinks fuel s).
Proof.
  induction fuel as [|fuel IH]; intros s HL H; [exact H|].
  destruct s as [|c s]; [constructor|].
  cbn [replaceLinks].
  assert (Hs : Forall P s) by now inversion H.
  assert (Hc : P c) by now inversion H.
  destruct (afterScheme (c :: s)) as [[|d rest]|] eqn:E;
    try (constructor; [exact Hc | now apply IH]).
  destruct (isWhiteSpace d); [constructor; [exact Hc | now apply IH]|].
  apply Forall_app. split; [exact HL|].
  apply IH; [exact HL|]. apply Forall_dropWhile.
  pose proof (Forall_afterScheme P _ _ H E) as H'. now inversion H'.
Qed.

(** The two modules name the same function. *)
Lemma JS_dropWhile_eq : JS.dropWhile = Splitter.dropWhile.
Proof. reflexivity. Qed.

Lemma Forall_rev_char (P : char -> Prop) s : Forall P s -> Forall P (rev s).
Proof.
  intros H. apply Forall_forall. intros x Hx. apply in_rev in Hx.
  rewrite Forall_forall in H. now apply H.
Qed.

Lemma Forall_trim (P : char -> Prop) s : Forall P s -> Forall P (trim s).
Proof.
  intros H. unfold trim. rewrite JS_dropWhile_eq.
  now apply Forall_rev_char, Forall_dropWhile, Forall_rev_char,
            Forall_dropWhile.
Qed.

Lemma dropWhile_head p s : forall c r, dropWhile p s = c :: r -> p c = false.
Proof.
  induction s as [|x s IH]; intros c r E; simpl in E; [discriminate|].
  destruct (p x) eqn:Hx; [now apply (IH c r)|].
  now injection E as <- _.
Qed.

Lemma dropWhile_snoc_keep p c : forall l,
  p c = false -> exists l', dropWhile p (l ++ [c]) = l' ++ [c].
Proof.
  induction l as [|x l IH]; intros Hc; simpl.
  - rewrite Hc. now exists [].
  - destruct (p x); [now apply IH|]. now exists (x :: l).
Qed.

Lemma trim_startsClean s : startsClean (trim s).
Proof.
  unfold trim. rewrite JS_dropWhile_eq.
  destruct (dropWhile isWhiteSpace s) as [|c u] eqn:E; [exact I|].
  pose proof (dropWhile_head _ _ _ _ E) as Hc.
  simpl rev. destruct (dropWhile_snoc_keep isWhiteSpace c (rev u) Hc)
    as [l' ->].
  rewrite rev_app_distr. simpl. exact Hc.
Qed.

Lemma trim_endsClean s : endsClean (trim s).
Proof.
  unfold endsClean, trim. rewrite rev_involutive, JS_dropWhile_eq.
  destruct (dropWhile isWhiteSpace (rev (dropWhile isWhiteSpace s)))
    as [|c u] eqn:E; [exact I|].
  exact (dropWhile_head _ _ _ _ E).
Qed.

Lemma firstn_short {A : Type} n (l : list A) :
  length (firstn n l) < n -> firstn n l = l.
Proof.
  intros H. rewrite length_firstn in H.
  apply firstn_all2. lia.
Qed.

(** X1.  The text handed to the splitter is at most 2000 code units
    long, has none of the characters [*], [#], backtick, [_] and [-],
    and does not begin with white space; when it is shorter than the
    limit it does not end with white space either. *)
Theorem cleanMessage_shape (text : jsstring) :
  length (cleanMessage text) <= maxSpokenLength /\
  Forall (fun c => isMarkup c = false) (cleanMessage text) /\
  startsClean (cleanMessage text) /\
  (length (cleanMessage text) < maxSpokenLength ->
   endsClean (cleanMessage text)).
Proof.
  unfold cleanMessage. cbv zeta.
  set (noLinks := replaceLinks _ _).
  split; [apply firstn_le_length|]. split; [|split].
  - apply Forall_firstn_char, Forall_trim.
    apply Forall_replaceLinks; [now repeat constructor|].
    unfold replaceMarkup. apply Forall_forall. intros c Hc.
    apply in_map_iff in Hc as (x & <- & _).
    destruct (isMarkup x) eqn:E; [reflexivity | exact E].
  - pose proof (trim_startsClean noLinks) as H.
    destruct (trim noLinks); [exact I | exact H].
  - intros H. rewrite (firstn_short _ _ H). apply trim_endsClean.
Qed.

Lemma cleanMessage_shape_witness :
  length (cleanMessage hi) < maxSpokenLength /\ endsClean (cleanMessage hi).
Proof.
  assert (H : length (cleanMessage hi) < maxSpokenLength)
    by (vm_compute; repeat constructor).
  split; [exact H|].
  exact (proj2 (proj2 (proj2 (cleanMessage_shape hi))) H).
Defined.

(** A message of white space and markup characters only has nothing to
    speak. *)
Lemma replaceLinks_blank fuel : forall s,
  forallb isWhiteSpace s = true -> replaceLinks fuel s = s.
Proof.
  induction fuel as [|fuel IH]; intros s H; [reflexivity|].
  destruct s as [|c s]; [reflexivity|].
  cbn [forallb] in H. apply andb_prop in H as [Hc Hs].
  cbn [replaceLinks].
  assert (E : afterScheme (c :: s) = None).
  { unfold afterScheme. cbn [startsWith].
    assert (Hh : char_eqb 104%N c = false).
    { unfold char_eqb. destruct (N.eqb_spec 104%N c) as [<-|]; [|reflexivity].
      discriminate Hc. }
    now rewrite Hh. }
  rewrite E. f_equal. now apply IH.
Qed.

Lemma trim_blank s : forallb isWhiteSpace s = true -> trim s = [].
Proof.
  intros H. unfold trim. rewrite JS_dropWhile_eq.
  assert (E : dropWhile isWhiteSpace s = []).
  { induction s as [|c s IH]; [reflexivity|].
    cbn [forallb] in H. apply andb_prop in H as [Hc Hs].
    simpl. rewrite Hc. now apply IH. }
  now rewrite E.
Qed.

Lemma cleanMessage_blank text :
  forallb (fun c => isWhiteSpace c || isMarkup c)%bool text = true ->
  cleanMessage text = [].
Proof.
  intros H. unfold cleanMessage. cbv zeta.
  assert (H1 : Forall (fun c => (isWhiteSpace c || isMarkup c)%bool = true)
                      (removeCodeBlocks (length text) text)).
  { apply Forall_removeCodeBlocks. apply Forall_forall.
    now apply forallb_forall. }
  assert (H2 : forallb isWhiteSpace
                 (replaceMarkup (removeCodeBlocks (length text) text)) = true).
  { unfold replaceMarkup. apply forallb_forall. intros c Hc.
    apply in_map_iff in Hc as (x & <- & Hx).
    rewrite Forall_forall in H1. specialize (H1 x Hx).
    destruct (isMarkup x); [reflexivity|].
    now rewrite orb_false_r in H1. }
  rewrite replaceLinks_blank by exact H2.
  now rewrite trim_blank.
Qed.

(* ================================================================== *)
(** ** The fuel of the replacements *)

Lemma afterFence_length s : forall r,
  afterFence s = Some r -> length r <= length s.
Proof.
  induction s as [|c s IH]; intros r E; [discriminate|].
  cbn [afterFence] in E. destruct (startsWith fence (c :: s)).
  - injection E as <-. change (length (skipn 3 (c :: s)) <= length (c :: s)).
    rewrite length_skipn. lia.
  - specialize (IH r E). simpl. lia.
Qed.

(** The fuel [cleanMessage] gives to [removeCodeBlocks] is enough: more
    of it changes nothing. *)
Lemma removeCodeBlocks_enough fuel : forall fuel' s,
  length s <= fuel -> length s <= fuel' ->
  removeCodeBlocks fuel s = removeCodeBlocks fuel' s.
Proof.
  induction fuel as [|fuel IH]; intros fuel' s Hs Hs'.
  - destruct s; [now destruct fuel' | simpl in Hs; lia].
  - destruct s as [|c s]; [now destruct fuel'|].
    destruct fuel' as [|fuel']; [simpl in Hs'; lia|].
    cbn [removeCodeBlocks]. simpl in Hs, Hs'.
    destruct (startsWith fence (c :: s)).
    + destruct (afterFence (skipn 3 (c :: s))) as [rest|] eqn:E.
      * apply afterFence_length in E. rewrite length_skipn in E.
        simpl in E. apply IH; lia.
      * f_equal. apply IH; lia.
    + f_equal. apply IH; lia.
Qed.

Lemma afterScheme_length s r :
  afterScheme s = Some r -> length r <= length s.
Proof.
  unfold afterScheme. intros E.
  destruct (startsWith _ s).
  - injection E as <-. change (length (skipn 8 s) <= length s).
    rewrite length_skipn. lia.
  - destruct (startsWith _ s); [|discriminate].
    injection E as <-. change (length (skipn 7 s) <= length s).
    rewrite length_skipn. lia.
Qed.

Lemma afterScheme_shorter c s r :
  afterScheme (c :: s) = Some r -> length r <= length s.
Proof.
  unfold afterScheme. intros E.
  destruct (startsWith _ (c :: s)).
  - injection E as <-. change (length (skipn 7 s) <= length s).
    rewrite length_skipn. lia.
  - destruct (startsWith _ (c :: s)); [|discriminate].
    injection E as <-. change (length (skipn 6 s) <= length s).
    rewrite length_skipn. lia.
Qed.

(** The same for [replaceLinks]. *)
Lemma replaceLinks_enough fuel : forall fuel' s,
  length s <= fuel -> length s <= fuel' ->
  replaceLinks fuel s = replaceLinks fuel' s.
Proof.
  induction fuel as [|fuel IH]; intros fuel' s Hs Hs'.
  - destruct s; [now destruct fuel' | simpl in Hs; lia].
  - destruct s as [|c s]; [now destruct fuel'|].
    destruct fuel' as [|fuel']; [simpl in Hs'; lia|].
    cbn [replaceLinks]. simpl in Hs, Hs'.
    destruct (afterScheme (c :: s)) as [[|d rest]|] eqn:E;
      try (f_equal; apply IH; lia).
    destruct (isWhiteSpace d); [f_equal; apply IH; lia|].
    f_equal. apply afterScheme_shorter in E. simpl in E.
    pose proof (dropWhile_length (fun x => negb (isWhiteSpace x)) rest).
    apply IH; lia.
Qed.

(* ================================================================== *)
(** ** More on sentences and chunks *)

Lemma take_drop p s : takeWhile p s ++ dropWhile p s = s.
Proof.
  induction s as [|c s IH]; simpl; [reflexivity|].
  destruct (p c); simpl; [now rewrite IH | reflexivity].
Qed.

Lemma takeWhile_all p s : forallb p (takeWhile p s) = true.
Proof.
  induction s as [|c s IH]; simpl; [reflexivity|].
  destruct (p c) eqn:E; simpl; [now rewrite E | reflexivity].
Qed.

Lemma firstn_minus_suffix (a r : jsstring) :
  firstn (length (a ++ r) - length r) (a ++ r) = a.
Proof.
  rewrite length_app.
  replace (length a + length r - length r) with (length a + 0) by lia.
  rewrite firstn_app_2. simpl. apply app_nil_r.
Qed.

(** What the pattern matches at a non-delimiter, written with the two
    runs. *)
Lemma match_runs c s :
  let r := dropWhile isDelim (dropWhile notDelim s) in
  firstn (length (c :: s) - length r) (c :: s) =
  (c :: takeWhile notDelim s) ++ takeWhile isDelim (dropWhile notDelim s).
Proof.
  cbv zeta.
  set (a := takeWhile notDelim s).
  set (b := takeWhile isDelim (dropWhile notDelim s)).
  set (r := dropWhile isDelim (dropWhile notDelim s)).
  assert (E : c :: s = ((c :: a) ++ b) ++ r).
  { unfold a, b, r. rewrite <- app_assoc. simpl.
    now rewrite take_drop, take_drop. }
  rewrite E at 1 2. apply firstn_minus_suffix.
Qed.

Lemma matchAll_shape fuel : forall s,
  matchAll fuel s = [] \/
  exists init lst,
    matchAll fuel s = init ++ [lst] /\
    Forall terminated init /\ sentenceShape lst.
Proof.
  induction fuel as [|fuel IH]; intros s; [now left|].
  destruct s as [|c s]; [now left|].
  cbn [matchAll]. destruct (isDelim c) eqn:Hc.
  - rewrite sentenceRe_delim by assumption. apply IH.
  - assert (Hn : notDelim c = true) by (unfold notDelim; now rewrite Hc).
    rewrite sentenceRe_notDelim by assumption.
    rewrite match_runs.
    set (a := takeWhile notDelim s).
    set (b := takeWhile isDelim (dropWhile notDelim s)).
    set (r := dropWhile isDelim (dropWhile notDelim s)).
    assert (Ha : forallb notDelim (c :: a) = true).
    { simpl. rewrite Hn. apply takeWhile_all. }
    assert (Hb : forallb isDelim b = true) by apply takeWhile_all.
    right. destruct (IH r) as [E|(init & lst & E & Hi & Hl)].
    + exists [], ((c :: a) ++ b). rewrite E. split; [reflexivity|].
      split; [constructor|]. exists (c :: a), b.
      repeat split; trivial. discriminate.
    + exists (((c :: a) ++ b) :: init), lst. rewrite E.
      split; [reflexivity|]. split; [|exact Hl].
      constructor; [|exact Hi].
      exists (c :: a), b. repeat split; trivial; [discriminate|].
      intros Eb.
      assert (Er : r = []).
      { unfold r, b in *.
        destruct (dropWhile notDelim s) as [|d t] eqn:D; [reflexivity|].
        pose proof (dropWhile_notDelim_head _ _ _ D) as Hd.
        simpl in Eb. rewrite Hd in Eb. discriminate. }
      rewrite Er in E. destruct fuel; simpl in E;
        destruct init; discriminate.
Qed.

(** X2.  Every sentence but the last is a run of non-delimiters, not
    empty, followed by a run of delimiters, not empty; the last is such
    a run of non-delimiters with or without delimiters after it, or,
    when the text has delimiters only, the whole text. *)
Theorem sentences_shape (T : jsstring) :
  exists init lst,
    sentences T = init ++ [lst] /\
    Forall terminated init /\
    (sentenceShape lst \/ (lst = T /\ forallb isDelim T = true)).
Proof.
  unfold sentences.
  destruct (matchAll_shape (length T) T) as [E|(init & lst & E & Hi & Hl)].
  - rewrite E. exists [], T. split; [reflexivity|]. split; [constructor|].
    right. split; [reflexivity|].
    rewrite forallb_dropWhile.
    now rewrite (matchAll_nil _ _ (le_n _) E).
  - rewrite E. exists init, lst.
    destruct (init ++ [lst]) eqn:D; [destruct init; discriminate|].
    rewrite <- D. split; [reflexivity|]. split; [exact Hi|]. now left.
Qed.

Lemma fold_packStep_fits ss : forall temp,
  length temp + length (concat ss) <= maxChunkLen ->
  fold_left packStep ss ([], temp) = ([], temp ++ concat ss).
Proof.
  induction ss as [|x ss IH]; intros temp H; simpl.
  - now rewrite app_nil_r.
  - simpl in H. rewrite length_app in H.
    assert (E : (maxChunkLen <? length temp + length x) = false)
      by (apply Nat.ltb_ge; lia).
    rewrite E, IH by (rewrite length_app; lia).
    now rewrite app_assoc.
Qed.

Lemma concat_sentences_length T : length (concat (sentences T)) <= length T.
Proof.
  rewrite concat_sentences.
  pose proof (dropWhile_length isDelim T) as H.
  destruct (dropWhile isDelim T); [lia | exact H].
Qed.

Lemma concat_sentences_truthy T : T <> [] -> concat (sentences T) <> [].
Proof.
  intros H. rewrite concat_sentences.
  destruct (dropWhile isDelim T); [exact H | discriminate].
Qed.

(** X3.  A text that is not empty and at most 200 code units long goes
    out as one chunk: the text itself, without its leading delimiters
    unless it has nothing else. *)
Theorem short_text_single_chunk (T : jsstring) :
  T <> [] -> length T <= maxChunkLen ->
  segment T = [match dropWhile isDelim T with [] => T | kept => kept end].
Proof.
  intros Hne Hlen. unfold segment, pack, packLoop.
  pose proof (concat_sentences_length T) as H1.
  rewrite fold_packStep_fits by (simpl; lia). simpl.
  pose proof (concat_sentences_truthy T Hne) as H2.
  rewrite <- concat_sentences.
  destruct (concat (sentences T)); [contradiction | reflexivity].
Qed.

Lemma short_text_single_chunk_witness :
  hi <> [] /\ length hi <= maxChunkLen /\ segment hi = [hi].
Proof.
  assert (H1 : hi <> []) by discriminate.
  assert (H2 : length hi <= maxChunkLen)
    by (vm_compute; repeat constructor).
  split; [exact H1|]. split; [exact H2|].
  exact (short_text_single_chunk hi H1 H2).
Defined.

(** The state of the packing loop over sentences none of which is
    empty: nothing pushed yet, or a first chunk and after it chunks and
    an accumulator that are not empty. *)
Lemma fold_packStep_nonempty ss : forall chunks temp chunks' temp',
  Forall (fun s => s <> []) ss ->
  (chunks = [] \/
   exists c0 cs, chunks = c0 :: cs /\ Forall (fun c => c <> []) cs /\
                 temp <> []) ->
  fold_left packStep ss (chunks, temp) = (chunks', temp') ->
  chunks' = [] \/
  exists c0 cs, chunks' = c0 :: cs /\ Forall (fun c => c <> []) cs /\
                temp' <> [].
Proof.
  induction ss as [|x ss IH]; intros chunks temp chunks' temp' Hss H E.
  - simpl in E. injection E as <- <-. exact H.
  - inversion Hss as [|? ? Hx Hss']; subst.
    cbn [fold_left packStep] in E.
    destruct (maxChunkLen <? length temp + length x).
    + apply (IH _ _ _ _ Hss') in E; [exact E|]. right.
      destruct H as [->|(c0 & cs & -> & Hcs & Ht)].
      * exists temp, []. repeat split; trivial.
      * exists c0, (cs ++ [temp]). repeat split; trivial.
        apply Forall_app. split; [exact Hcs|]. now constructor.
    + apply (IH _ _ _ _ Hss') in E; [exact E|].
      destruct H as [->|(c0 & cs & -> & Hcs & Ht)]; [now left|].
      right. exists c0, cs. repeat split; trivial.
      destruct temp; [contradiction | discriminate].
Qed.

Lemma sentences_nonempty T : T <> [] -> Forall (fun s => s <> []) (sentences T).
Proof.
  intros H. unfold sentences.
  destruct (matchAll (length T) T) as [|m ms] eqn:E.
  - now repeat constructor.
  - rewrite <- E. apply Forall_forall. intros s Hs ->.
    now apply (matchAll_no_empty (length T) T).
Qed.

Lemma fold_packStep_first ss : forall acc chunks temp,
  acc <> [] ->
  fold_left packStep ss ([], acc) = (chunks, temp) ->
  (chunks = [] /\ temp <> []) \/ exists c0 cs, chunks = c0 :: cs /\ c0 <> [].
Proof.
  induction ss as [|x ss IH]; intros acc chunks temp Hacc E.
  - simpl in E. injection E as <- <-. now left.
  - cbn [fold_left packStep] in E.
    destruct (maxChunkLen <? length acc + length x).
    + right. destruct (fold_packStep_head ss acc [] x) as [cs' Hh].
      simpl app in E. rewrite E in Hh. simpl in Hh.
      exists acc, cs'. now split.
    + apply (IH (acc ++ x)); [|exact E].
      destruct acc; [contradiction | discriminate].
Qed.

Lemma pack_first_empty ss :
  Forall (fun s => s <> []) ss ->
  forall rest, pack ss = [] :: rest ->
  exists s ss', ss = s :: ss' /\ maxChunkLen < length s.
Proof.
  intros Hss rest E. destruct ss as [|s ss'].
  - discriminate E.
  - exists s, ss'. split; [reflexivity|].
    destruct (Nat.ltb_spec maxChunkLen (length s)) as [H|H]; [exact H|].
    exfalso. inversion Hss as [|? ? Hs Hss']; subst.
    unfold pack, packLoop in E. cbn [fold_left packStep] in E.
    assert (F : (maxChunkLen <? length (@nil char) + length s) = false)
      by (apply Nat.ltb_ge; simpl; lia).
    rewrite F in E. simpl app in E.
    pose proof (fold_packStep_first ss' s) as Hst.
    match type of E with
    | context [fold_left packStep ss' ?i] =>
        destruct (fold_left packStep ss' i) as [chunks temp]
    end.
    destruct (Hst chunks temp Hs eq_refl) as [[-> Ht]|(c0 & cs & -> & Hc0)].
    + destruct temp as [|c temp]; [contradiction|].
      simpl in E. discriminate E.
    + destruct (truthy temp); simpl in E; injection E as E1 _;
        now apply Hc0.
Qed.

(** X4.  In the chunk sequence of a text that is not empty, no chunk
    after the first is empty, and the first is empty exactly when the
    first sentence is longer than 200 code units. *)
Theorem empty_chunk_only_first (T : jsstring) :
  T <> [] ->
  Forall (fun c => c <> []) (tl (segment T)) /\
  (hd_error (segment T) = Some [] <->
   exists s, hd_error (sentences T) = Some s /\ maxChunkLen < length s).
Proof.
  intros Hne. pose proof (sentences_nonempty T Hne) as Hss. split.
  - unfold segment, pack, packLoop.
    match goal with
    | |- context [fold_left packStep ?l ?i] =>
        destruct (fold_left packStep l i) as [chunks temp] eqn:E
    end.
    pose proof (fold_packStep_nonempty _ _ _ _ _ Hss (or_introl eq_refl) E)
      as Hst.
    destruct Hst as [->|(c0 & cs & -> & Hcs & Ht)].
    + destruct (truthy temp); simpl; constructor.
    + destruct temp as [|c temp]; [contradiction|]. simpl.
      apply Forall_app. split; [exact Hcs|]. constructor; [discriminate|].
      constructor.
  - split.
    + intros H. unfold segment in H.
      destruct (pack (sentences T)) as [|c0 rest] eqn:E; [discriminate|].
      injection H as ->.
      destruct (pack_first_empty (sentences T) Hss rest E)
        as (s & ss' & Es & Hs).
      exists s. rewrite Es. now split.
    + intros (s & Hs & Hlen). unfold segment.
      destruct (sentences T) as [|s' ss]; [discriminate|].
      injection Hs as ->.
      destruct (pack_overlong_first s ss Hlen) as [rest Hr].
      exact (f_equal (@hd_error _) Hr).
Qed.

Lemma empty_chunk_only_first_witness :
  longSentenceText <> [] /\
  Forall (fun c => c <> []) (tl (segment longSentenceText)) /\
  hd_error (segment longSentenceText) = Some [].
Proof.
  assert (H : longSentenceText <> []) by discriminate.
  split; [exact H|].
  destruct (empty_chunk_only_first longSentenceText H) as [H1 H2].
  split; [exact H1|]. apply H2.
  exists longSentence. split; [vm_compute; reflexivity|].
  vm_compute. repeat constructor.
Defined.

Lemma neighboursOverflow_tl c l :
  neighboursOverflow (c :: l) -> neighboursOverflow l.
Proof. destruct l as [|c2 l]; [trivial|]. now intros [_ H]. Qed.

Lemma neighboursOverflow_snoc l : forall a b,
  neighboursOverflow (l ++ [a]) -> maxChunkLen < length a + length b ->
  neighboursOverflow (l ++ [a; b]).
Proof.
  induction l as [|c l IH]; intros a b H Hab.
  - simpl. now split.
  - destruct l as [|c2 l].
    + simpl in *. destruct H as [H _]. repeat split; trivial.
    + cbn [app neighboursOverflow] in *. destruct H as [H1 H2].
      split; [exact H1|]. now apply IH.
Qed.

Lemma neighboursOverflow_grow l : forall a x,
  neighboursOverflow (l ++ [a]) -> neighboursOverflow (l ++ [a ++ x]).
Proof.
  induction l as [|c l IH]; intros a x H.
  - exact Logic.I.
  - destruct l as [|c2 l].
    + simpl in *. destruct H as [H _]. split; [|trivial].
      rewrite length_app. lia.
    + cbn [app neighboursOverflow] in *. destruct H as [H1 H2].
      split; [exact H1|]. now apply IH.
Qed.

Lemma neighboursOverflow_init l : forall a,
  neighboursOverflow (l ++ [a]) -> neighboursOverflow l.
Proof.
  induction l as [|c l IH]; intros a H; [exact Logic.I|].
  destruct l as [|c2 l]; [exact Logic.I|].
  cbn [app neighboursOverflow] in *. destruct H as [H1 H2].
  split; [exact H1|]. now apply (IH a).
Qed.

Lemma fold_packStep_overflow ss : forall chunks temp chunks' temp',
  neighboursOverflow (chunks ++ [temp]) ->
  fold_left packStep ss (chunks, temp) = (chunks', temp') ->
  neighboursOverflow (chunks' ++ [temp']).
Proof.
  induction ss as [|x ss IH]; intros chunks temp chunks' temp' H E.
  - simpl in E. injection E as <- <-. exact H.
  - cbn [fold_left packStep] in E.
    destruct (maxChunkLen <? length temp + length x) eqn:O.
    + apply (IH _ _ _ _) in E; [exact E|].
      rewrite <- app_assoc. apply neighboursOverflow_snoc; [exact H|].
      now apply Nat.ltb_lt.
    + apply (IH _ _ _ _) in E; [exact E|].
      now apply neighboursOverflow_grow.
Qed.

Lemma pack_overflow ss : neighboursOverflow (pack ss).
Proof.
  unfold pack, packLoop.
  match goal with
  | |- context [fold_left packStep ?l ?i] =>
      destruct (fold_left packStep l i) as [chunks temp] eqn:E
  end.
  apply fold_packStep_overflow in E; [|exact Logic.I].
  destruct (truthy temp); [exact E|].
  now apply (neighboursOverflow_init chunks temp).
Qed.

(** Chunks whose neighbours overflow: every two of them hold more than
    200 code units. *)
Lemma neighboursOverflow_length k : forall l,
  neighboursOverflow l -> 2 * k <= length l ->
  S maxChunkLen * k <= length (concat l).
Proof.
  induction k as [|k IH]; intros l H Hk; [lia|].
  destruct l as [|c1 [|c2 l]]; simpl in Hk; try lia.
  assert (H2 : neighboursOverflow l)
    by (apply (neighboursOverflow_tl c2); now destruct H).
  destruct H as [H1 _].
  specialize (IH l H2). cbn [concat]. rewrite !length_app.
  assert (2 * k <= length l) as Hl by lia. specialize (IH Hl). lia.
Qed.

Lemma concat_segment_length T : length (concat (segment T)) <= length T.
Proof.
  rewrite concat_segment.
  pose proof (dropWhile_length isDelim T) as H.
  destruct (dropWhile isDelim T); [lia | exact H].
Qed.

(** X5.  The packing is greedy: any two neighbouring chunks together
    are longer than 200 code units, so a text of [n] code units makes
    fewer than [2 * (n / 201) + 2] chunks. *)
Theorem chunks_neighbours_overflow (T : jsstring) :
  neighboursOverflow (segment T) /\
  length (segment T) <= 2 * (length T / S maxChunkLen) + 1.
Proof.
  pose proof (pack_overflow (sentences T)) as H. fold (segment T) in H.
  split; [exact H|].
  pose proof (neighboursOverflow_length (length (segment T) / 2) (segment T) H)
    as Hk.
  pose proof (Nat.div_mod_eq (length (segment T)) 2) as D.
  pose proof (Nat.mod_upper_bound (length (segment T)) 2) as M.
  assert (Hle : 2 * (length (segment T) / 2) <= length (segment T)) by lia.
  specialize (Hk Hle).
  pose proof (concat_segment_length T) as Hc.
  assert (Hq : length (segment T) / 2 <= length T / S maxChunkLen).
  { apply Nat.div_le_lower_bound; [discriminate | lia]. }
  lia.
Qed.

Lemma cleanMessage_length text : length (cleanMessage text) <= maxSpokenLength.
Proof. unfold cleanMessage. cbv zeta. apply firstn_le_length. Qed.

(** X6.  One activation of the speaker makes at most 19 chunks, whatever
    the message: the cleaned text has at most 2000 code units. *)
Theorem cleaned_message_chunk_count (text : jsstring) :
  length (segment (cleanMessage text)) <= 19.
Proof.
  pose proof (pack_overflow (sentences (cleanMessage text))) as H.
  fold (segment (cleanMessage text)) in H.
  destruct (Nat.le_gt_cases (length (segment (cleanMessage text))) 19)
    as [Hle|Hgt]; [exact Hle | exfalso].
  pose proof (neighboursOverflow_length 10 _ H) as Hk.
  assert (H20 : 2 * 10 <= length (segment (cleanMessage text))) by lia.
  specialize (Hk H20).
  pose proof (concat_segment_length (cleanMessage text)) as Hc.
  pose proof (cleanMessage_length text) as Hm.
  unfold maxChunkLen, maxSpokenLength in *. lia.
Qed.

(* ================================================================== *)
(** ** Decoding and scheduling, further properties *)

Lemma sextet_bound c v : sextet c = Some v -> (v < 64)%N.
Proof.
  unfold sextet. intros H.
  destruct ((65 <=? c) && (c <=? 90))%N%bool eqn:E1.
  { apply andb_prop in E1 as [A B]. apply N.leb_le in A, B.
    injection H as <-. lia. }
  destruct ((97 <=? c) && (c <=? 122))%N%bool eqn:E2.
  { apply andb_prop in E2 as [A B]. apply N.leb_le in A, B.
    injection H as <-. lia. }
  destruct ((48 <=? c) && (c <=? 57))%N%bool eqn:E3.
  { apply andb_prop in E3 as [A B]. apply N.leb_le in A, B.
    injection H as <-. lia. }
  destruct (N.eqb c 43); [injection H as <-; lia|].
  destruct (N.eqb c 47); [injection H as <-; lia | discriminate].
Qed.

Lemma sextets_bound s : forall l,
  sextets s = Some l -> Forall (fun v => (v < 64)%N) l.
Proof.
  induction s as [|c s IH]; intros l H; simpl in H.
  - injection H as <-. constructor.
  - destruct (sextet c) as [v|] eqn:Ev; [|discriminate].
    destruct (sextets s) as [vs|]; [|discriminate].
    injection H as <-. constructor; [now apply (sextet_bound c) | now apply IH].
Qed.

Lemma bytesOfSextets_bound_upto n : forall l,
  length l <= n -> Forall (fun v => (v < 64)%N) l ->
  Forall (fun b => (b < 256)%N) (bytesOfSextets l).
Proof.
  induction n as [|n IH]; intros l Hn Hl.
  - destruct l; [constructor | simpl in Hn; lia].
  - destruct l as [|a [|b [|c [|d r]]]]; try solve [simpl; constructor].
    + (* two sextets *)
      inversion Hl as [|? ? Ha Hl1]; subst.
      inversion Hl1 as [|? ? Hb _]; subst.
      simpl. constructor; [|constructor].
      apply N.Div0.div_lt_upper_bound; lia.
    + (* three sextets *)
      inversion Hl as [|? ? Ha Hl1]; subst.
      inversion Hl1 as [|? ? Hb Hl2]; subst.
      inversion Hl2 as [|? ? Hc _]; subst.
      cbn [bytesOfSextets]. cbv zeta.
      constructor; [|constructor; [|constructor]].
      * apply N.Div0.div_lt_upper_bound.
        apply N.Div0.div_lt_upper_bound; lia.
      * apply N.mod_upper_bound. lia.
    + (* four sextets and the rest *)
      inversion Hl as [|? ? Ha Hl1]; subst.
      inversion Hl1 as [|? ? Hb Hl2]; subst.
      inversion Hl2 as [|? ? Hc Hl3]; subst.
      inversion Hl3 as [|? ? Hd Hr]; subst.
      cbn [bytesOfSextets]. cbv zeta.
      constructor; [|constructor; [|constructor]].
      * apply N.Div0.div_lt_upper_bound; lia.
      * apply N.mod_upper_bound. lia.
      * apply N.mod_upper_bound. lia.
      * apply IH; [simpl in Hn; lia | exact Hr].
Qed.

Lemma atob_bytes base64 bytes :
  atob base64 = Some bytes -> Forall (fun b => (b < 256)%N) bytes.
Proof.
  unfold atob. cbv zeta.
  match goal with |- context [stripPadding ?x] => generalize (stripPadding x) end.
  intros data H.
  destruct (Nat.eqb (length data mod 4) 1); [discriminate|].
  destruct (sextets data) as [l|] eqn:E; [|discriminate].
  injection H as <-.
  apply (bytesOfSextets_bound_upto (length l)); [lia|].
  now apply (sextets_bound data).
Qed.

Lemma toInt16_range lo hi :
  (lo < 256)%N -> (hi < 256)%N ->
  (-32768 <= toInt16 lo hi < 32768)%Z.
Proof.
  intros Hlo Hhi. unfold toInt16. cbv zeta.
  destruct (Z.ltb_spec (Z.of_N (lo + 256 * hi)) 32768); lia.
Qed.

Lemma int16Array_spec_upto n : forall bytes l,
  length bytes <= n ->
  Forall (fun b => (b < 256)%N) bytes ->
  int16Array bytes = Some l ->
  length bytes = 2 * length l /\
  Forall (fun v => (-32768 <= v < 32768)%Z) l.
Proof.
  induction n as [|n IH]; intros bytes l Hn Hb H.
  - destruct bytes; [|simpl in Hn; lia]. injection H as <-.
    split; [reflexivity | constructor].
  - destruct bytes as [|lo [|hi r]].
    + injection H as <-. split; [reflexivity | constructor].
    + discriminate.
    + cbn [int16Array] in H.
      inversion Hb as [|? ? Hlo Hb1]; subst.
      inversion Hb1 as [|? ? Hhi Hr]; subst.
      destruct (int16Array r) as [l'|] eqn:E; [|discriminate].
      injection H as <-.
      destruct (IH r l') as [E1 E2]; [simpl in Hn; lia | exact Hr | exact E |].
      split; [simpl; lia|].
      constructor; [now apply toInt16_range | exact E2].
Qed.

Lemma toFloat_range v :
  (-32768 <= v < 32768)%Z -> inUnitRange (toFloat v).
Proof.
  intros H. unfold inUnitRange, toFloat, Qle, Qlt. simpl. lia.
Qed.

(** X7.  A frame that decodes gives at least one sample, twice as many
    bytes as samples, and samples from -1 up to but not including 1. *)
Theorem decode_samples (base64 : jsstring) (float32 : list Q) :
  decode base64 = Some float32 ->
  float32 <> [] /\
  Forall inUnitRange float32 /\
  exists bytes, atob base64 = Some bytes /\
                length bytes = 2 * length float32.
Proof.
  unfold decode. intros H.
  destruct (atob base64) as [bytes|] eqn:Ea; [|discriminate].
  destruct (int16Array bytes) as [int16|] eqn:Ei; [|discriminate].
  destruct (int16Array_spec_upto (length bytes) bytes int16
              (le_n _) (atob_bytes _ _ Ea) Ei) as [Hlen Hrange].
  destruct (map toFloat int16) as [|q qs] eqn:Em; [discriminate|].
  injection H as <-. rewrite <- Em.
  split; [rewrite Em; discriminate|]. split.
  - apply Forall_forall. intros q' Hq. apply in_map_iff in Hq as (v & <- & Hv).
    apply toFloat_range. rewrite Forall_forall in Hrange. now apply Hrange.
  - exists bytes. split; [reflexivity|]. now rewrite length_map.
Qed.

Lemma decode_samples_witness :
  exists float32,
    decode pcmFrame = Some float32 /\ length float32 = 3 /\
    Forall inUnitRange float32.
Proof.
  eexists. split; [vm_compute; reflexivity|]. split; [reflexivity|].
  refine (proj1 (proj2 (decode_samples pcmFrame _ _))).
  vm_compute. reflexivity.
Defined.

(* ================================================================== *)
(** ** The player, further properties *)

Lemma emit_all_closed l : forall w,
  fold_left (fun w a => emit a w) l w =
  {| isSpeaking := isSpeaking w; isLoadingAudio := isLoadingAudio w;
     isSpeakingRef := isSpeakingRef w; audioContextRef := audioContextRef w;
     sourcesRef := sourcesRef w; nextStartTimeRef := nextStartTimeRef w;
     currentTime := currentTime w; pool := pool w; inflight := inflight w;
     tasks := tasks w; fresh := fresh w; trace := trace w ++ l |}.
Proof.
  induction l as [|a l IH]; intros w; simpl.
  - destruct w; simpl. now rewrite app_nil_r.
  - rewrite IH. simpl. now rewrite <- app_assoc.
Qed.

(** [stopAudio] in closed form. *)
Lemma stopAudio_closed w :
  stopAudio w =
  {| isSpeaking := false; isLoadingAudio := false; isSpeakingRef := false;
     audioContextRef := audioContextRef w; sourcesRef := [];
     nextStartTimeRef := 0%Q; currentTime := currentTime w; pool := pool w;
     inflight := inflight w; tasks := tasks w; fresh := fresh w;
     trace := trace w ++ map (fun n => AStop (node_id n)) (sourcesRef w) |}.
Proof.
  unfold stopAudio. cbv zeta.
  change (sourcesRef (set_isSpeakingRef false w)) with (sourcesRef w).
  rewrite stopAudio_fold, emit_all_closed. reflexivity.
Qed.

(** X8.  Stopping twice is stopping once: the second [stopAudio] finds
    no node to stop and changes nothing.  And a stop is local to the
    player: the audio context is neither closed nor suspended, the
    requests in flight stay open, the suspended activations stay
    suspended and the credential pool is as it was. *)
Theorem stopAudio_idempotent (w : World) :
  stopAudio (stopAudio w) = stopAudio w /\
  audioContextRef (stopAudio w) = audioContextRef w /\
  currentTime (stopAudio w) = currentTime w /\
  inflight (stopAudio w) = inflight w /\
  tasks (stopAudio w) = tasks w /\
  pool (stopAudio w) = pool w.
Proof.
  split.
  - rewrite (stopAudio_closed (stopAudio w)), (stopAudio_closed w). simpl.
    now rewrite app_nil_r.
  - rewrite stopAudio_closed. simpl. repeat split.
Qed.

(** X9.  A message of white space and markdown markers only (the empty
    message too) has nothing to speak: [handleSpeak] on the idle
    component sends nothing, makes no audio context and leaves the
    button idle; all it changes is the flag [isSpeakingRef], which it
    leaves set. *)
Theorem handleSpeak_nothing_to_speak
        (text : jsstring) (newCtx : CtxState) (w : World) :
  forallb isBlankOrMarkup text = true ->
  phase w = Idle ->
  cleanMessage text = [] /\
  handleSpeak text newCtx w = set_isSpeakingRef true w /\
  phase (handleSpeak text newCtx w) = Idle /\
  isSpeakingRef (handleSpeak text newCtx w) = true.
Proof.
  intros Hb Hp.
  assert (Hc : cleanMessage text = []) by now apply cleanMessage_blank.
  assert (Hl : isLoadingAudio w = false).
  { unfold phase in Hp. destruct (isLoadingAudio w); [discriminate|reflexivity]. }
  assert (Hs : isSpeaking w = false).
  { unfold phase in Hp. rewrite Hl in Hp.
    destruct (isSpeaking w); [discriminate|reflexivity]. }
  assert (E : handleSpeak text newCtx w = set_isSpeakingRef true w).
  { unfold handleSpeak. rewrite Hs, Hl. cbv zeta. rewrite Hc.
    destruct w; simpl in *. now subst. }
  split; [exact Hc|]. split; [exact E|]. rewrite E.
  split; [|reflexivity].
  unfold phase. simpl. now rewrite Hl, Hs.
Qed.

Lemma handleSpeak_nothing_to_speak_witness :
  forallb isBlankOrMarkup stars = true /\
  phase (mounted twoKeys) = Idle /\
  handleSpeak stars Running (mounted twoKeys) =
    set_isSpeakingRef true (mounted twoKeys).
Proof.
  assert (H1 : forallb isBlankOrMarkup stars = true) by reflexivity.
  assert (H2 : phase (mounted twoKeys) = Idle) by reflexivity.
  split; [exact H1|]. split; [exact H2|].
  exact (proj1 (proj2 (handleSpeak_nothing_to_speak
                         stars Running (mounted twoKeys) H1 H2))).
Defined.

(** X10.  When the only buffer left ends with the clock at or past the
    cursor, its [onended] handler ends the session: no active node,
    [isSpeaking] and [isSpeakingRef] clear.  The requests in flight and
    the suspended loop are left as they are, and for as long as
    [handleSpeak] is not invoked again no further frame is scheduled and
    the loop asks for no further chunk, whatever chunks it had left. *)
Theorem playback_underrun_ends_session
        (w : World) (n : Node) (events : list Event) :
  sourcesRef w = [n] ->
  started (node_id n) w = true ->
  Qle_bool (nextStartTimeRef w) (currentTime w) = true ->
  forallb notHandleSpeak events = true ->
  sourcesRef (step w (EvEnded (node_id n))) = [] /\
  isSpeaking (step w (EvEnded (node_id n))) = false /\
  isSpeakingRef (step w (EvEnded (node_id n))) = false /\
  inflight (step w (EvEnded (node_id n))) = inflight w /\
  tasks (step w (EvEnded (node_id n))) = tasks w /\
  isSpeakingRef (run (step w (EvEnded (node_id n))) events) = false /\
  extends lateAction (step w (EvEnded (node_id n)))
          (run (step w (EvEnded (node_id n))) events).
Proof.
  intros Hs Hst Hq Hev.
  assert (E : step w (EvEnded (node_id n)) =
              set_isSpeakingRef false
                (set_isSpeaking false (set_sourcesRef [] w))).
  { cbn [step]. rewrite Hst. unfold onended. cbv zeta. rewrite Hs.
    cbn [removeNode]. rewrite Nat.eqb_refl. cbn. now rewrite Hq. }
  rewrite E.
  split; [reflexivity|]. split; [reflexivity|]. split; [reflexivity|].
  split; [reflexivity|]. split; [reflexivity|].
  now apply run_cancelled.
Qed.

Lemma playback_underrun_ends_session_witness :
  exists n,
    sourcesRef firstFramePlayed = [n] /\
    tasks firstFramePlayed = [AwaitSpeech 1 [secondChunk]] /\
    extends lateAction
      (step firstFramePlayed (EvEnded (node_id n)))
      (run (step firstFramePlayed (EvEnded (node_id n))) [EvClose 1]).
Proof.
  eexists. split; [vm_compute; reflexivity|]. split; [vm_compute; reflexivity|].
  refine (proj2 (proj2 (proj2 (proj2 (proj2 (proj2
    (playback_underrun_ends_session firstFramePlayed _ [EvClose 1]
       _ _ _ _))))))); vm_compute; reflexivity.
Defined.

(* ================================================================== *)
(** ** The audio nodes over a run *)

Lemma stops_app l1 l2 : stops (l1 ++ l2) = stops l1 ++ stops l2.
Proof. unfold stops. apply flat_map_app. Qed.

Lemma startedIds_app l1 l2 :
  startedIds (l1 ++ l2) = startedIds l1 ++ startedIds l2.
Proof. unfold startedIds. now rewrite starts_app, map_app. Qed.

Lemma service_no_nodes l :
  Forall isServiceAction l -> startedIds l = [] /\ stops l = [].
Proof.
  induction 1 as [|a l Ha _ [IH1 IH2]]; [now split|].
  destruct a as [| | | | | |[]]; simpl in Ha; try contradiction;
    now split.
Qed.

Lemma nodesInv_same w w' :
  trace w' = trace w -> sourcesRef w' = sourcesRef w -> fresh w <= fresh w' ->
  nodesInv w -> nodesInv w'.
Proof.
  intros Et Es Ef (H1 & H2 & H3 & H4 & H5 & H6 & H7).
  unfold nodesInv. rewrite Et, Es. repeat split; trivial.
  intros id Hid. specialize (H7 id Hid). lia.
Qed.

Lemma nodesInv_quiet w w' added :
  trace w' = trace w ++ added -> startedIds added = [] -> stops added = [] ->
  sourcesRef w' = sourcesRef w -> fresh w <= fresh w' ->
  nodesInv w -> nodesInv w'.
Proof.
  intros Et S1 S2 Es Ef (H1 & H2 & H3 & H4 & H5 & H6 & H7).
  unfold nodesInv.
  rewrite Et, Es, startedIds_app, stops_app, S1, S2, !app_nil_r.
  repeat split; trivial.
  intros id Hid. specialize (H7 id Hid). lia.
Qed.

Lemma nodesInv_service w w' :
  sourcesRef w' = sourcesRef w -> extends isServiceAction w w' ->
  fresh w <= fresh w' ->
  nodesInv w -> nodesInv w'.
Proof.
  intros Es (added & Et & Ha) Ef.
  destruct (service_no_nodes added Ha) as [S1 S2].
  now apply (nodesInv_quiet w w' added).
Qed.

Lemma orchestrate_fresh chunks : forall w,
  fresh w <= fresh (orchestrate chunks w).
Proof.
  induction chunks as [|chunk rest IH]; intros w; cbn [orchestrate];
    [apply le_n|].
  destruct (negb (isSpeakingRef w)); [apply le_n|].
  destruct (streamSpeech_effect (fresh w) chunk 0 (set_fresh (S (fresh w)) w))
    as [F _].
  destruct (streamSpeech _ _ _ _) as [w1 promise]. cbn [fst snd] in *.
  simpl in F.
  destruct promise as [rid| |].
  - simpl. lia.
  - specialize (IH w1). lia.
  - simpl. lia.
Qed.

Lemma settle_fresh rid w : fresh w <= fresh (settle rid w).
Proof.
  unfold settle.
  destruct (find (awaits rid) (tasks w)) as [[text|r rest]|];
    try apply le_n.
  match goal with
  | |- _ <= fresh (orchestrate rest ?w1) =>
      exact (orchestrate_fresh rest w1)
  end.
Qed.

Lemma nodesInv_orchestrate chunks w :
  nodesInv w -> nodesInv (orchestrate chunks w).
Proof.
  destruct (orchestrate_frame chunks w) as [(_ & _ & S & _) E].
  apply nodesInv_service; [exact S | exact E | apply orchestrate_fresh].
Qed.

Lemma nodesInv_settle rid w : nodesInv w -> nodesInv (settle rid w).
Proof.
  destruct (settle_frame rid w) as [(_ & _ & S & _) E].
  apply nodesInv_service; [exact S | exact E | apply settle_fresh].
Qed.

Lemma nodesInv_streamSpeechCatch call text rc w :
  nodesInv w -> nodesInv (streamSpeechCatch call text rc w).
Proof.
  destruct (streamSpeechCatch_frame call text rc w) as [(_ & _ & S & _) E].
  destruct (streamSpeechCatch_effect call text rc w) as [F _].
  apply nodesInv_service; [exact S | | exact F].
  revert E. apply extends_weaken, svcAction_service.
Qed.

Lemma NoDup_app_disjoint {A : Type} (l1 l2 : list A) :
  NoDup l1 -> NoDup l2 -> (forall x, In x l2 -> ~ In x l1) ->
  NoDup (l1 ++ l2).
Proof.
  intros H1 H2 D. induction H1 as [|a l1 Ha H1 IH]; [exact H2|].
  simpl. constructor.
  - intros Hin. apply in_app_or in Hin as [Hin|Hin]; [now apply Ha|].
    apply (D a Hin). now left.
  - apply IH. intros x Hx Hin. apply (D x Hx). now right.
Qed.

Lemma stops_map_AStop (l : list Node) :
  stops (map (fun n => AStop (node_id n)) l) = map node_id l /\
  startedIds (map (fun n => AStop (node_id n)) l) = [].
Proof.
  induction l as [|n l [IH1 IH2]]; [now split|].
  split; simpl; [now rewrite IH1 | exact IH2].
Qed.

Lemma nodesInv_stopAudio w : nodesInv w -> nodesInv (stopAudio w).
Proof.
  intros (H1 & H2 & H3 & H4 & H5 & H6 & H7).
  rewrite stopAudio_closed. unfold nodesInv. cbn [trace sourcesRef fresh].
  destruct (stops_map_AStop (sourcesRef w)) as [S1 S2].
  rewrite startedIds_app, stops_app, S1, S2, app_nil_r.
  repeat split; trivial.
  - apply NoDup_app_disjoint; trivial.
  - constructor.
  - apply incl_app; assumption.
  - intros x [].
  - intros id [].
Qed.

Lemma nodesInv_scheduleChunk base64 w :
  nodesInv w -> nodesInv (fst (scheduleChunk base64 w)).
Proof.
  intros H. unfold scheduleChunk. cbv zeta.
  change (audioContextRef (emit (AScheduleChunk base64) w))
    with (audioContextRef w).
  destruct (audioContextRef w); cbn [fst].
  2:{ revert H.
      now apply (nodesInv_quiet w _ [AScheduleChunk base64]). }
  destruct (decode base64) as [float32|]; cbn [fst].
  2:{ revert H.
      apply (nodesInv_quiet w _ [AScheduleChunk base64;
                                 AConsoleError DecodeError]);
        try reflexivity.
      simpl. now rewrite <- app_assoc. }
  destruct H as (H1 & H2 & H3 & H4 & H5 & H6 & H7).
  assert (New : ~ In (fresh w) (startedIds (trace w))).
  { intros Hin. specialize (H7 _ Hin). lia. }
  unfold nodesInv. simpl.
  rewrite <- app_assoc, startedIds_app, stops_app, map_app. simpl.
  rewrite app_nil_r. repeat split.
  - apply NoDup_app_disjoint; trivial.
    + repeat constructor. intros [].
    + intros x [<-|[]]. exact New.
  - exact H2.
  - apply NoDup_app_disjoint; trivial.
    + repeat constructor. intros [].
    + intros x [<-|[]] Hin. apply New. now apply H5.
  - intros x Hx. apply in_or_app. left. now apply H4.
  - apply incl_app.
    + intros x Hx. apply in_or_app. left. now apply H5.
    + intros x [<-|[]]. apply in_or_app. right. now left.
  - intros id Hin Hst. apply in_app_or in Hin as [Hin|[<-|[]]].
    + now apply (H6 id).
    + apply New. now apply H4.
  - intros id Hin. apply in_app_or in Hin as [Hin|[<-|[]]].
    + specialize (H7 id Hin). lia.
    + simpl. lia.
Qed.

Lemma removeNode_incl id l : incl (removeNode id l) l.
Proof.
  induction l as [|n l IH]; simpl; [apply incl_refl|].
  destruct (Nat.eqb (node_id n) id).
  - apply incl_tl, incl_refl.
  - intros x [<-|Hx]; [now left | right; now apply IH].
Qed.

Lemma removeNode_NoDup id l :
  NoDup (map node_id l) -> NoDup (map node_id (removeNode id l)).
Proof.
  induction l as [|n l IH]; simpl; intros H; [exact H|].
  inversion H as [|? ? Hn Hl]; subst.
  destruct (Nat.eqb (node_id n) id); [exact Hl|].
  simpl. constructor; [|now apply IH].
  intros Hin. apply Hn. apply in_map_iff in Hin as (x & Ex & Hx).
  apply in_map_iff. exists x. split; [exact Ex|].
  now apply (removeNode_incl id l).
Qed.

Lemma nodesInv_sublist w w' :
  trace w' = trace w -> fresh w' = fresh w ->
  incl (sourcesRef w') (sourcesRef w) ->
  NoDup (map node_id (sourcesRef w')) ->
  nodesInv w -> nodesInv w'.
Proof.
  intros Et Ef Hi Hn (H1 & H2 & H3 & H4 & H5 & H6 & H7).
  assert (Hi' : incl (map node_id (sourcesRef w'))
                     (map node_id (sourcesRef w))).
  { intros x Hx. apply in_map_iff in Hx as (n & <- & Hn').
    apply in_map. now apply Hi. }
  unfold nodesInv. rewrite Et, Ef. repeat split; trivial.
  - intros x Hx. apply H5. now apply Hi'.
  - intros id Hid. apply H6. now apply Hi'.
Qed.

Lemma nodesInv_onended id w : nodesInv w -> nodesInv (onended id w).
Proof.
  intros H. unfold onended. cbv zeta.
  assert (H' : nodesInv (set_sourcesRef (removeNode id (sourcesRef w)) w)).
  { assert (H3 : NoDup (map node_id (sourcesRef w)))
      by now destruct H as (_ & _ & H3 & _).
    revert H. apply nodesInv_sublist; try reflexivity.
    - apply removeNode_incl.
    - now apply removeNode_NoDup. }
  cbn [sourcesRef set_sourcesRef].
  destruct (removeNode id (sourcesRef w)) eqn:E; [|exact H'].
  cbn [nextStartTimeRef currentTime set_sourcesRef].
  destruct (Qle_bool _ _); [|exact H'].
  revert H'. now apply nodesInv_same.
Qed.

Lemma nodesInv_handleSpeak text newCtx w :
  nodesInv w -> nodesInv (handleSpeak text newCtx w).
Proof.
  intros H. unfold handleSpeak.
  destruct (isSpeaking w); [now apply nodesInv_stopAudio|].
  destruct (isLoadingAudio w); [exact H|]. cbv zeta.
  destruct (negb (truthy (cleanMessage text)));
    [revert H; now apply nodesInv_same|].
  set (w1 := set_isSpeakingRef true _).
  assert (H1 : nodesInv w1) by (revert H; now apply nodesInv_same).
  set (w2 := match audioContextRef w1 with
             | None => set_audioContextRef (Some newCtx) w1
             | Some _ => w1
             end).
  assert (H2 : nodesInv w2).
  { unfold w2. destruct (audioContextRef w1); [exact H1|].
    revert H1. now apply nodesInv_same. }
  assert (H3 : nodesInv (handleSpeakResumed (cleanMessage text) w2)).
  { unfold handleSpeakResumed. cbv zeta. apply nodesInv_orchestrate.
    revert H2. now apply nodesInv_same. }
  destruct (audioContextRef w2) as [[|]|]; try exact H3.
  revert H2. now apply nodesInv_same.
Qed.

Lemma nodesInv_resume waiting : forall w,
  nodesInv w -> nodesInv (fold_left resumeTask waiting w).
Proof.
  induction waiting as [|t waiting IH]; intros w H; [exact H|].
  simpl. apply IH. destruct t as [cleanText|rid rest]; [|exact H].
  unfold resumeTask, handleSpeakResumed. cbv zeta.
  apply nodesInv_orchestrate. revert H. now apply nodesInv_same.
Qed.

Lemma nodesInv_step w e : nodesInv w -> nodesInv (step w e).
Proof.
  intros H. destruct e; cbn [step].
  - now apply nodesInv_handleSpeak.
  - now apply nodesInv_stopAudio.
  - destruct (audioContextRef w); [|exact H].
    revert H. now apply nodesInv_same.
  - destruct (audioContextRef w) as [[|]|]; try exact H.
    cbv zeta. apply nodesInv_resume. revert H. now apply nodesInv_same.
  - destruct (findRequest rid w); [|exact H].
    unfold onStreamChunk. destruct audioData as [data|]; [|exact H].
    destruct (truthy data); [|exact H].
    unfold onAudioChunk. destruct (negb (isSpeakingRef w)); [exact H|].
    apply nodesInv_scheduleChunk. revert H. now apply nodesInv_same.
  - destruct (findRequest rid w); [|exact H].
    apply nodesInv_settle. revert H. now apply nodesInv_same.
  - destruct (findRequest rid w); [|exact H].
    apply nodesInv_settle, nodesInv_streamSpeechCatch.
    revert H. now apply nodesInv_same.
  - destruct (started node w); [|exact H]. now apply nodesInv_onended.
  - destruct (Qle_bool _ _); [|exact H].
    revert H. now apply nodesInv_same.
Qed.

Lemma nodesInv_run_from events : forall w,
  nodesInv w -> nodesInv (run w events).
Proof.
  induction events as [|e events IH]; intros w H; [exact H|].
  change (run w (e :: events)) with (run (step w e) events).
  now apply IH, nodesInv_step.
Qed.

(** X11.  Over any run of the component no audio node is started twice
    and none is stopped twice; a node that is stopped has been started;
    and [sourcesRef] holds started nodes only, each once, and none that
    has been stopped. *)
Theorem nodes_started_and_stopped_once
        (p : CredentialPool) (events : list Event) :
  nodesInv (run (mounted p) events).
Proof.
  apply nodesInv_run_from. unfold nodesInv. simpl.
  repeat split; try constructor; try apply incl_refl; intros id [].
Qed.

(* ================================================================== *)
(** ** The order in which chunks are requested *)

Lemma loopTexts_app l1 l2 : loopTexts (l1 ++ l2) = loopTexts l1 ++ loopTexts l2.
Proof. unfold loopTexts. apply flat_map_app. Qed.

Lemma streamSpeech_loop call text rc w :
  tasks (fst (streamSpeech call text rc w)) = tasks w /\
  loopTexts (trace (fst (streamSpeech call text rc w))) =
    loopTexts (trace w) ++ (if Nat.eqb rc 0 then [text] else []).
Proof.
  rewrite streamSpeech_unfold. cbv zeta.
  assert (L : loopTexts [ACallStreamSpeech call text rc] =
              if Nat.eqb rc 0 then [text] else [])
    by (destruct rc; reflexivity).
  destruct (getApiKey (pool (emit _ w))) as [key|] eqn:K; cbn [fst snd].
  - split; [reflexivity|]. simpl.
    rewrite <- app_assoc, loopTexts_app. change ([?a] ++ [?b]) with [a; b].
    rewrite <- L. simpl. destruct rc; simpl; now rewrite ?app_nil_r.
  - rewrite streamSpeechCatch_unfold. cbv zeta.
    set (w1 := emit (AConsoleError (TtsStreamError call)) (emit _ w)).
    assert (R : fst (rotateApiKey (pool w1)) = false)
      by (apply getApiKey_none_rotate; exact K).
    destruct (rc <? 3) eqn:Hrc.
    + rewrite R. split; [reflexivity|]. simpl.
      rewrite <- !app_assoc, loopTexts_app. simpl.
      destruct rc; simpl; now rewrite ?app_nil_r.
    + split; [reflexivity|]. simpl.
      rewrite <- !app_assoc, loopTexts_app. simpl.
      destruct rc; simpl; now rewrite ?app_nil_r.
Qed.

Lemma streamSpeechCatch_loop call text rc w :
  tasks (streamSpeechCatch call text rc w) = tasks w /\
  loopTexts (trace (streamSpeechCatch call text rc w)) = loopTexts (trace w).
Proof.
  rewrite streamSpeechCatch_unfold. cbv zeta.
  set (w1 := emit (AConsoleError (TtsStreamError call)) w).
  assert (E1 : tasks w1 = tasks w /\ loopTexts (trace w1) = loopTexts (trace w)).
  { split; [reflexivity|]. simpl. rewrite loopTexts_app. simpl.
    now rewrite app_nil_r. }
  destruct (rc <? 3); [|exact E1].
  set (w2 := emit _ (set_pool _ w1)).
  assert (E2 : tasks w2 = tasks w /\ loopTexts (trace w2) = loopTexts (trace w)).
  { destruct E1 as [T L]. split; [exact T|]. unfold w2. simpl.
    rewrite loopTexts_app. simpl. rewrite app_nil_r. exact L. }
  destruct (fst (rotateApiKey (pool w1))); [|exact E2].
  destruct (streamSpeech_loop call text (S rc) w2) as [T L].
  destruct E2 as [T2 L2]. split; [congruence|].
  rewrite L. simpl. now rewrite app_nil_r.
Qed.

(** The loop, entered with no activation suspended: it asks for some
    of its chunks, in their order, and ends or is suspended with the
    others still to do. *)
Lemma orchestrate_loop chunks : forall w,
  tasks w = [] ->
  exists done rest,
    loopTexts (trace (orchestrate chunks w)) = loopTexts (trace w) ++ done /\
    done ++ rest = chunks /\
    (tasks (orchestrate chunks w) = [] \/
     exists rid, tasks (orchestrate chunks w) = [AwaitSpeech rid rest]).
Proof.
  induction chunks as [|chunk chunks IH]; intros w Hw; cbn [orchestrate].
  - exists [], []. rewrite app_nil_r. repeat split. now left.
  - destruct (negb (isSpeakingRef w)).
    { exists [], (chunk :: chunks). rewrite app_nil_r. repeat split.
      now left. }
    pose proof (streamSpeech_not_rejected (fresh w) chunk 0
                  (set_fresh (S (fresh w)) w)) as NR.
    destruct (streamSpeech_loop (fresh w) chunk 0
                (set_fresh (S (fresh w)) w)) as [T L].
    destruct (streamSpeech _ _ _ _) as [w1 promise]. cbn [fst snd] in *.
    change (tasks (set_fresh (S (fresh w)) w)) with (tasks w) in T.
    change (trace (set_fresh (S (fresh w)) w)) with (trace w) in L.
    destruct promise as [rid| |]; [| |congruence].
    + exists [chunk], chunks. cbn [trace tasks set_tasks].
      split; [exact L|]. split; [reflexivity|]. right. exists rid.
      now rewrite T, Hw.
    + destruct (IH w1) as (done & rest & E & D & Ht); [congruence|].
      exists (chunk :: done), rest. split; [|split].
      * rewrite E, L, <- app_assoc. reflexivity.
      * simpl. now rewrite D.
      * exact Ht.
Qed.

Lemma loopInv_same base chunks w w' :
  loopTexts (trace w') = loopTexts (trace w) -> tasks w' = tasks w ->
  loopInv base chunks w -> loopInv base chunks w'.
Proof.
  intros Et Ek (done & rest & E & D & H).
  exists done, rest. rewrite Et, Ek. now repeat split.
Qed.

(** Taking up the loop on the chunks that were left. *)
Lemma loopInv_orchestrate base chunks done rest w :
  loopTexts (trace w) = base ++ done -> done ++ rest = chunks ->
  tasks w = [] ->
  loopInv base chunks (orchestrate rest w).
Proof.
  intros E D Hw.
  destruct (orchestrate_loop rest w Hw) as (done' & rest' & E' & D' & H).
  exists (done ++ done'), rest'. split; [|split].
  - now rewrite E', E, app_assoc.
  - now rewrite <- app_assoc, D'.
  - destruct H as [H|H]; [now left | right; now left].
Qed.

Lemma loopInv_settle base chunks rid w :
  loopInv base chunks w -> loopInv base chunks (settle rid w).
Proof.
  intros (done & rest & E & D & H). unfold settle.
  destruct H as [H|[(r & H)|(cleanText & H & S)]]; rewrite H; cbn [find awaits].
  - exists done, rest. rewrite H. repeat split; trivial. now left.
  - destruct (Nat.eqb r rid) eqn:R.
    + cbn [filter awaits]. rewrite R. cbn [negb].
      now apply (loopInv_orchestrate base chunks done rest).
    + exists done, rest. rewrite H. repeat split; trivial.
      right. left. now exists r.
  - exists done, rest. rewrite H. repeat split; trivial.
    right. right. now exists cleanText.
Qed.

Lemma scheduleChunk_loop base64 w :
  tasks (fst (scheduleChunk base64 w)) = tasks w /\
  loopTexts (trace (fst (scheduleChunk base64 w))) = loopTexts (trace w).
Proof.
  unfold scheduleChunk. cbv zeta.
  change (audioContextRef (emit (AScheduleChunk base64) w))
    with (audioContextRef w).
  destruct (audioContextRef w); cbn [fst].
  2:{ split; [reflexivity|]. simpl. rewrite loopTexts_app. simpl.
      now rewrite app_nil_r. }
  destruct (decode base64) as [float32|]; cbn [fst];
    (split; [reflexivity|]); simpl;
    rewrite <- app_assoc, loopTexts_app; simpl; now rewrite app_nil_r.
Qed.

Lemma loopTexts_stops (l : list Node) :
  loopTexts (map (fun n => AStop (node_id n)) l) = [].
Proof. induction l as [|n l IH]; [reflexivity | exact IH]. Qed.

Lemma loopInv_stopAudio base chunks w :
  loopInv base chunks w -> loopInv base chunks (stopAudio w).
Proof.
  apply loopInv_same; rewrite stopAudio_closed; [|reflexivity].
  cbn [trace]. now rewrite loopTexts_app, loopTexts_stops, app_nil_r.
Qed.

Lemma loopInv_step base chunks w e :
  notHandleSpeak e = true ->
  loopInv base chunks w -> loopInv base chunks (step w e).
Proof.
  intros He H. destruct e; try discriminate He; cbn [step].
  - now apply loopInv_stopAudio.
  - destruct (audioContextRef w); [|exact H].
    revert H. now apply loopInv_same.
  - destruct (audioContextRef w) as [[|]|]; try exact H.
    cbv zeta. destruct H as (done & rest & E & D & H).
    destruct H as [H|[(r & H)|(cleanText & H & S)]]; rewrite H;
      cbn [filter isAwaitResume negb fold_left].
    + exists done, rest. cbn [trace tasks set_tasks set_audioContextRef].
      repeat split; trivial. now left.
    + exists done, rest. cbn [trace tasks set_tasks set_audioContextRef].
      repeat split; trivial. right. left. now exists r.
    + unfold resumeTask, handleSpeakResumed. cbv zeta.
      subst rest.
      now apply (loopInv_orchestrate base chunks done (segment cleanText)).
  - destruct (findRequest rid w); [|exact H].
    unfold onStreamChunk. destruct audioData as [data|]; [|exact H].
    destruct (truthy data); [|exact H].
    unfold onAudioChunk. destruct (negb (isSpeakingRef w)); [exact H|].
    destruct (scheduleChunk_loop data (set_isLoadingAudio false w)) as [T L].
    revert H. now apply loopInv_same.
  - destruct (findRequest rid w); [|exact H].
    apply loopInv_settle. revert H. now apply loopInv_same.
  - destruct (findRequest rid w) as [r|]; [|exact H].
    apply loopInv_settle.
    destruct (streamSpeechCatch_loop (req_call r) (req_text r) (req_retry r)
                (dropRequest rid w)) as [T L].
    revert H. now apply loopInv_same.
  - destruct (started node w); [|exact H].
    unfold onended. cbv zeta. cbn [sourcesRef set_sourcesRef].
    destruct (removeNode node (sourcesRef w));
      [|revert H; now apply loopInv_same].
    destruct (Qle_bool _ _); revert H; now apply loopInv_same.
  - destruct (Qle_bool _ _); [|exact H].
    revert H. now apply loopInv_same.
Qed.

Lemma loopInv_run base chunks events : forall w,
  forallb notHandleSpeak events = true ->
  loopInv base chunks w -> loopInv base chunks (run w events).
Proof.
  induction events as [|e events IH]; intros w He H; [exact H|].
  cbn [forallb] in He. apply andb_prop in He as [He Hes].
  change (run w (e :: events)) with (run (step w e) events).
  now apply IH, loopInv_step.
Qed.

Lemma loopInv_handleSpeak text newCtx w :
  tasks w = [] ->
  loopInv (loopTexts (trace w)) (segment (cleanMessage text))
          (handleSpeak text newCtx w).
Proof.
  intros Hw.
  assert (H0 : loopInv (loopTexts (trace w)) (segment (cleanMessage text)) w).
  { exists [], (segment (cleanMessage text)). rewrite app_nil_r.
    repeat split. now left. }
  unfold handleSpeak.
  destruct (isSpeaking w); [now apply loopInv_stopAudio|].
  destruct (isLoadingAudio w); [exact H0|]. cbv zeta.
  destruct (negb (truthy (cleanMessage text)));
    [revert H0; now apply loopInv_same|].
  set (w1 := set_isSpeakingRef true _).
  set (w2 := match audioContextRef w1 with
             | None => set_audioContextRef (Some newCtx) w1
             | Some _ => w1
             end).
  assert (E2 : trace w2 = trace w /\ tasks w2 = tasks w).
  { unfold w2. destruct (audioContextRef w1); now split. }
  destruct E2 as [Et Ek].
  assert (H3 : loopInv (loopTexts (trace w)) (segment (cleanMessage text))
                       (handleSpeakResumed (cleanMessage text) w2)).
  { unfold handleSpeakResumed. cbv zeta.
    apply (loopInv_orchestrate _ _ [] (segment (cleanMessage text)));
      [|reflexivity|].
    - cbn [trace set_nextStartTimeRef]. now rewrite Et, app_nil_r.
    - cbn [tasks set_nextStartTimeRef]. now rewrite Ek. }
  destruct (audioContextRef w2) as [[|]|]; try exact H3.
  exists [], (segment (cleanMessage text)).
  cbn [trace tasks set_tasks]. rewrite Et, Ek, Hw, app_nil_r.
  repeat split. right. right. now exists (cleanMessage text).
Qed.

(** X12.  The chunks are asked for one after the other and in their
    order.  After an activation of [handleSpeak] on a component with no
    activation suspended, and for as long as it is not invoked again,
    the calls that the loop has made to [streamSpeech] are for the first
    [k] chunks of the cleaned message, in order and once each, and at
    most one activation is suspended. *)
Theorem chunks_requested_in_order
        (w : World) (text : jsstring) (newCtx : CtxState)
        (events : list Event) :
  tasks w = [] ->
  forallb notHandleSpeak events = true ->
  (exists k,
     loopTexts (trace (run (handleSpeak text newCtx w) events)) =
     loopTexts (trace w) ++ firstn k (segment (cleanMessage text))) /\
  length (tasks (run (handleSpeak text newCtx w) events)) <= 1.
Proof.
  intros Hw He.
  destruct (loopInv_run _ _ events _ He (loopInv_handleSpeak text newCtx w Hw))
    as (done & rest & E & D & H).
  split.
  - exists (length done). rewrite E, <- D. f_equal.
    now rewrite firstn_app, firstn_all, Nat.sub_diag, firstn_O, app_nil_r.
  - destruct H as [H|[(r & H)|(c & H & _)]]; rewrite H; simpl; lia.
Qed.

Lemma chunks_requested_in_order_witness :
  tasks (mounted twoKeys) = [] /\
  exists k,
    loopTexts (trace (run (handleSpeak twoChunkText Running (mounted twoKeys))
                          [EvFrame 1 (Some pcmFrame); EvClose 1])) =
    loopTexts (trace (mounted twoKeys)) ++
    firstn k (segment (cleanMessage twoChunkText)).
Proof.
  assert (H1 : tasks (mounted twoKeys) = []) by reflexivity.
  split; [exact H1|].
  exact (proj1 (chunks_requested_in_order
                  (mounted twoKeys) twoChunkText Running
                  [EvFrame 1 (Some pcmFrame); EvClose 1] H1 eq_refl)).
Defined.

(* ================================================================== *)
(** ** generateSpeech: an unbounded retry that the pool bounds *)

Lemma speechKeys_app l1 l2 :
  speechKeys (l1 ++ l2) = speechKeys l1 ++ speechKeys l2.
Proof. unfold speechKeys. apply flat_map_app. Qed.

Lemma skipn_S_tl {A : Type} n : forall (l : list A),
  skipn (S n) l = tl (skipn n l).
Proof.
  induction n as [|n IH]; intros l.
  - destruct l; reflexivity.
  - destruct l as [|x l]; [reflexivity|].
    change (skipn (S (S n)) (x :: l)) with (skipn (S n) l).
    change (skipn (S n) (x :: l)) with (skipn n l). apply IH.
Qed.

Lemma getApiKey_remaining p : getApiKey p = hd_error (remaining p).
Proof.
  unfold getApiKey, remaining.
  generalize (pool_cursor p) as n. generalize (pool_keys p) as l.
  induction l as [|x l IH]; intros [|n]; try reflexivity. apply IH.
Qed.

Lemma rotateApiKey_remaining p :
  remaining (snd (rotateApiKey p)) = tl (remaining p) /\
  fst (rotateApiKey p) = negb (Nat.eqb (length (tl (remaining p))) 0).
Proof.
  unfold rotateApiKey, remaining. cbn [fst snd pool_keys pool_cursor].
  rewrite <- skipn_S_tl. split; [reflexivity|].
  rewrite length_skipn.
  destruct (Nat.ltb_spec (S (pool_cursor p)) (length (pool_keys p)));
    destruct (Nat.eqb_spec (length (pool_keys p) - S (pool_cursor p)) 0);
    try reflexivity; lia.
Qed.

(** The [catch] block, on what is left of the pool. *)
Lemma generateSpeechCatchWith_unfold retry st :
  generateSpeechCatchWith retry st =
  let st' := semit (SRotate (fst (rotateApiKey (s_pool st))))
               {| s_pool := snd (rotateApiKey (s_pool st));
                  s_sent := s_sent st;
                  s_trace := s_trace st ++ [SConsoleError] |} in
  if fst (rotateApiKey (s_pool st)) then retry st' else (st', Spoke None).
Proof.
  unfold generateSpeechCatchWith. cbv zeta.
  cbn [s_pool s_sent s_trace semit].
  destruct (rotateApiKey (s_pool st)) as [ok p]. reflexivity.
Qed.

(** What a call does, when the depth allowed is more than the
    credentials left: it sends with the next [k] credentials, all its
    requests but the last fail, and it ends on an answer to the last or
    on an empty pool. *)
Lemma generateSpeechFrom_spec gas net text : forall st,
  length (remaining (s_pool st)) < gas ->
  exists k data,
    snd (generateSpeechFrom gas net text st) = Spoke data /\
    k <= length (remaining (s_pool st)) /\
    speechKeys (s_trace (fst (generateSpeechFrom gas net text st))) =
      speechKeys (s_trace st) ++ firstn k (remaining (s_pool st)) /\
    s_sent (fst (generateSpeechFrom gas net text st)) = s_sent st + k /\
    (forall i, S i < k -> net (s_sent st + i) = SpeechFailed) /\
    ((exists j a, k = S j /\ net (s_sent st + j) = SpeechAnswer a /\
                  data = orNull a)
     \/
     (data = None /\ k = length (remaining (s_pool st)) /\
      (forall i, i < k -> net (s_sent st + i) = SpeechFailed) /\
      getApiKey (s_pool (fst (generateSpeechFrom gas net text st))) = None)).
Proof.
  induction gas as [|gas IH]; intros st Hgas; [lia|].
  cbn [generateSpeechFrom]. cbv zeta.
  change (s_pool (semit (SInvoke text) st)) with (s_pool st).
  change (s_sent (semit (SInvoke text) st)) with (s_sent st).
  rewrite (getApiKey_remaining (s_pool st)).
  destruct (rotateApiKey_remaining (s_pool st)) as [Rrem Rok].
  destruct (remaining (s_pool st)) as [|key rem] eqn:Erem; cbn [hd_error].
  - (* no credential: the catch block, and the rotation finds none *)
    rewrite generateSpeechCatchWith_unfold. cbv zeta.
    change (s_pool (semit (SInvoke text) st)) with (s_pool st).
    rewrite Rok. cbn [tl length Nat.eqb negb fst snd].
    exists 0, None. split; [reflexivity|]. split; [apply le_n|].
    split; [|split; [|split]].
    + cbn [s_trace semit]. rewrite !speechKeys_app. simpl.
      now rewrite !app_nil_r.
    + cbn [s_sent semit]. lia.
    + intros i Hi. lia.
    + right. split; [reflexivity|]. split; [reflexivity|].
      split; [intros i Hi; lia|].
      cbn [s_pool semit]. rewrite getApiKey_remaining, Rrem. reflexivity.
  - destruct (net (s_sent st)) as [|a] eqn:Enet.
    + (* the request fails *)
      rewrite generateSpeechCatchWith_unfold. cbv zeta.
      cbn [s_pool s_sent s_trace semit].
      rewrite Rok. cbn [tl].
      destruct rem as [|key2 rem'] eqn:Erem2.
      * (* it was the last credential *)
        cbn [length Nat.eqb negb fst snd].
        exists 1, None. split; [reflexivity|].
        split; [simpl; lia|]. split; [|split; [|split]].
        -- cbn [s_trace s_sent s_pool semit fst snd]. rewrite !speechKeys_app. simpl.
           now rewrite !app_nil_r.
        -- cbn [s_trace s_sent s_pool semit fst snd]. lia.
        -- intros i Hi. lia.
        -- right. split; [reflexivity|]. split; [reflexivity|].
           split.
           ++ intros i Hi. assert (i = 0) as -> by lia.
              now rewrite Nat.add_0_r.
           ++ cbn [s_trace s_sent s_pool semit fst snd]. rewrite getApiKey_remaining, Rrem. reflexivity.
      * (* the rotation finds the next one *)
        cbn [length Nat.eqb negb].
        set (st3 := semit (SRotate true) _).
        assert (Hrem3 : remaining (s_pool st3) = key2 :: rem')
          by (unfold st3; cbn [s_pool semit]; exact Rrem).
        destruct (IH st3) as (k & data & Hr & Hk & Hkeys & Hsent & Hfail & Hend).
        { rewrite Hrem3. simpl in Hgas. simpl. lia. }
        rewrite Hrem3 in Hk, Hkeys, Hend.
        exists (S k), data. split; [exact Hr|].
        split; [simpl in Hk |- *; lia|]. split; [|split; [|split]].
        -- rewrite Hkeys. unfold st3. cbn [s_trace s_sent s_pool semit fst snd].
           rewrite !speechKeys_app. simpl. rewrite !app_nil_r.
           now rewrite <- app_assoc.
        -- rewrite Hsent. unfold st3. cbn [s_trace s_sent s_pool semit fst snd]. lia.
        -- intros [|i] Hi; [now rewrite Nat.add_0_r|].
           replace (s_sent st + S i) with (s_sent st3 + i)
             by (unfold st3; cbn [s_trace s_sent s_pool semit fst snd]; lia).
           apply Hfail. lia.
        -- destruct Hend as [(j & a & Ej & Ea & Ed)|(Ed & Ek & Ef & Eg)].
           ++ left. exists (S j), a. split; [now rewrite Ej|].
              split; [|exact Ed].
              replace (s_sent st + S j) with (s_sent st3 + j)
                by (unfold st3; cbn [s_trace s_sent s_pool semit fst snd]; lia).
              exact Ea.
           ++ right. split; [exact Ed|]. split; [simpl; now rewrite Ek|].
              split; [|exact Eg].
              intros [|i] Hi; [now rewrite Nat.add_0_r|].
              replace (s_sent st + S i) with (s_sent st3 + i)
                by (unfold st3; cbn [s_trace s_sent s_pool semit fst snd]; lia).
              apply Ef. lia.
    + (* the request is answered *)
      exists 1, (orNull a). cbn [fst snd s_trace s_sent semit].
      split; [reflexivity|]. split; [simpl; lia|].
      split; [|split; [|split]].
      * rewrite !speechKeys_app. simpl. now rewrite !app_nil_r.
      * lia.
      * intros i Hi. lia.
      * left. exists 0, a. rewrite Nat.add_0_r. now repeat split.
Qed.

Lemma generateSpeechFrom_enough gas net text : forall gas' st,
  length (remaining (s_pool st)) < gas ->
  length (remaining (s_pool st)) < gas' ->
  generateSpeechFrom gas net text st = generateSpeechFrom gas' net text st.
Proof.
  induction gas as [|gas IH]; intros gas' st H H'; [lia|].
  destruct gas' as [|gas']; [lia|].
  cbn [generateSpeechFrom]. cbv zeta.
  change (s_pool (semit (SInvoke text) st)) with (s_pool st).
  change (s_sent (semit (SInvoke text) st)) with (s_sent st).
  destruct (rotateApiKey_remaining (s_pool st)) as [Rrem Rok].
  assert (Catch : forall st1,
            s_pool st1 = s_pool st ->
            generateSpeechCatchWith (generateSpeechFrom gas net text) st1 =
            generateSpeechCatchWith (generateSpeechFrom gas' net text) st1).
  { intros st1 E1. rewrite !generateSpeechCatchWith_unfold. cbv zeta.
    rewrite E1.
    pose proof Rok as Eok. symmetry in Eok.
    destruct (fst (rotateApiKey (s_pool st))); [|reflexivity].
    assert (Hlen : S (length (tl (remaining (s_pool st)))) <=
                   length (remaining (s_pool st))).
    { revert Eok.
      destruct (remaining (s_pool st)); simpl; intros Eok;
        [discriminate Eok | lia]. }
    apply IH; cbn [s_pool semit]; rewrite Rrem; lia. }
  destruct (getApiKey (s_pool st)) as [key|].
  - destruct (net (s_sent st)); [|reflexivity]. now apply Catch.
  - now apply Catch.
Qed.

(** X13.  [generateSpeech] has no retry ceiling, and yet every call
    returns: the pool bounds it.  It sends with the credentials from
    the cursor on, each once and in their order, never more requests
    than there are credentials left; audio that it returns is not
    empty; and any allowed depth above the number of credentials left
    gives the same run. *)
Theorem generateSpeech_returns
        (net : nat -> SpeechReply) (text : jsstring) (st : SpeechState) :
  exists k data,
    snd (generateSpeech net text st) = Spoke data /\
    k <= length (remaining (s_pool st)) /\
    speechKeys (s_trace (fst (generateSpeech net text st))) =
      speechKeys (s_trace st) ++ firstn k (remaining (s_pool st)) /\
    s_sent (fst (generateSpeech net text st)) = s_sent st + k /\
    (forall d, data = Some d -> d <> []) /\
    (forall gas, length (remaining (s_pool st)) < gas ->
       generateSpeechFrom gas net text st = generateSpeech net text st).
Proof.
  unfold generateSpeech.
  destruct (generateSpeechFrom_spec
              (S (length (remaining (s_pool st)))) net text st (le_n _))
    as (k & data & Hr & Hk & Hkeys & Hsent & _ & Hend).
  exists k, data. repeat split; trivial.
  - intros d Hd ->. destruct Hend as [(j & a & _ & _ & Ed)|(Ed & _)];
      [|congruence].
    destruct a as [d'|]; [|simpl in Ed; congruence]. simpl in Ed.
    destruct d'; simpl in Ed; congruence.
  - intros gas Hgas. apply generateSpeechFrom_enough; [exact Hgas | lia].
Qed.

(** X14.  On a network where every request fails, one call of
    [generateSpeech] uses up the pool: it sends one request with each
    credential from the cursor on, returns [null], and leaves the pool
    without a current credential. *)
Theorem generateSpeech_dead_network_uses_up_pool
        (net : nat -> SpeechReply) (text : jsstring) (st : SpeechState) :
  (forall n, net n = SpeechFailed) ->
  snd (generateSpeech net text st) = Spoke None /\
  speechKeys (s_trace (fst (generateSpeech net text st))) =
    speechKeys (s_trace st) ++ remaining (s_pool st) /\
  getApiKey (s_pool (fst (generateSpeech net text st))) = None.
Proof.
  intros Hnet. unfold generateSpeech.
  destruct (generateSpeechFrom_spec
              (S (length (remaining (s_pool st)))) net text st (le_n _))
    as (k & data & Hr & Hk & Hkeys & Hsent & _ & Hend).
  destruct Hend as [(j & a & _ & Ea & _)|(Ed & Ek & _ & Eg)].
  - rewrite Hnet in Ea. discriminate.
  - subst data. split; [exact Hr|]. split; [|exact Eg].
    rewrite Hkeys, Ek. now rewrite firstn_all.
Qed.

Lemma generateSpeech_dead_network_uses_up_pool_witness :
  (forall n, deadSpeech n = SpeechFailed) /\
  speechKeys (s_trace (fst (generateSpeech deadSpeech hi
                                           (startOfSpeech twoKeys)))) =
    pool_keys twoKeys /\
  getApiKey (s_pool (fst (generateSpeech deadSpeech hi
                                         (startOfSpeech twoKeys)))) = None.
Proof.
  assert (H : forall n, deadSpeech n = SpeechFailed) by reflexivity.
  split; [exact H|].
  exact (proj2 (generateSpeech_dead_network_uses_up_pool
                  deadSpeech hi (startOfSpeech twoKeys) H)).
Defined.

(* ================================================================== *)
(** ** generateStreamResponse, further properties *)

Lemma shown_app l1 l2 : shown (l1 ++ l2) = shown l1 ++ shown l2.
Proof. unfold shown. apply flat_map_app. Qed.



Lemma shown_onChunks texts :
  shown (map GOnChunk texts) = texts /\
  sentKeys (map GOnChunk texts) = [] /\
  sentRequests (map GOnChunk texts) = [] /\
  genSteps (map GOnChunk texts) = [].
Proof.
  induction texts as [|t texts (I1 & I2 & I3 & I4)]; [now repeat split|].
  simpl. now rewrite I1, I2, I3, I4.
Qed.

Lemma last_cons_default {A : Type} (l : list A) : forall t prev,
  last (t :: l) prev = last l t.
Proof.
  induction l as [|x l IH]; intros t prev; [reflexivity|].
  change (last (t :: x :: l) prev) with (last (x :: l) prev).
  now rewrite (IH x prev), (IH x t).
Qed.

Lemma growingFrom_snoc l : forall prev more,
  growingFrom prev l ->
  growingFrom prev (l ++ [last l prev ++ more]).
Proof.
  induction l as [|t l IH]; intros prev more H.
  - simpl. split; [now exists more | exact Logic.I].
  - destruct H as [H1 H2]. cbn [app growingFrom]. split; [exact H1|].
    rewrite last_cons_default. now apply IH.
Qed.

(** The stream loop: the texts it hands to [onChunk], one for every
    chunk, each continuing the one before. *)
Lemma fold_onResultChunk_shown chunks : forall fullText sources st,
  exists texts,
    g_trace (snd (fold_left onResultChunk chunks (fullText, sources, st))) =
      g_trace st ++ map GOnChunk texts /\
    g_pool (snd (fold_left onResultChunk chunks (fullText, sources, st))) =
      g_pool st /\
    g_sent (snd (fold_left onResultChunk chunks (fullText, sources, st))) =
      g_sent st /\
    length texts = length chunks /\
    growingFrom fullText texts /\
    fst (fst (fold_left onResultChunk chunks (fullText, sources, st))) =
      last texts fullText.
Proof.
  induction chunks as [|c chunks IH]; intros fullText sources st.
  - exists []. simpl. rewrite app_nil_r. now repeat split.
  - set (ft1 := fullText ++ orElse (chunk_text c) []).
    set (s1 := addSources (chunk_grounding c) sources).
    set (st1 := gemit (GOnChunk ft1) st).
    change (fold_left onResultChunk (c :: chunks) (fullText, sources, st))
      with (fold_left onResultChunk chunks (ft1, s1, st1)).
    destruct (IH ft1 s1 st1) as (texts & E & P & S & L & G & F).
    exists (ft1 :: texts).
    split; [|split; [|split; [|split; [|split]]]].
    + etransitivity; [exact E|]. unfold st1. simpl.
      now rewrite <- app_assoc.
    + exact P.
    + exact S.
    + simpl. now rewrite L.
    + split; [now eexists | exact G].
    + etransitivity; [exact F|]. now rewrite last_cons_default.
Qed.

(** One attempt, when the pool has a credential. *)
Lemma tryBlock_sent net a st key :
  getApiKey (g_pool st) = Some key ->
  exists texts,
    g_trace (fst (tryBlock net a st)) =
      g_trace st ++ GSend key (requestOf a) :: map GOnChunk texts /\
    g_pool (fst (tryBlock net a st)) = g_pool st /\
    g_sent (fst (tryBlock net a st)) = S (g_sent st) /\
    growingFrom [] texts /\
    (forall fullText, snd (tryBlock net a st) = Some fullText ->
                      fullText = last texts []).
Proof.
  intros K. unfold tryBlock. rewrite K. cbv zeta.
  set (st1 := {| g_pool := g_pool st; g_sent := S (g_sent st);
                 g_trace := g_trace st ++ [GSend key (requestOf a)] |}).
  destruct (fold_onResultChunk_shown (att_chunks (net (g_sent st))) [] [] st1)
    as (texts & E & P & Sn & _ & G & F).
  destruct (fold_left onResultChunk _ _) as [[ft srcs] st2].
  cbn [fst snd] in *. unfold st1 in E, P, Sn. cbn [g_trace g_pool g_sent] in E, P, Sn.
  rewrite <- app_assoc in E. cbn [app] in E.
  destruct (att_end (net (g_sent st))).
  - destruct srcs as [|s0 srcs]; cbn [fst snd].
    + exists texts. repeat split; trivial. intros fullText H.
      injection H as <-. exact F.
    + exists (texts ++ [last texts [] ++ sourcesText (s0 :: srcs)]).
      cbn [g_trace g_pool g_sent gemit].
      split; [|split; [|split; [|split]]]; trivial.
      * subst ft. rewrite E, map_app, <- app_assoc. reflexivity.
      * now apply growingFrom_snoc.
      * intros fullText H. injection H as <-.
        now rewrite last_last, F.
  - exists texts. cbn [fst snd]. repeat split; trivial.
    intros fullText H. discriminate H.
Qed.

(** X15.  Within one attempt the texts handed to [onChunk] only grow:
    each continues the one before it.  When the attempt returns, the
    text it returns is the last one it handed to [onChunk], or the
    empty string when the stream gave no chunk at all. *)
Theorem attempt_streams_growing_text
        (net : nat -> Attempt) (a : GenArgs) (st : GenState) :
  exists added,
    g_trace (fst (tryBlock net a st)) = g_trace st ++ added /\
    growingFrom [] (shown added) /\
    (forall fullText, snd (tryBlock net a st) = Some fullText ->
                      fullText = last (shown added) []).
Proof.
  destruct (getApiKey (g_pool st)) as [key|] eqn:K.
  - destruct (tryBlock_sent net a st key K) as (texts & E & _ & _ & G & F).
    exists (GSend key (requestOf a) :: map GOnChunk texts).
    destruct (shown_onChunks texts) as [S _].
    split; [exact E|]. cbn [shown flat_map app]. fold (shown (map GOnChunk texts)).
    rewrite S. now split.
  - exists []. unfold tryBlock. rewrite K. cbn [fst snd].
    rewrite app_nil_r. repeat split. intros fullText H. discriminate H.
Qed.

Lemma attempt_streams_growing_text_witness :
  snd (tryBlock thirdAnswers plainQuestion thirdAttempt) = Some hi /\
  exists added,
    g_trace (fst (tryBlock thirdAnswers plainQuestion thirdAttempt)) =
      g_trace thirdAttempt ++ added /\
    hi = last (shown added) [].
Proof.
  assert (H : snd (tryBlock thirdAnswers plainQuestion thirdAttempt) = Some hi)
    by reflexivity.
  split; [exact H|].
  destruct (attempt_streams_growing_text thirdAnswers plainQuestion
              thirdAttempt) as (added & E & _ & F).
  exists added. split; [exact E | exact (F hi H)].
Defined.

Lemma jsstring_eqb_eq a : forall b, jsstring_eqb a b = true <-> a = b.
Proof.
  induction a as [|x a IH]; intros [|y b]; simpl; split; intros H;
    try reflexivity; try discriminate.
  - apply andb_prop in H as [H1 H2]. apply N.eqb_eq in H1.
    apply IH in H2. now subst.
  - injection H as -> ->. apply andb_true_intro. split.
    + apply N.eqb_refl.
    + now apply IH.
Qed.

Lemma setAdd_spec s set :
  NoDup set ->
  NoDup (setAdd s set) /\
  (forall l, In l (setAdd s set) <-> In l set \/ l = s) /\
  exists new, setAdd s set = set ++ new.
Proof.
  intros H. unfold setAdd.
  destruct (existsb (jsstring_eqb s) set) eqn:E.
  - apply existsb_exists in E as (x & Hx & Ex).
    apply jsstring_eqb_eq in Ex. subst x.
    split; [exact H|]. split.
    + intros l. split; [now left | intros [Hl| ->]; assumption].
    + exists []. now rewrite app_nil_r.
  - assert (Hs : ~ In s set).
    { intros Hin. assert (T : existsb (jsstring_eqb s) set = true).
      { apply existsb_exists. exists s. split; [exact Hin|].
        now apply jsstring_eqb_eq. }
      congruence. }
    split; [|split].
    + apply NoDup_app_disjoint; [exact H | repeat constructor; intros [] |].
      intros x [<-|[]]. exact Hs.
    + intros l. rewrite in_app_iff. simpl. intuition.
    + now exists [s].
Qed.

(** X16.  The set of sources holds each link once, whatever the
    grounding chunks repeat, keeps what it held in its order, and holds
    just the links it held and the links of the chunks that have a
    [uri]. *)
Theorem sources_listed_once (cs : list GroundingChunk) (set : list jsstring) :
  NoDup set ->
  NoDup (addSources cs set) /\
  (forall l, In l (addSources cs set) <-> In l set \/ In l (links cs)) /\
  exists new, addSources cs set = set ++ new.
Proof.
  revert set. unfold addSources.
  induction cs as [|c cs IH]; intros set H.
  - simpl. split; [exact H|]. split.
    + intros l. split; [now left | now intros [Hl|[]]].
    + exists []. now rewrite app_nil_r.
  - cbn [fold_left links flat_map]. fold (links cs).
    destruct (sourceLink c) as [s|].
    + destruct (setAdd_spec s set H) as (N1 & I1 & new1 & E1).
      destruct (IH _ N1) as (N2 & I2 & new2 & E2).
      split; [exact N2|]. split.
      * intros l. rewrite I2, I1, in_app_iff. simpl. intuition.
      * exists (new1 ++ new2). now rewrite E2, E1, app_assoc.
    + destruct (IH _ H) as (N2 & I2 & new2 & E2).
      split; [exact N2|]. split; [|now exists new2].
      intros l. rewrite I2. simpl. reflexivity.
Qed.

Lemma sources_listed_once_witness :
  NoDup (@nil jsstring) /\
  NoDup (addSources
           [{| web_title := None; web_uri := Some hi |};
            {| web_title := None; web_uri := None |};
            {| web_title := None; web_uri := Some hi |}] []).
Proof.
  assert (H : NoDup (@nil jsstring)) by constructor.
  split; [exact H|].
  exact (proj1 (sources_listed_once _ [] H)).
Defined.

(** X17.  How a request is configured.  Search is never asked for
    together with thinking: a request with the search tool goes to the
    flash model with no thinking budget and the output capped at 2000
    tokens.  The output is uncapped exactly when the request goes to
    the pro model.  And a request with an attachment never has a blank
    prompt: the prompt is blank only when the message is and nothing is
    attached. *)
Theorem request_configuration (a : GenArgs) :
  (rq_googleSearch (requestOf a) = true ->
   rq_model (requestOf a) = Gemini25Flash /\
   rq_thinkingBudget (requestOf a) = 0%N /\
   rq_maxOutputTokens (requestOf a) = Some 2000%N) /\
  (rq_maxOutputTokens (requestOf a) = None <->
   rq_model (requestOf a) = Gemini3ProPreview) /\
  (blank (rq_promptText (requestOf a)) = true ->
   attachment a = None /\ blank (userMessage a) = true).
Proof.
  unfold requestOf. cbv zeta.
  cbn [rq_googleSearch rq_model rq_thinkingBudget rq_maxOutputTokens
       rq_promptText].
  split; [|split].
  - destruct (opt (options a) useThinking).
    + rewrite andb_false_r. discriminate.
    + now intros _.
  - destruct (opt (options a) useThinking); split; intros H;
      try reflexivity; discriminate H.
  - destruct (attachment a) as [x|]; [|intros H; now split].
    destruct (blank (userMessage a)) eqn:B; [|congruence].
    destruct (att_type x); intros H; vm_compute in H; discriminate H.
Qed.

Lemma request_configuration_witness :
  rq_googleSearch (requestOf searchAndThink) = false /\
  blank (rq_promptText (requestOf recordingOnly)) = false /\
  (rq_maxOutputTokens (requestOf searchAndThink) = None ->
   rq_model (requestOf searchAndThink) = Gemini3ProPreview).
Proof.
  split; [reflexivity|]. split; [reflexivity|].
  exact (proj1 (proj1 (proj2 (request_configuration searchAndThink)))).
Defined.

Lemma repeat_snoc_cons {A : Type} (x : A) k : x :: repeat x k = repeat x (S k).
Proof. reflexivity. Qed.



(* ================================================================== *)
(** ** extractText *)

Lemma ReactNode_induction (P : ReactNode -> Prop) :
  P Falsy -> (forall s, P (Str s)) -> P Truthy ->
  (forall l, Forall P l -> P (Arr l)) ->
  (forall c, P c -> P (Elem c)) ->
  forall c, P c.
Proof.
  intros HF HS HT HA HE. fix IH 1. intros [|s| |l|c].
  - exact HF.
  - apply HS.
  - exact HT.
  - apply HA. induction l as [|x l IHl]; constructor; [apply IH | exact IHl].
  - apply HE, IH.
Qed.

Lemma extractText_falsy c : isFalsy c = true -> extractText c = [].
Proof.
  destruct c as [|s| |l|c]; intros H; try reflexivity; try discriminate H.
  cbn [extractText]. now rewrite H.
Qed.

Lemma extractText_Elem c : extractText (Elem c) = extractText c.
Proof.
  cbn [extractText isFalsy].
  destruct (isFalsy c) eqn:E; [|reflexivity].
  symmetry. now apply extractText_falsy.
Qed.

Lemma extractText_Arr l : extractText (Arr l) = concat (map extractText l).
Proof. reflexivity. Qed.

(** X19.  The text of a tree of children is the concatenation of the
    strings in it, from left to right: elements and arrays are looked
    through, at any depth, and whatever else is in the tree (numbers,
    booleans, [null]) adds nothing.  So wrapping in an element changes
    nothing, and the text of an array joined to another is the two
    texts joined. *)
Theorem extractText_is_the_strings (c : ReactNode) :
  extractText c = concat (strings c) /\
  extractText (Elem c) = extractText c /\
  (forall l1 l2, extractText (Arr (l1 ++ l2)) =
                 extractText (Arr l1) ++ extractText (Arr l2)).
Proof.
  split; [|split].
  - induction c as [|s| |l IH|c IH] using ReactNode_induction.
    + reflexivity.
    + simpl. rewrite app_nil_r. destruct s; reflexivity.
    + reflexivity.
    + rewrite extractText_Arr. cbn [strings].
      induction IH as [|x l Hx _ IHl]; [reflexivity|].
      cbn [map concat flat_map]. now rewrite concat_app, Hx, IHl.
    + rewrite extractText_Elem. exact IH.
  - apply extractText_Elem.
  - intros l1 l2. rewrite !extractText_Arr. now rewrite map_app, concat_app.
Qed.

(* ================================================================== *)
(** ** What the button shows *)

Lemma quieter_refl w : quieter w w.
Proof. now split. Qed.

Lemma quieter_trans a b c : quieter a b -> quieter b c -> quieter a c.
Proof. unfold quieter. intuition. Qed.

Lemma quieter_same w w' :
  isSpeaking w' = isSpeaking w -> isLoadingAudio w' = isLoadingAudio w ->
  quieter w w'.
Proof. unfold quieter. intros -> ->. now split. Qed.

Lemma streamSpeech_quieter call text rc w :
  quieter w (fst (streamSpeech call text rc w)).
Proof.
  rewrite streamSpeech_unfold. cbv zeta.
  destruct (getApiKey (pool (emit _ w))) as [key|] eqn:K; cbn [fst snd].
  - now apply quieter_same.
  - rewrite streamSpeechCatch_unfold. cbv zeta.
    set (w1 := emit (AConsoleError (TtsStreamError call)) (emit _ w)).
    assert (R : fst (rotateApiKey (pool w1)) = false)
      by (apply getApiKey_none_rotate; exact K).
    destruct (rc <? 3); [rewrite R|]; now apply quieter_same.
Qed.

Lemma streamSpeechCatch_quieter call text rc w :
  quieter w (streamSpeechCatch call text rc w).
Proof.
  rewrite streamSpeechCatch_unfold. cbv zeta.
  set (w1 := emit (AConsoleError (TtsStreamError call)) w).
  destruct (rc <? 3); [|now apply quieter_same].
  set (w2 := emit _ (set_pool _ w1)).
  assert (Q2 : quieter w w2) by now apply quieter_same.
  destruct (fst (rotateApiKey (pool w1))); [|exact Q2].
  exact (quieter_trans _ _ _ Q2 (streamSpeech_quieter call text (S rc) w2)).
Qed.

Lemma orchestrate_quieter chunks : forall w, quieter w (orchestrate chunks w).
Proof.
  induction chunks as [|chunk rest IH]; intros w; cbn [orchestrate];
    [apply quieter_refl|].
  destruct (negb (isSpeakingRef w)); [apply quieter_refl|].
  pose proof (streamSpeech_quieter (fresh w) chunk 0
                (set_fresh (S (fresh w)) w)) as Q.
  destruct (streamSpeech _ _ _ _) as [w1 promise]. cbn [fst] in Q.
  assert (Q1 : quieter w w1).
  { refine (quieter_trans _ _ _ _ Q). now apply quieter_same. }
  destruct promise as [rid| |].
  - refine (quieter_trans _ _ _ Q1 _). now apply quieter_same.
  - exact (quieter_trans _ _ _ Q1 (IH w1)).
  - refine (quieter_trans _ _ _ Q1 _). unfold handleSpeakCatch. cbv zeta.
    split; reflexivity.
Qed.

Lemma settle_quieter rid w : quieter w (settle rid w).
Proof.
  unfold settle.
  destruct (find (awaits rid) (tasks w)) as [[text|r rest]|];
    try apply quieter_refl.
  match goal with
  | |- quieter _ (orchestrate rest ?w1) =>
      refine (quieter_trans _ w1 _ _ (orchestrate_quieter rest w1))
  end.
  now apply quieter_same.
Qed.

Lemma scheduleChunk_quieter base64 w :
  quieter w (fst (scheduleChunk base64 w)).
Proof.
  unfold scheduleChunk. cbv zeta.
  change (audioContextRef (emit (AScheduleChunk base64) w))
    with (audioContextRef w).
  destruct (audioContextRef w); cbn [fst]; [|now apply quieter_same].
  destruct (decode base64); cbn [fst]; now apply quieter_same.
Qed.

Lemma resume_quieter waiting : forall w,
  quieter w (fold_left resumeTask waiting w).
Proof.
  induction waiting as [|t waiting IH]; intros w; [apply quieter_refl|].
  simpl. refine (quieter_trans _ _ _ _ (IH _)).
  destruct t as [cleanText|rid rest]; [|apply quieter_refl].
  unfold resumeTask, handleSpeakResumed. cbv zeta.
  match goal with
  | |- quieter _ (orchestrate ?l ?w1) =>
      refine (quieter_trans _ w1 _ _ (orchestrate_quieter l w1))
  end.
  now apply quieter_same.
Qed.

Lemma step_quieter w e : notHandleSpeak e = true -> quieter w (step w e).
Proof.
  intros He. destruct e; try discriminate He; cbn [step].
  - rewrite stopAudio_closed. split; reflexivity.
  - destruct (audioContextRef w); [now apply quieter_same | apply quieter_refl].
  - destruct (audioContextRef w) as [[|]|]; try apply quieter_refl.
    cbv zeta.
    match goal with
    | |- quieter _ (fold_left resumeTask ?l ?w1) =>
        refine (quieter_trans _ w1 _ _ (resume_quieter l w1))
    end.
    now apply quieter_same.
  - destruct (findRequest rid w); [|apply quieter_refl].
    unfold onStreamChunk. destruct audioData as [data|]; [|apply quieter_refl].
    destruct (truthy data); [|apply quieter_refl].
    unfold onAudioChunk.
    destruct (negb (isSpeakingRef w)); [apply quieter_refl|].
    refine (quieter_trans _ (set_isLoadingAudio false w) _ _
              (scheduleChunk_quieter data _)).
    split; [now intros H | reflexivity].
  - destruct (findRequest rid w); [|apply quieter_refl].
    refine (quieter_trans _ (dropRequest rid w) _ _ (settle_quieter rid _)).
    now apply quieter_same.
  - destruct (findRequest rid w) as [r|]; [|apply quieter_refl].
    refine (quieter_trans _ _ _ _ (settle_quieter rid _)).
    refine (quieter_trans _ (dropRequest rid w) _ _
              (streamSpeechCatch_quieter _ _ _ _)).
    now apply quieter_same.
  - destruct (started node w); [|apply quieter_refl].
    unfold onended. cbv zeta. cbn [sourcesRef set_sourcesRef].
    destruct (removeNode node (sourcesRef w)); [|now apply quieter_same].
    destruct (Qle_bool _ _); [|now apply quieter_same].
    split; [reflexivity | now intros H].
  - destruct (Qle_bool _ _); [now apply quieter_same | apply quieter_refl].
Qed.

(** X20.  Only a click starts the player.  For as long as [handleSpeak]
    is not invoked, whatever the network, the audio nodes and the clock
    do, a component that does not show speaking goes on not showing it,
    and the loading state, once over, does not come back: an idle
    component stays idle. *)
Theorem only_handleSpeak_starts (w : World) (events : list Event) :
  forallb notHandleSpeak events = true ->
  (isSpeaking w = false -> isSpeaking (run w events) = false) /\
  (isLoadingAudio w = false -> isLoadingAudio (run w events) = false) /\
  (phase w = Idle -> phase (run w events) = Idle).
Proof.
  intros He.
  assert (Q : quieter w (run w events)).
  { revert w. induction events as [|e events IH]; intros w;
      [apply quieter_refl|].
    cbn [forallb] in He. apply andb_prop in He as [H1 H2].
    change (run w (e :: events)) with (run (step w e) events).
    exact (quieter_trans _ _ _ (step_quieter w e H1) (IH H2 _)). }
  destruct Q as [Q1 Q2]. split; [exact Q1|]. split; [exact Q2|].
  unfold phase. intros Hp.
  destruct (isLoadingAudio w); [discriminate|].
  destruct (isSpeaking w); [discriminate|].
  now rewrite Q2, Q1.
Qed.

Lemma only_handleSpeak_starts_witness :
  forallb notHandleSpeak [EvFrame 1 (Some pcmFrame); EvClose 1] = true /\
  phase stoppedEarly = Idle /\
  phase (run stoppedEarly [EvFrame 1 (Some pcmFrame); EvClose 1]) = Idle.
Proof.
  assert (H1 : forallb notHandleSpeak [EvFrame 1 (Some pcmFrame); EvClose 1]
               = true) by reflexivity.
  assert (H2 : phase stoppedEarly = Idle) by reflexivity.
  split; [exact H1|]. split; [exact H2|].
  exact (proj2 (proj2 (only_handleSpeak_starts stoppedEarly _ H1)) H2).
Defined.
